(** * Lottery-ticket sorting benchmark (src/main.cpp): a shallow embedding

    The development follows the layout of the C++ file:
    the [LotteryTicket] class and its comparison operators, the three
    hand-written sorting templates ([selectionSort], [bubbleSort],
    [heapify] / [heapSort]), the text loader and writer, and the
    benchmarking [main].

    Modelling conventions.
    - [long long] and [int] fields are integers of [Z]; the ranges of the
      machine types are stated where a result depends on them (printing and
      parsing).
    - [std::string] is [string]; comparison is the byte-wise lexicographic
      one of [std::char_traits<char>].
    - [std::vector<T>] is [list T]; [arr[i]] outside [0, size) is undefined
      behaviour in C++ and is the explicit fault [IndexOutOfBounds] here.
    - the [int] loop counters and indices are natural numbers: on a vector
      of fewer than 2^30 elements no counter or index expression of the
      three templates leaves the range of [int], so their arithmetic is
      exact (the datasets of the program have at most 100000 records).
    - [std::sort], [std::stoll], [std::stoi], [std::getline] and the
      stream insertion of integers are library code; they are modelled
      from the C++ standard, [std::sort] by its contract only.
    - [std::chrono::high_resolution_clock::now()] is an oracle: the [k]-th
      reading of a run is [now k], a count of nanoseconds, and
      [duration_cast<milliseconds>] truncates toward zero.
    - a run of the benchmark transforms a world: the files, the number of
      readings of the clock taken, and the trace of what was done, in order
      (readings of the clock, calls of the sorting algorithms, files opened
      for output, lines printed).  An exception carries the world it
      leaves. *)

From Stdlib Require Import ZArith Ascii Sorted Permutation Lia.
From stdpp Require Import base tactics option list sorting strings gmap.

(** ** Outcomes of fallible code *)

Inductive result (E A : Type) : Type :=
| Ok (a : A)
| Err (e : E).
Arguments Ok {E A} a.
Arguments Err {E A} e.

Definition bind {E A B} (m : result E A) (k : A -> result E B) : result E B :=
  match m with
  | Ok a => k a
  | Err e => Err e
  end.

Notation "x <- m ;; k" := (bind m (fun x => k))
  (at level 100, m at next level, right associativity).

(** What can go wrong in the in-memory algorithms. *)
Inductive fault : Type :=
| IndexOutOfBounds   (* arr[i] with i outside the vector *)
| FuelExhausted.     (* the recursion budget of the model ran out *)

(** ** class LotteryTicket *)

Record LotteryTicket : Type := mkLotteryTicket {
  ticketNumber : Z;       (* long long *)
  cost : Z;               (* int *)
  lotteryDate : string;   (* std::string, "YYYY-MM-DD" *)
  winAmount : Z           (* int *)
}.

(** [std::string::operator<]: lexicographic on the bytes read as unsigned
    values; a proper prefix is smaller. *)
Fixpoint string_lt (s t : string) : bool :=
  match s, t with
  | EmptyString, EmptyString => false
  | EmptyString, String _ _ => true
  | String _ _, EmptyString => false
  | String a s', String b t' =>
      if (N_of_ascii a <? N_of_ascii b)%N then true
      else if (N_of_ascii b <? N_of_ascii a)%N then false
      else string_lt s' t'
  end.

(** [bool operator<(const LotteryTicket& other) const] *)
Definition ticket_lt (this other : LotteryTicket) : bool :=
  if negb (String.eqb (lotteryDate this) (lotteryDate other)) then
    string_lt (lotteryDate this) (lotteryDate other)
  else if negb (winAmount this =? winAmount other)%Z then
    (winAmount this >? winAmount other)%Z
  else
    (ticketNumber this <? ticketNumber other)%Z.

(** [operator>], [operator<=], [operator>=] *)
Definition ticket_gt (this other : LotteryTicket) : bool := ticket_lt other this.
Definition ticket_le (this other : LotteryTicket) : bool := negb (ticket_gt this other).
Definition ticket_ge (this other : LotteryTicket) : bool := negb (ticket_lt this other).

(** The specification's reading of "lexicographically smaller": the two
    strings share a prefix after which the first one ends, or continues
    with a smaller byte. *)
Inductive lex_lt : string -> string -> Prop :=
| lex_prefix p c t : lex_lt p (p +:+ String c t)
| lex_differ p a s b t :
    (N_of_ascii a < N_of_ascii b)%N ->
    lex_lt (p +:+ String a s) (p +:+ String b t).

(** The three-level rule of the specification, as a proposition. *)
Definition precedes (a b : LotteryTicket) : Prop :=
  lex_lt (lotteryDate a) (lotteryDate b)
  \/ (lotteryDate a = lotteryDate b /\ (winAmount b < winAmount a)%Z)
  \/ (lotteryDate a = lotteryDate b /\ winAmount a = winAmount b
      /\ (ticketNumber a < ticketNumber b)%Z).

(** Two tickets with the same sort key (they may differ in [cost]). *)
Definition same_key (a b : LotteryTicket) : Prop :=
  lotteryDate a = lotteryDate b /\ winAmount a = winAmount b
  /\ ticketNumber a = ticketNumber b.

(** ** The sorting templates

    [template<typename T>]: the element type must support [operator<]
    (selection sort) and [operator>] (bubble sort, heapify). *)

Class Comparable (T : Type) : Type := {
  op_lt : T -> T -> bool;
  op_gt : T -> T -> bool
}.

#[export] Instance LotteryTicket_Comparable : Comparable LotteryTicket :=
  {| op_lt := ticket_lt; op_gt := ticket_gt |}.

Section Loops.
Context {St : Type}.

(** [for (int j = lo; j < hi; j++) body] : [count] iterations are left and
    the counter stands at [j]. *)
Fixpoint for_up (count j : nat) (body : nat -> St -> result fault St) (s : St)
  : result fault St :=
  match count with
  | O => Ok s
  | S count' => s' <- body j s ;; for_up count' (S j) body s'
  end.

Definition for_range (lo hi : nat) (body : nat -> St -> result fault St) (s : St)
  : result fault St :=
  for_up (hi - lo) lo body s.

(** [for (int i = hi - 1; i >= lo; i--) body] : the counter runs through
    [lo .. hi-1] downwards. *)
Fixpoint for_down (count lo : nat) (body : nat -> St -> result fault St) (s : St)
  : result fault St :=
  match count with
  | O => Ok s
  | S count' => s' <- body (lo + count') s ;; for_down count' lo body s'
  end.

Definition for_rev (lo hi : nat) (body : nat -> St -> result fault St) (s : St)
  : result fault St :=
  for_down (hi - lo) lo body s.
End Loops.

Section Sorting.
Context {T : Type} `{Comparable T}.

(** [arr[i]] *)
Definition vec_at (arr : list T) (i : nat) : result fault T :=
  match arr !! i with
  | Some x => Ok x
  | None => Err IndexOutOfBounds
  end.

(** [std::swap(arr[i], arr[j])] *)
Definition swap (arr : list T) (i j : nat) : result fault (list T) :=
  x <- vec_at arr i ;;
  y <- vec_at arr j ;;
  Ok (<[j := x]> (<[i := y]> arr)).

(** [selectionSort], lines 91-105. *)
Definition selection_min (arr : list T) (n i : nat) : result fault nat :=
  for_range (i + 1) n (fun j min_idx =>
    aj <- vec_at arr j ;;
    am <- vec_at arr min_idx ;;
    Ok (if op_lt aj am then j else min_idx)) i.

Definition selectionSort (arr : list T) : result fault (list T) :=
  let n := length arr in
  for_range 0 (n - 1) (fun i arr =>
    min_idx <- selection_min arr n i ;;
    if negb (min_idx =? i) then swap arr i min_idx else Ok arr) arr.

(** [bubbleSort], lines 112-122. *)
Definition bubble_step (j : nat) (arr : list T) : result fault (list T) :=
  a <- vec_at arr j ;;
  b <- vec_at arr (j + 1) ;;
  if op_gt a b then swap arr j (j + 1) else Ok arr.

Definition bubble_pass (n i : nat) (arr : list T) : result fault (list T) :=
  for_range 0 (n - i - 1) bubble_step arr.

Definition bubbleSort (arr : list T) : result fault (list T) :=
  let n := length arr in
  for_range 0 (n - 1) (bubble_pass n) arr.

(** The same loops with a ghost log of what was executed: the start of
    every outer iteration and every comparison with its two operands and
    whether the swap was taken. *)
Inductive bubble_event : Type :=
| PassBegin (i : nat)
| Compared (j : nat) (left right : T) (swapped : bool).

Definition bubble_step_logged (j : nat) (st : list T * list bubble_event)
  : result fault (list T * list bubble_event) :=
  let '(arr, log) := st in
  a <- vec_at arr j ;;
  b <- vec_at arr (j + 1) ;;
  if op_gt a b then
    arr' <- swap arr j (j + 1) ;; Ok (arr', log ++ [Compared j a b true])
  else Ok (arr, log ++ [Compared j a b false]).

Definition bubble_pass_logged (n i : nat) (st : list T * list bubble_event)
  : result fault (list T * list bubble_event) :=
  let '(arr, log) := st in
  for_range 0 (n - i - 1) bubble_step_logged (arr, log ++ [PassBegin i]).

Definition bubbleSort_logged (arr : list T)
  : result fault (list T * list bubble_event) :=
  let n := length arr in
  for_range 0 (n - 1) (bubble_pass_logged n) (arr, []).

(** [heapify], lines 131-144.  [heapify_largest] is lines 133-138. *)
Definition pick_larger (arr : list T) (n child largest : nat) : result fault nat :=
  if child <? n then
    a <- vec_at arr child ;;
    b <- vec_at arr largest ;;
    Ok (if op_gt a b then child else largest)
  else Ok largest.

Definition heapify_largest (arr : list T) (n i : nat) : result fault nat :=
  let largest := i in
  let left := 2 * i + 1 in
  let right := 2 * i + 2 in
  largest <- pick_larger arr n left largest ;;
  pick_larger arr n right largest.

(** The recursion of [heapify] is not structural; [fuel] bounds its depth
    and [FuelExhausted] is the outcome of a call that would go deeper. *)
Fixpoint heapify_rec (fuel : nat) (arr : list T) (n i : nat) : result fault (list T) :=
  match fuel with
  | O => Err FuelExhausted
  | S fuel' =>
      largest <- heapify_largest arr n i ;;
      if negb (largest =? i) then
        arr' <- swap arr i largest ;;
        heapify_rec fuel' arr' n largest
      else Ok arr
  end.

Definition heapify (arr : list T) (n i : nat) : result fault (list T) :=
  heapify_rec (S n) arr n i.

(** [heapSort], lines 151-159. *)
Definition heapSort (arr : list T) : result fault (list T) :=
  let n := length arr in
  arr <- for_rev 0 (n / 2) (fun i arr => heapify arr n i) arr ;;
  for_rev 1 n (fun i arr => arr <- swap arr 0 i ;; heapify arr i 0) arr.
End Sorting.


(** ** Text input and output *)

(** What the program can throw, and the faults of the model, in one type. *)
Inductive exn : Type :=
| runtime_error (what : string)
| invalid_argument (what : string)
| out_of_range (what : string).

Inductive error : Type :=
| Fault (f : fault)
| Thrown (e : exn).

Definition lift_fault {A} (m : result fault A) : result error A :=
  match m with
  | Ok a => Ok a
  | Err f => Err (Fault f)
  end.

Definition throw {A} (e : exn) : result error A := Err (Thrown e).

(** *** Printing integers: [os << n] in the classic locale *)

Definition digit_char (d : N) : ascii := ascii_of_N (48 + d).

(** Decimal digits of [n], most significant first; [fuel] bounds the number
    of digits. *)
Fixpoint show_digits (fuel : nat) (n : N) : string :=
  match fuel with
  | O => ""
  | S fuel' =>
      if (n <? 10)%N then String (digit_char n) ""
      else show_digits fuel' (n / 10)%N +:+ String (digit_char (n mod 10)%N) ""
  end.

Definition show_N (n : N) : string := show_digits (S (N.to_nat (N.log2 n))) n.

Definition show_Z (z : Z) : string :=
  match z with
  | Z0 => "0"
  | Zpos p => show_N (Npos p)
  | Zneg p => String "-" (show_N (Npos p))
  end.

(** [std::ostream& operator<<(std::ostream&, const LotteryTicket&)],
    lines 79-82: what is appended to the stream. *)
Definition show_ticket (ticket : LotteryTicket) : string :=
  show_Z (ticketNumber ticket) +:+ "," +:+ show_Z (cost ticket) +:+ ","
  +:+ lotteryDate ticket +:+ "," +:+ show_Z (winAmount ticket).

(** *** Parsing integers: [std::stoll], [std::stoi]

    Both go through [strtoll]/[strtol] in base 10: leading white space is
    skipped, one sign is accepted, the longest run of digits is converted
    and whatever follows is ignored.  No digit at all is
    [std::invalid_argument]; a value outside the target type is
    [std::out_of_range]. *)

Definition is_space (c : ascii) : bool :=
  let n := N_of_ascii c in
  (n =? 32)%N || ((9 <=? n)%N && (n <=? 13)%N).

Definition is_digit (c : ascii) : bool :=
  let n := N_of_ascii c in
  (48 <=? n)%N && (n <=? 57)%N.

Definition digit_value (c : ascii) : Z := Z.of_N (N_of_ascii c) - 48.

Fixpoint skip_spaces (s : string) : string :=
  match s with
  | String c s' => if is_space c then skip_spaces s' else s
  | EmptyString => EmptyString
  end.

(** Value of the longest digit prefix of [s], continuing from [acc]. *)
Fixpoint read_digits (s : string) (acc : Z) : Z :=
  match s with
  | String c s' =>
      if is_digit c then read_digits s' (acc * 10 + digit_value c)%Z else acc
  | EmptyString => acc
  end.

Definition starts_with_digit (s : string) : bool :=
  match s with
  | String c _ => is_digit c
  | EmptyString => false
  end.

(** The mathematical value converted by [strtoll(s, &end, 10)], or [None]
    when no conversion can be performed. *)
Definition strtoll (s : string) : option Z :=
  let s := skip_spaces s in
  let '(negative, s) :=
    match s with
    | String c s' =>
        if Ascii.eqb c "-" then (true, s')
        else if Ascii.eqb c "+" then (false, s')
        else (false, s)
    | EmptyString => (false, s)
    end in
  if starts_with_digit s then
    Some (if negative then (- read_digits s 0)%Z else read_digits s 0)
  else None.

Definition LLONG_MIN : Z := (- 2 ^ 63)%Z.
Definition LLONG_MAX : Z := (2 ^ 63 - 1)%Z.
Definition INT_MIN : Z := (- 2 ^ 31)%Z.
Definition INT_MAX : Z := (2 ^ 31 - 1)%Z.

Definition stoll (str : string) : result error Z :=
  match strtoll str with
  | None => throw (invalid_argument "stoll")
  | Some v =>
      if (LLONG_MIN <=? v)%Z && (v <=? LLONG_MAX)%Z then Ok v
      else throw (out_of_range "stoll")
  end.

Definition stoi (str : string) : result error Z :=
  match strtoll str with
  | None => throw (invalid_argument "stoi")
  | Some v =>
      if (INT_MIN <=? v)%Z && (v <=? INT_MAX)%Z then Ok v
      else throw (out_of_range "stoi")
  end.

(** *** Input streams and [std::getline] *)

Record istream : Type := mkIstream {
  pending : string;   (* characters not yet extracted *)
  eofbit : bool;
  failbit : bool
}.

Definition open_stream (content : string) : istream :=
  mkIstream content false false.

(** Characters of [s] before the first [delim], and what follows that
    [delim] ([None] when [s] has no [delim]). *)
Fixpoint cut (delim : ascii) (s : string) : string * option string :=
  match s with
  | EmptyString => (EmptyString, None)
  | String c s' =>
      if Ascii.eqb c delim then (EmptyString, Some s')
      else let '(field, rest) := cut delim s' in (String c field, rest)
  end.

(** [std::getline(input, str, delim)]: the stream and the string after the
    call.  A stream that is not good is only marked failed and [str] keeps
    its value; otherwise [str] is replaced by the characters up to the
    delimiter, which is extracted and dropped; reaching the end of the
    input sets [eofbit], and [failbit] as well when nothing was
    extracted. *)
Definition is_empty (s : string) : bool :=
  match s with
  | EmptyString => true
  | String _ _ => false
  end.

Definition getline (input : istream) (str : string) (delim : ascii) : istream * string :=
  if eofbit input || failbit input then
    (mkIstream (pending input) (eofbit input) true, str)
  else
    match cut delim (pending input) with
    | (field, Some rest) => (mkIstream rest false false, field)
    | (field, None) => (mkIstream "" true (is_empty field), field)
    end.

(** *** The file system *)

Record filesystem : Type := mkFilesystem {
  contents : gmap string string;   (* the files that exist *)
  unwritable : gset string         (* names that cannot be opened for writing *)
}.

Definition write_file (fs : filesystem) (name text : string) : filesystem :=
  mkFilesystem (<[name := text]> (contents fs)) (unwritable fs).

(** *** [readTicketsFromFile], lines 167-189 *)

(** The body of the [while] loop: one line to one ticket. *)
Definition parse_line (line : string) : result error LotteryTicket :=
  let ss := open_stream line in
  let item := "" in
  let '(ss, item) := getline ss item "," in
  num <- stoll item ;;
  let '(ss, item) := getline ss item "," in
  cost <- stoi item ;;
  let '(ss, item) := getline ss item "," in
  let date := item in
  let '(ss, item) := getline ss item "," in
  win <- stoi item ;;
  Ok (mkLotteryTicket num cost date win).

(** [while (std::getline(file, line)) { ... }]: [fuel] bounds the number of
    iterations. *)
Fixpoint read_loop (fuel : nat) (file : istream) (line : string)
    (tickets : list LotteryTicket) : result error (list LotteryTicket) :=
  match fuel with
  | O => Err (Fault FuelExhausted)
  | S fuel' =>
      let '(file, line) := getline file line "010" in
      if failbit file then Ok tickets
      else
        ticket <- parse_line line ;;
        read_loop fuel' file line (tickets ++ [ticket])
  end.

Definition readTicketsFromFile (fs : filesystem) (filename : string)
  : result error (list LotteryTicket) :=
  match contents fs !! filename with
  | None => throw (runtime_error ("Could not open file: " +:+ filename))
  | Some content =>
      read_loop (String.length content + 2) (open_stream content) "" []
  end.

(** *** [writeTicketsToFile], lines 197-205 *)

Fixpoint write_tickets (tickets : list LotteryTicket) (terminator : string) : string :=
  match tickets with
  | [] => ""
  | ticket :: rest => show_ticket ticket +:+ terminator +:+ write_tickets rest terminator
  end.

Definition newline : string := String "010" "".

Definition writeTicketsToFile (fs : filesystem) (filename : string)
    (tickets : list LotteryTicket) : result error filesystem :=
  if decide (filename ∈ unwritable fs) then
    throw (runtime_error ("Could not open file for writing: " +:+ filename))
  else Ok (write_file fs filename (write_tickets tickets newline)).

(** Records whose fields fit their C++ types and whose date holds neither
    the field delimiter nor a line break. *)
Fixpoint free_of (c : ascii) (s : string) : bool :=
  match s with
  | EmptyString => true
  | String a s' => negb (Ascii.eqb a c) && free_of c s'
  end.

Definition well_formed (t : LotteryTicket) : Prop :=
  (LLONG_MIN <= ticketNumber t <= LLONG_MAX)%Z
  /\ (INT_MIN <= cost t <= INT_MAX)%Z
  /\ (INT_MIN <= winAmount t <= INT_MAX)%Z
  /\ free_of "," (lotteryDate t) = true
  /\ free_of "010" (lotteryDate t) = true.

(** ** The benchmark harness *)

Inductive algorithm : Type := StdSort | BubbleSort | SelectionSort | HeapSort.

(** One invocation of a sorting algorithm: which one, and the vector it was
    handed. *)
Record invocation : Type := mkInvocation {
  inv_algorithm : algorithm;
  inv_input : list LotteryTicket
}.

(** What a run does, in the order in which it does it: it reads the clock
    (for the [k]-th time), calls a sorting algorithm, opens a file for
    output, prints a line on [std::cout]. *)
Inductive event : Type :=
| ClockRead (k : nat)
| Call (i : invocation)
| Opened (name : string)
| Printed (text : string).

Record world : Type := mkWorld {
  disk : filesystem;
  clock_reads : nat;              (* readings of the clock taken so far *)
  trace : list event              (* what has happened so far, oldest first *)
}.

(** The calls of sorting algorithms among the events. *)
Fixpoint calls (es : list event) : list invocation :=
  match es with
  | [] => []
  | Call i :: es' => i :: calls es'
  | _ :: es' => calls es'
  end.

Definition invocations (w : world) : list invocation := calls (trace w).

(** An exception that leaves a function, and the world it leaves behind:
    what was done before the [throw] stays done. *)
Definition failure : Type := error * world.

Definition thrown_in {A : Type} (w : world) (m : result error A) : result failure A :=
  match m with
  | Ok a => Ok a
  | Err e => Err (e, w)
  end.

(** [for (auto x : xs) body] *)
Fixpoint for_each {E A St : Type} (xs : list A) (body : A -> St -> result E St)
    (s : St) : result E St :=
  match xs with
  | [] => Ok s
  | x :: xs' => s' <- body x s ;; for_each xs' body s'
  end.

(** [std::ofstream out; out.open(name); ... out.close();] without a test of
    the stream: when the file cannot be opened the output is dropped. *)
Definition write_unchecked (fs : filesystem) (name text : string) : filesystem :=
  if decide (name ∈ unwritable fs) then fs else write_file fs name text.

(** [std::chrono::duration_cast<std::chrono::milliseconds>(d).count()] for
    the difference [d] of two readings of [high_resolution_clock], which
    counts nanoseconds: the quotient by 10^6, truncated toward zero. *)
Definition duration_cast_milliseconds (d : Z) : Z := Z.quot d 1000000.

Section Harness.
(** [std::sort(first, last)] with [operator<], and the readings of
    [std::chrono::high_resolution_clock::now()] in nanoseconds: the
    [k]-th reading of a run is [now k]. *)
Variable std_sort : forall T : Type, (T -> T -> bool) -> list T -> list T.
Variable now : nat -> Z.

Definition read_clock (w : world) : Z * world :=
  (now (clock_reads w),
   mkWorld (disk w) (S (clock_reads w)) (trace w ++ [ClockRead (clock_reads w)])).

Definition enter (alg : algorithm) (tickets : list LotteryTicket) (w : world) : world :=
  mkWorld (disk w) (clock_reads w) (trace w ++ [Call (mkInvocation alg tickets)]).

(** [out.open(name); out << text; out.close();] *)
Definition output (name text : string) (w : world) : world :=
  mkWorld (write_unchecked (disk w) name text) (clock_reads w)
          (trace w ++ [Opened name]).

Definition save (name : string) (tickets : list LotteryTicket) (w : world) : world :=
  output name (write_tickets tickets newline) w.

Definition size_suffix (tickets : list LotteryTicket) : string :=
  show_Z (Z.of_nat (length tickets)).

(** [measureStdSort], lines 229-236. *)
Definition measureStdSort (tickets : list LotteryTicket) (w : world)
  : result failure (Z * world) :=
  let '(start, w) := read_clock w in
  let w := enter StdSort tickets w in
  let tickets := std_sort LotteryTicket ticket_lt tickets in
  let '(finish, w) := read_clock w in
  Ok (duration_cast_milliseconds (finish - start), w).

(** [measureSelectionSort], lines 243-259. *)
Definition measureSelectionSort (tickets : list LotteryTicket) (w : world)
  : result failure (Z * world) :=
  let '(start, w) := read_clock w in
  let w := enter SelectionSort tickets w in
  tickets <- thrown_in w (lift_fault (selectionSort tickets)) ;;
  let '(finish, w) := read_clock w in
  let filename := "lottery_selection_sort_" +:+ size_suffix tickets in
  let w := save filename tickets w in
  Ok (duration_cast_milliseconds (finish - start), w).

(** [measureBubbleSort], lines 266-282. *)
Definition measureBubbleSort (tickets : list LotteryTicket) (w : world)
  : result failure (Z * world) :=
  let '(start, w) := read_clock w in
  let w := enter BubbleSort tickets w in
  tickets <- thrown_in w (lift_fault (bubbleSort tickets)) ;;
  let '(finish, w) := read_clock w in
  let filename := "lottery_bubble_sort_" +:+ size_suffix tickets in
  let w := save filename tickets w in
  Ok (duration_cast_milliseconds (finish - start), w).

(** [measureHeapSort], lines 289-305. *)
Definition measureHeapSort (tickets : list LotteryTicket) (w : world)
  : result failure (Z * world) :=
  let '(start, w) := read_clock w in
  let w := enter HeapSort tickets w in
  tickets <- thrown_in w (lift_fault (heapSort tickets)) ;;
  let '(finish, w) := read_clock w in
  let filename := "lottery_heap_sort_" +:+ size_suffix tickets in
  let w := save filename tickets w in
  Ok (duration_cast_milliseconds (finish - start), w).

(** [for (auto arr : arrs_tickets) times.push_back(measure(arr));] *)
Definition measure_all
    (measure : list LotteryTicket -> world -> result failure (Z * world))
    (arrs_tickets : list (list LotteryTicket)) (w : world)
  : result failure (list Z * world) :=
  for_each arrs_tickets (fun arr '(times, w) =>
    timed <- measure arr w ;;
    let '(t, w) := timed in Ok (times ++ [t], w)) ([], w).

Definition tab : string := String "009" "".

(** Lines 354-356: one line of "time_sorts.txt". *)
Definition table_row (arr_size std_sort_times std_bubble_times
    std_selection_times std_heap_times : list Z) (i : nat) : result fault string :=
  size <- vec_at arr_size i ;;
  t_std <- vec_at std_sort_times i ;;
  t_bubble <- vec_at std_bubble_times i ;;
  t_selection <- vec_at std_selection_times i ;;
  t_heap <- vec_at std_heap_times i ;;
  Ok (show_Z size +:+ tab +:+ show_Z t_std +:+ tab +:+ show_Z t_bubble +:+ tab
      +:+ show_Z t_selection +:+ tab +:+ show_Z t_heap +:+ newline).

(** Lines 322-328: the file names of the sweep, and their datasets. *)
Definition dataset_name (el : Z) : string := "lottery_" +:+ show_Z el +:+ ".txt".

Definition load_all (fs : filesystem) (filenames : list string)
  : result error (list (list LotteryTicket)) :=
  for_each filenames (fun name arrs =>
    tickets <- readTicketsFromFile fs name ;; Ok (arrs ++ [tickets])) [].

(** The body of [main], lines 316-358, for a given size sweep.  A run
    that ends by an exception gives the exception and the world it
    leaves.  The text of the table is put together before it is written:
    the four vectors of durations are as long as the sweep, so no row
    reads outside a vector and the text is always there. *)
Definition harness (arr_size : list Z) (w : world) : result failure world :=
  let filenames := map dataset_name arr_size in
  arrs_tickets <- thrown_in w (load_all (disk w) filenames) ;;
  measured <- measure_all measureStdSort arrs_tickets w ;;
  let '(std_sort_times, w) := measured in
  measured <- measure_all measureBubbleSort arrs_tickets w ;;
  let '(std_bubble_times, w) := measured in
  measured <- measure_all measureSelectionSort arrs_tickets w ;;
  let '(std_selection_times, w) := measured in
  measured <- measure_all measureHeapSort arrs_tickets w ;;
  let '(std_heap_times, w) := measured in
  text <- thrown_in w (lift_fault (for_range 0 (length std_sort_times) (fun i text =>
    row <- table_row arr_size std_sort_times std_bubble_times
             std_selection_times std_heap_times i ;;
    Ok (text +:+ row)) "")) ;;
  Ok (output "time_sorts.txt" text w).

Definition main_sizes : list Z :=
  [100; 500; 1000; 2500; 5000; 7500; 10000; 12500; 15000; 20000; 30000;
   40000; 50000; 60000; 80000; 100000]%Z.

Definition main (w : world) : result failure world := harness main_sizes w.
End Harness.

(** The order of execution the specification describes: size by size, the
    four algorithms in the order reference, bubble, selection, heap. *)
Definition size_major (datasets : list (list LotteryTicket)) : list invocation :=
  concat (map (fun d =>
    [mkInvocation StdSort d; mkInvocation BubbleSort d;
     mkInvocation SelectionSort d; mkInvocation HeapSort d]) datasets).

(** The order of execution of [main]: algorithm by algorithm, each over the
    whole sweep. *)
Definition algorithm_major (datasets : list (list LotteryTicket)) : list invocation :=
  map (mkInvocation StdSort) datasets ++ map (mkInvocation BubbleSort) datasets
  ++ map (mkInvocation SelectionSort) datasets ++ map (mkInvocation HeapSort) datasets.

(** A row of the results table as the specification names its columns, and
    its text. *)
Record table_line : Type := mkTableLine {
  size : Z;
  reference_ms : Z;
  bubble_ms : Z;
  selection_ms : Z;
  heap_ms : Z
}.

Definition show_line (r : table_line) : string :=
  show_Z (size r) +:+ tab +:+ show_Z (reference_ms r) +:+ tab
  +:+ show_Z (bubble_ms r) +:+ tab +:+ show_Z (selection_ms r) +:+ tab
  +:+ show_Z (heap_ms r) +:+ newline.

Fixpoint show_table (rows : list table_line) : string :=
  match rows with
  | [] => ""
  | r :: rows' => show_line r +:+ show_table rows'
  end.

(** ** Vocabulary of the specification for the loader *)

(** The lines of a text: the pieces ended by a line break, and a last piece
    without one when it is not empty. *)
Fixpoint file_lines (s : string) : list string :=
  match s with
  | EmptyString => []
  | String c s' =>
      if Ascii.eqb c "010" then "" :: file_lines s'
      else match file_lines s' with
           | [] => [String c ""]
           | l :: ls => String c l :: ls
           end
  end.

(** The comma-separated fields of a line (at least one). *)
Fixpoint fields (s : string) : list string :=
  match s with
  | EmptyString => [""]
  | String c s' =>
      if Ascii.eqb c "," then "" :: fields s'
      else match fields s' with
           | [] => [String c ""]
           | f :: fs => String c f :: fs
           end
  end.

Definition succeeds {E A} (m : result E A) : Prop := exists a, m = Ok a.
Definition fails {E A} (m : result E A) : Prop := exists e, m = Err e.

(** "A line can be parsed into the four typed fields": it has exactly four
    fields and the three numeric ones convert. *)
Definition four_typed_fields (line : string) : Prop :=
  exists num cost date win,
    fields line = [num; cost; date; win]
    /\ succeeds (stoll num) /\ succeeds (stoi cost) /\ succeeds (stoi win).

(** The item the loader converts in position [k] (from 0) of a line: the
    [k]-th field, or the last field of a line that has fewer. *)
Definition item (line : string) (k : nat) : string :=
  let fs := fields line in
  nth (Nat.min k (length fs - 1)) fs "".

(** What the loader makes of one line, in terms of its items. *)
Definition convert_line (line : string) : result error LotteryTicket :=
  num <- stoll (item line 0) ;;
  cost <- stoi (item line 1) ;;
  win <- stoi (item line 3) ;;
  Ok (mkLotteryTicket num cost (item line 2) win).

(** ** Vocabulary of the specification for sorting *)

(** The requirements of the C++ standard on a comparison ([Compare]): a
    strict weak ordering. *)
Record strict_weak_order {T : Type} (comp : T -> T -> bool) : Prop := {
  swo_irrefl : forall a, comp a a = false;
  swo_trans : forall a b c, comp a b = true -> comp b c = true -> comp a c = true;
  swo_equiv_trans : forall a b c,
    comp a b = false -> comp b a = false ->
    comp b c = false -> comp c b = false ->
    comp a c = false /\ comp c a = false
}.

(** Non-decreasing under [comp]: no element is smaller than an earlier one. *)
Definition sorted_by {T : Type} (comp : T -> T -> bool) (l : list T) : Prop :=
  StronglySorted (fun a b => comp b a = false) l.

(** The contract of [std::sort] for a comparison meeting the requirements. *)
Definition sort_contract
    (std_sort : forall T : Type, (T -> T -> bool) -> list T -> list T) : Prop :=
  forall (T : Type) (comp : T -> T -> bool), strict_weak_order comp ->
    forall l, Permutation l (std_sort T comp l) /\ sorted_by comp (std_sort T comp l).

(** Neither smaller than the other. *)
Definition equivalent {T : Type} `{Comparable T} (a b : T) : bool :=
  negb (op_lt a b) && negb (op_lt b a).

(** The schedule of [bubbleSort] on [n] elements: which events a run logs,
    whatever the data. *)
Inductive schedule_item : Type :=
| Pass (i : nat)
| Comparison (j : nat).

Definition erase_event {T : Type} (e : @bubble_event T) : schedule_item :=
  match e with
  | PassBegin i => Pass i
  | Compared j _ _ _ => Comparison j
  end.

Definition bubble_schedule (n : nat) : list schedule_item :=
  concat (map (fun i => Pass i :: map Comparison (seq 0 (n - i - 1))) (seq 0 (n - 1))).

Definition is_pass (e : schedule_item) : bool :=
  match e with
  | Pass _ => true
  | Comparison _ => false
  end.

(** A reference implementation meeting [sort_contract]: insertion sort. *)
Fixpoint insert_sorted {T : Type} (comp : T -> T -> bool) (x : T) (l : list T) : list T :=
  match l with
  | [] => [x]
  | y :: l' => if comp x y then x :: l else y :: insert_sorted comp x l'
  end.

Fixpoint insertion_sort (T : Type) (comp : T -> T -> bool) (l : list T) : list T :=
  match l with
  | [] => []
  | x :: l' => insert_sorted comp x (insertion_sort T comp l')
  end.

(** ** Auxiliary notions of the proofs *)

(** The index whose old content stands at [k] after exchanging [i], [j]. *)
Definition transpose (i j k : nat) : nat :=
  if decide (k = i) then j else if decide (k = j) then i else k.

(** The pairs of positions [p < q] selected by [P] hold elements in order. *)
Definition pairs_ordered {T : Type} (comp : T -> T -> bool) (arr : list T)
    (P : nat -> nat -> Prop) : Prop :=
  forall p q x y, p < q -> P p q ->
    arr !! p = Some x -> arr !! q = Some y -> comp y x = false.

(** With heap size [n], the children of node [j] do not exceed it. *)
Definition heap_at {T : Type} (comp : T -> T -> bool) (arr : list T) (n j : nat) : Prop :=
  forall c x y, c = 2 * j + 1 \/ c = 2 * j + 2 -> c < n ->
    arr !! j = Some x -> arr !! c = Some y -> comp x y = false.

(** A logged comparison reports the decision the operands call for. *)
Definition faithful {T : Type} `{Comparable T} (e : @bubble_event T) : Prop :=
  match e with
  | PassBegin _ => True
  | Compared _ a b swapped => swapped = op_gt a b
  end.

(** ** Vocabulary of the claims *)

(** The four algorithms as the harness runs them on tickets. *)
Definition run_algorithm
    (std_sort : forall T : Type, (T -> T -> bool) -> list T -> list T)
    (alg : algorithm) (l : list LotteryTicket) : result fault (list LotteryTicket) :=
  match alg with
  | StdSort => Ok (std_sort LotteryTicket ticket_lt l)
  | BubbleSort => bubbleSort l
  | SelectionSort => selectionSort l
  | HeapSort => heapSort l
  end.

(** A run that returns a non-decreasing permutation of its input, and the
    input itself when it has at most one element. *)
Definition sorts_correctly (run : list LotteryTicket -> result fault (list LotteryTicket))
    (l : list LotteryTicket) : Prop :=
  exists out, run l = Ok out
    /\ Permutation l out
    /\ sorted_by ticket_lt out
    /\ (length l <= 1 -> out = l).

(** The sort key of a ticket, and a ticket with another [cost]. *)
Definition key (t : LotteryTicket) : string * Z * Z :=
  (lotteryDate t, winAmount t, ticketNumber t).

Definition with_cost (c : Z) (t : LotteryTicket) : LotteryTicket :=
  mkLotteryTicket (ticketNumber t) c (lotteryDate t) (winAmount t).

Definition of_key (k : string * Z * Z) : LotteryTicket :=
  mkLotteryTicket (k.2) 0 (k.1.1) (k.1.2).

(** Example 1 of the specification. *)
Definition example1 : list LotteryTicket :=
  [mkLotteryTicket 1 10 "2024-05-01" 50;
   mkLotteryTicket 2 20 "2024-05-01" 100;
   mkLotteryTicket 3 5 "2024-04-01" 0].

Definition example1_sorted : list LotteryTicket :=
  [mkLotteryTicket 3 5 "2024-04-01" 0;
   mkLotteryTicket 2 20 "2024-05-01" 100;
   mkLotteryTicket 1 10 "2024-05-01" 50].

(** The order of the sort keys. *)
Definition key_le (k1 k2 : string * Z * Z) : Prop :=
  ticket_lt (of_key k2) (of_key k1) = false.

(** The same tickets as [example1] with other costs, and a vector with two
    tickets of one key. *)
Definition example1_recosted : list LotteryTicket :=
  [mkLotteryTicket 1 99 "2024-05-01" 50;
   mkLotteryTicket 2 0 "2024-05-01" 100;
   mkLotteryTicket 3 7 "2024-04-01" 0].

Definition twins : list LotteryTicket :=
  [mkLotteryTicket 7 1 "2024-05-01" 50;
   mkLotteryTicket 3 2 "2024-05-01" 50;
   mkLotteryTicket 3 9 "2024-05-01" 50;
   mkLotteryTicket 5 4 "2024-04-01" 0].

(** The lines of a text converted one after the other; the first failure
    ends the conversion. *)
Fixpoint parse_lines (lines : list string) : result error (list LotteryTicket) :=
  match lines with
  | [] => Ok []
  | line :: rest =>
      ticket <- parse_line line ;;
      tickets <- parse_lines rest ;;
      Ok (ticket :: tickets)
  end.

Fixpoint all_digits (s : string) : bool :=
  match s with
  | EmptyString => true
  | String c s' => is_digit c && all_digits s'
  end.

(** The claim of the specification on the loader: it fails exactly when
    the file cannot be opened or one of its lines is not made of the four
    typed fields. *)
Definition loader_claim (fs : filesystem) (filename : string) : Prop :=
  fails (readTicketsFromFile fs filename)
  <-> (contents fs !! filename = None
       \/ exists content line,
            contents fs !! filename = Some content
            /\ line ∈ file_lines content
            /\ ~ four_typed_fields line).

(** A file with one line of three fields. *)
Definition short_line_fs : filesystem :=
  mkFilesystem {[ "lottery_1.txt" := "1,2,2024-05-01" ]} ∅.

(** An empty disk where every name can be written. *)
Definition empty_fs : filesystem := mkFilesystem ∅ ∅.

(** A ticket whose date holds the field delimiter. *)
Definition odd_ticket : LotteryTicket := mkLotteryTicket 1 2 "2024,05" 3.

(** The rows of the results table made of the five vectors of [main]. *)
Fixpoint zip_rows (sizes t_std t_bubble t_selection t_heap : list Z) : list table_line :=
  match sizes, t_std, t_bubble, t_selection, t_heap with
  | s :: sizes', a :: t_std', b :: t_bubble', c :: t_selection', d :: t_heap' =>
      mkTableLine s a b c d :: zip_rows sizes' t_std' t_bubble' t_selection' t_heap'
  | _, _, _, _, _ => []
  end.

(** The files a measuring routine opens for output, given the number of
    tickets. *)
Definition output_files (alg : algorithm) (n : nat) : list string :=
  match alg with
  | StdSort => []
  | BubbleSort => ["lottery_bubble_sort_" +:+ show_Z (Z.of_nat n)]
  | SelectionSort => ["lottery_selection_sort_" +:+ show_Z (Z.of_nat n)]
  | HeapSort => ["lottery_heap_sort_" +:+ show_Z (Z.of_nat n)]
  end.

(** The events of one measurement of [alg] on [tickets] that starts when
    the clock has been read [c] times: a reading, the call, the next
    reading, and then the output file. *)
Definition measurement_events (alg : algorithm) (c : nat)
    (tickets : list LotteryTicket) : list event :=
  [ClockRead c; Call (mkInvocation alg tickets); ClockRead (S c)]
  ++ map Opened (output_files alg (length tickets)).

(** The events of the measurements of [alg] on the datasets of a sweep, one
    dataset after the other. *)
Fixpoint sweep_events (alg : algorithm) (c : nat)
    (datasets : list (list LotteryTicket)) : list event :=
  match datasets with
  | [] => []
  | d :: datasets' => measurement_events alg c d ++ sweep_events alg (c + 2) datasets'
  end.

(** The events of [main] once the datasets are loaded: the four sweeps in
    the order reference, bubble, selection, heap, and then the table. *)
Definition harness_events (c : nat) (datasets : list (list LotteryTicket)) : list event :=
  let n := length datasets in
  sweep_events StdSort c datasets
  ++ sweep_events BubbleSort (c + 2 * n) datasets
  ++ sweep_events SelectionSort (c + 4 * n) datasets
  ++ sweep_events HeapSort (c + 6 * n) datasets
  ++ [Opened "time_sorts.txt"].

(** Among the events [es], [alg] is called on [d] right after the reading
    [r] of the clock and right before the next reading. *)
Definition called_between (es : list event) (alg : algorithm)
    (d : list LotteryTicket) (r : nat) : Prop :=
  exists before after,
    es = before ++ [ClockRead r; Call (mkInvocation alg d); ClockRead (S r)] ++ after.

(** The duration in milliseconds between the readings [c] and [c + 1] of
    the clock. *)
Definition elapsed_ms (now : nat -> Z) (c : nat) : Z :=
  duration_cast_milliseconds (now (S c) - now c).

(** The durations of [n] measurements in a row that start at reading [c]
    of the clock: two readings each. *)
Definition durations (now : nat -> Z) (c n : nat) : list Z :=
  map (fun k => elapsed_ms now (c + 2 * k)) (seq 0 n).

(** The table of a run of [main] on the sweep [arr_size] that starts when
    the clock has been read [c] times: the row of the [k]-th size holds the
    size and the durations of the [k]-th measurement of the reference,
    bubble, selection and heap sweeps, in this order. *)
Definition expected_rows (now : nat -> Z) (c : nat) (arr_size : list Z) : list table_line :=
  let n := length arr_size in
  zip_rows arr_size (durations now c n) (durations now (c + 2 * n) n)
    (durations now (c + 4 * n) n) (durations now (c + 6 * n) n).

(** A measuring routine for [alg]: it returns the duration between two
    successive readings of the clock, with the call of [alg] on the vector
    it was given between them and its output file after them, and it leaves
    the write permissions as they were. *)
Definition measures (now : nat -> Z) (alg : algorithm)
    (measure : list LotteryTicket -> world -> result failure (Z * world)) : Prop :=
  forall tickets w, exists w',
    measure tickets w = Ok (elapsed_ms now (clock_reads w), w')
    /\ clock_reads w' = clock_reads w + 2
    /\ trace w' = trace w ++ measurement_events alg (clock_reads w) tickets
    /\ unwritable (disk w') = unwritable (disk w).

(** The claim of the specification on the harness, for a sweep whose
    datasets load: the invocations go size by size, and the table has one
    row per size, in the order of the sweep. *)
Definition harness_claim
    (std_sort : forall T : Type, (T -> T -> bool) -> list T -> list T)
    (now : nat -> Z) (arr_size : list Z) (w : world) : Prop :=
  forall datasets,
    load_all (disk w) (map dataset_name arr_size) = Ok datasets ->
    exists w' rows,
      harness std_sort now arr_size w = Ok w'
      /\ invocations w' = invocations w ++ size_major datasets
      /\ map size rows = arr_size
      /\ ("time_sorts.txt" ∉ unwritable (disk w) ->
          contents (disk w') !! "time_sorts.txt" = Some (show_table rows)).

(** A disk with the datasets of the sweep [1; 2], and a clock whose
    [k]-th reading is [k * k] quarters of a millisecond, so that the
    measurements of a run last 0.25 ms, 1.25 ms, 2.25 ms, ... *)
Definition two_sizes_world : world :=
  mkWorld
    (mkFilesystem
       {[ "lottery_1.txt" := "1,10,2024-05-01,50";
          "lottery_2.txt" := write_tickets
             [mkLotteryTicket 1 10 "2024-05-01" 50;
              mkLotteryTicket 2 20 "2024-05-01" 100] newline ]} ∅)
    0 [].

Definition ticking (k : nat) : Z := 250000 * Z.of_nat k * Z.of_nat k.

Definition two_sizes_datasets : list (list LotteryTicket) :=
  [[mkLotteryTicket 1 10 "2024-05-01" 50];
   [mkLotteryTicket 1 10 "2024-05-01" 50; mkLotteryTicket 2 20 "2024-05-01" 100]].

(** ** Further vocabulary: the sorting templates *)

Definition is_comparison (e : schedule_item) : bool :=
  match e with
  | Pass _ => false
  | Comparison _ => true
  end.

(** Two tickets of one key, in order: a sorted vector. *)
Definition sorted_twins : list LotteryTicket :=
  [mkLotteryTicket 3 1 "2024-05-01" 50; mkLotteryTicket 3 2 "2024-05-01" 50].

(** The same two after a ticket that sorts before them. *)
Definition late_twins : list LotteryTicket :=
  [mkLotteryTicket 3 1 "2024-05-01" 50; mkLotteryTicket 3 2 "2024-05-01" 50;
   mkLotteryTicket 1 0 "2024-05-01" 50].

(** ** Further vocabulary: files and the harness *)

(** A text whose last character exists and is not a line break. *)
Fixpoint ends_in_text (s : string) : bool :=
  match s with
  | EmptyString => false
  | String c EmptyString => negb (Ascii.eqb c "010")
  | String _ s' => ends_in_text s'
  end.

Section Benchmark.
Variable std_sort : forall T : Type, (T -> T -> bool) -> list T -> list T.
Variable now : nat -> Z.



End Benchmark.


(** A clock read at 0.8 ms and at 1.2 ms. *)
Definition close_readings (k : nat) : Z := 800000 + 400000 * Z.of_nat k.

(** A measuring routine leaves the file [name] as it is. *)
Definition keeps_file (name : string)
    (measure : list LotteryTicket -> world -> result failure (Z * world)) : Prop :=
  forall tickets w t w', measure tickets w = Ok (t, w') ->
    contents (disk w') !! name = contents (disk w) !! name.

Definition nonnegative_row (r : table_line) : Prop :=
  (0 <= reference_ms r /\ 0 <= bubble_ms r /\ 0 <= selection_ms r /\ 0 <= heap_ms r)%Z.

(** A dataset whose second line does not begin with a number. *)
Definition bad_line_text : string :=
  "1,10,2024-05-01,50" +:+ newline +:+ "x,20,2024-05-01,100" +:+ newline.

Definition bad_line_fs : filesystem :=
  mkFilesystem {[ "lottery_2.txt" := bad_line_text ]} ∅.

(** What a measuring routine for [alg] does with [tickets]: it reads the
    clock, calls [sort], which returns, reads the clock again and opens the
    file [prefix ++ size], in this order; it returns the duration in whole
    milliseconds between the two readings, and leaves the sorted vector in
    the file when that file can be written (and the disk as it was when it
    cannot). *)
Definition measures_and_saves (now : nat -> Z) (alg : algorithm)
    (sort : list LotteryTicket -> result fault (list LotteryTicket))
    (prefix : string)
    (measure : list LotteryTicket -> world -> result failure (Z * world))
    (tickets : list LotteryTicket) (w : world) : Prop :=
  let c := clock_reads w in
  let name := prefix +:+ show_Z (Z.of_nat (length tickets)) in
  exists out w',
    sort tickets = Ok out
    /\ measure tickets w
       = Ok (duration_cast_milliseconds (now (S c) - now c), w')
    /\ clock_reads w' = c + 2
    /\ trace w' = trace w ++ [ClockRead c; Call (mkInvocation alg tickets);
                              ClockRead (S c); Opened name]
    /\ (name ∉ unwritable (disk w) -> readTicketsFromFile (disk w') name = Ok out)
    /\ (name ∈ unwritable (disk w) -> disk w' = disk w).

(** The world after [main] has run on the sweep [1; 2] of
    [two_sizes_world]. *)
Definition two_sizes_final : world :=
  match harness insertion_sort ticking [1; 2]%Z two_sizes_world with
  | Ok w' => w'
  | Err _ => two_sizes_world
  end.

(** ** Further vocabulary: dates

    The text "YYYY-MM-DD" of a date, as the comment on [lotteryDate]
    describes it: zero-padded decimal numbers. *)
Definition two_digits (n : N) : string :=
  String (digit_char (n / 10)) (String (digit_char (n mod 10)) "").

Definition date_text (year month day : N) : string :=
  two_digits (year / 100) +:+ two_digits (year mod 100) +:+ "-"
  +:+ two_digits month +:+ "-" +:+ two_digits day.

(** The first date is before the second. *)
Definition date_before (y1 m1 d1 y2 m2 d2 : N) : Prop :=
  (y1 < y2 \/ (y1 = y2 /\ (m1 < m2 \/ (m1 = m2 /\ d1 < d2))))%N.

(** * Properties *)

(** ** The order on strings *)

Lemma N_of_ascii_inj a b : N_of_ascii a = N_of_ascii b -> a = b.
Proof.
  intros E. rewrite <- (ascii_N_embedding a), <- (ascii_N_embedding b).
  by rewrite E.
Qed.

Lemma string_lt_irrefl s : string_lt s s = false.
Proof.
  induction s as [|a s IH]; simpl; [done|].
  by rewrite N.ltb_irrefl.
Qed.

Lemma string_lt_trans s t u :
  string_lt s t = true -> string_lt t u = true -> string_lt s u = true.
Proof.
  revert t u. induction s as [|a s IH]; intros [|b t] [|c u]; simpl; try done.
  destruct (N.ltb_spec (N_of_ascii a) (N_of_ascii b)),
           (N.ltb_spec (N_of_ascii b) (N_of_ascii a)),
           (N.ltb_spec (N_of_ascii b) (N_of_ascii c)),
           (N.ltb_spec (N_of_ascii c) (N_of_ascii b)),
           (N.ltb_spec (N_of_ascii a) (N_of_ascii c)),
           (N.ltb_spec (N_of_ascii c) (N_of_ascii a));
    try done; try lia.
  apply IH.
Qed.

Lemma string_lt_total s t :
  string_lt s t = false -> string_lt t s = false -> s = t.
Proof.
  revert t. induction s as [|a s IH]; intros [|b t]; simpl; try done.
  destruct (N.ltb_spec (N_of_ascii a) (N_of_ascii b)),
           (N.ltb_spec (N_of_ascii b) (N_of_ascii a)); try done; try lia.
  intros H1 H2. f_equal; [apply N_of_ascii_inj; lia | by apply IH].
Qed.

Lemma string_lt_asym s t : string_lt s t = true -> string_lt t s = false.
Proof.
  intros H. destruct (string_lt t s) eqn:E; [|done].
  pose proof (string_lt_trans _ _ _ H E) as C.
  by rewrite string_lt_irrefl in C.
Qed.

Lemma string_lt_lex s t : string_lt s t = true <-> lex_lt s t.
Proof.
  split.
  - revert t. induction s as [|a s IH]; intros [|b t]; simpl; try done.
    + intros _. apply (lex_prefix "" b t).
    + destruct (N.ltb_spec (N_of_ascii a) (N_of_ascii b)) as [Hab|Hab].
      { intros _. by apply (lex_differ "" a s b t). }
      destruct (N.ltb_spec (N_of_ascii b) (N_of_ascii a)) as [Hba|Hba]; [done|].
      intros Hlt. assert (a = b) as -> by (apply N_of_ascii_inj; lia).
      destruct (IH _ Hlt) as [p c u | p x u y v Hxy].
      * apply (lex_prefix (String b p) c u).
      * by apply (lex_differ (String b p) x u y v).
  - intros [p c u | p x u y v Hxy].
    + induction p as [|a p IH]; simpl; [done|].
      by rewrite N.ltb_irrefl.
    + induction p as [|a p IH]; simpl.
      * by apply N.ltb_lt in Hxy as ->.
      * by rewrite N.ltb_irrefl.
Qed.

(** ** The order on tickets *)

Lemma ticket_lt_cases a b :
  ticket_lt a b =
    if decide (lotteryDate a = lotteryDate b) then
      if decide (winAmount a = winAmount b) then
        bool_decide (ticketNumber a < ticketNumber b)%Z
      else bool_decide (winAmount b < winAmount a)%Z
    else string_lt (lotteryDate a) (lotteryDate b).
Proof.
  unfold ticket_lt.
  destruct (String.eqb_spec (lotteryDate a) (lotteryDate b)) as [Hd|Hd]; simpl.
  - rewrite decide_True by done.
    destruct (Z.eqb_spec (winAmount a) (winAmount b)) as [Hw|Hw]; simpl.
    + rewrite decide_True by done.
      destruct (Z.ltb_spec (ticketNumber a) (ticketNumber b));
        [by rewrite bool_decide_eq_true_2 | by rewrite bool_decide_eq_false_2; [|lia]].
    + rewrite decide_False by done. rewrite Z.gtb_ltb.
      destruct (Z.ltb_spec (winAmount b) (winAmount a));
        [by rewrite bool_decide_eq_true_2 | by rewrite bool_decide_eq_false_2; [|lia]].
  - by rewrite decide_False.
Qed.

Lemma ticket_lt_precedes a b : ticket_lt a b = true <-> precedes a b.
Proof.
  rewrite ticket_lt_cases. unfold precedes.
  destruct (decide (lotteryDate a = lotteryDate b)) as [Hd|Hd].
  - assert (~ lex_lt (lotteryDate a) (lotteryDate b)) as Hn.
    { rewrite <- string_lt_lex, Hd, string_lt_irrefl. done. }
    destruct (decide (winAmount a = winAmount b)) as [Hw|Hw];
      rewrite bool_decide_eq_true; intuition lia.
  - rewrite string_lt_lex. intuition.
Qed.

Lemma ticket_lt_irrefl a : ticket_lt a a = false.
Proof.
  rewrite ticket_lt_cases. rewrite !decide_True by done.
  apply bool_decide_eq_false_2. lia.
Qed.

Lemma ticket_lt_trans a b c :
  ticket_lt a b = true -> ticket_lt b c = true -> ticket_lt a c = true.
Proof.
  rewrite !ticket_lt_precedes. unfold precedes.
  rewrite <- !string_lt_lex.
  intros [Hab|[[Dab Wab]|(Dab & Wab & Nab)]] [Hbc|[[Dbc Wbc]|(Dbc & Wbc & Nbc)]].
  - left. by eapply string_lt_trans.
  - left. by rewrite <- Dbc.
  - left. by rewrite <- Dbc.
  - left. by rewrite Dab.
  - right; left. split; [congruence | lia].
  - right; left. split; [congruence | lia].
  - left. by rewrite Dab.
  - right; left. split; [congruence | lia].
  - right; right. repeat split; [congruence | lia | lia].
Qed.

Lemma ticket_lt_same_key a b :
  ticket_lt a b = false -> ticket_lt b a = false -> same_key a b.
Proof.
  rewrite !ticket_lt_cases. unfold same_key.
  destruct (decide (lotteryDate a = lotteryDate b)) as [Hd|Hd].
  - rewrite (decide_True (P := lotteryDate b = lotteryDate a)) by done.
    destruct (decide (winAmount a = winAmount b)) as [Hw|Hw].
    + rewrite (decide_True (P := winAmount b = winAmount a)) by done.
      rewrite !bool_decide_eq_false. intros. repeat split; [done | done | lia].
    + rewrite (decide_False (P := winAmount b = winAmount a)) by done.
      rewrite !bool_decide_eq_false. lia.
  - rewrite (decide_False (P := lotteryDate b = lotteryDate a)) by done.
    intros H1 H2. by pose proof (string_lt_total _ _ H1 H2).
Qed.

Lemma same_key_ticket_lt a b :
  same_key a b -> ticket_lt a b = false /\ ticket_lt b a = false.
Proof.
  intros (Hd & Hw & Hn). rewrite !ticket_lt_cases.
  rewrite !decide_True by done.
  split; apply bool_decide_eq_false_2; lia.
Qed.

Lemma ticket_lt_swo : strict_weak_order ticket_lt.
Proof.
  split.
  - apply ticket_lt_irrefl.
  - apply ticket_lt_trans.
  - intros a b c H1 H2 H3 H4.
    destruct (ticket_lt_same_key _ _ H1 H2) as (?&?&?).
    destruct (ticket_lt_same_key _ _ H3 H4) as (?&?&?).
    apply same_key_ticket_lt. repeat split; congruence.
Qed.

(** ** Outcomes *)

Lemma bind_Ok {E A B} (m : result E A) (k : A -> result E B) b :
  bind m k = Ok b <-> exists a, m = Ok a /\ k a = Ok b.
Proof.
  destruct m as [a|e]; simpl; split.
  - intros Hk. by exists a.
  - by intros (a' & [= ->] & Hk).
  - done.
  - by intros (a' & [=] & _).
Qed.

(** ** Loops: reasoning with invariants *)

Section LoopRules.
Context {St : Type}.
Implicit Types (body : nat -> St -> result fault St) (Inv : nat -> St -> Prop).

Lemma for_up_inv Inv body count j s :
  Inv j s ->
  (forall k s, j <= k < j + count -> Inv k s ->
     exists s', body k s = Ok s' /\ Inv (S k) s') ->
  exists s', for_up count j body s = Ok s' /\ Inv (j + count) s'.
Proof.
  revert j s. induction count as [|count IH]; intros j s Hj Hstep; simpl.
  - exists s. by rewrite Nat.add_0_r.
  - destruct (Hstep j s) as (s1 & -> & H1); [lia | done |]. simpl.
    replace (j + S count) with (S j + count) by lia.
    apply IH; [done|]. intros k s2 Hk. apply Hstep. lia.
Qed.

Lemma for_up_preserves (Q : St -> Prop) body count j s s' :
  (forall k s s', Q s -> body k s = Ok s' -> Q s') ->
  Q s -> for_up count j body s = Ok s' -> Q s'.
Proof.
  intros Hstep. revert j s. induction count as [|count IH]; intros j s Hs; simpl.
  - by intros [= <-].
  - intros Hrun. apply bind_Ok in Hrun as (s1 & H1 & Hrun).
    eapply IH; [|done]. by eapply Hstep.
Qed.

Lemma for_range_inv Inv lo hi body s :
  lo <= hi ->
  Inv lo s ->
  (forall k s, lo <= k < hi -> Inv k s ->
     exists s', body k s = Ok s' /\ Inv (S k) s') ->
  exists s', for_range lo hi body s = Ok s' /\ Inv hi s'.
Proof.
  intros Hle H0 Hstep. unfold for_range.
  destruct (for_up_inv Inv body (hi - lo) lo s) as (s' & Hs & Hi); [done | |].
  - intros k s1 Hk. apply Hstep. lia.
  - exists s'. by replace (lo + (hi - lo)) with hi in Hi by lia.
Qed.

Lemma for_range_empty lo hi body s : hi <= lo -> for_range lo hi body s = Ok s.
Proof. intros Hle. unfold for_range. by replace (hi - lo) with 0 by lia. Qed.

Lemma for_down_inv Inv body count lo s :
  Inv (lo + count) s ->
  (forall k s, lo <= k < lo + count -> Inv (S k) s ->
     exists s', body k s = Ok s' /\ Inv k s') ->
  exists s', for_down count lo body s = Ok s' /\ Inv lo s'.
Proof.
  revert s. induction count as [|count IH]; intros s Hs Hstep; simpl.
  - exists s. by rewrite Nat.add_0_r in Hs.
  - destruct (Hstep (lo + count) s) as (s1 & -> & H1); [lia | |].
    { by replace (S (lo + count)) with (lo + S count) by lia. }
    simpl. apply IH; [done|]. intros k s2 Hk. apply Hstep. lia.
Qed.

Lemma for_rev_inv Inv lo hi body s :
  lo <= hi ->
  Inv hi s ->
  (forall k s, lo <= k < hi -> Inv (S k) s ->
     exists s', body k s = Ok s' /\ Inv k s') ->
  exists s', for_rev lo hi body s = Ok s' /\ Inv lo s'.
Proof.
  intros Hle H0 Hstep. unfold for_rev. apply for_down_inv.
  - by replace (lo + (hi - lo)) with hi by lia.
  - intros k s1 Hk. apply Hstep. lia.
Qed.

Lemma for_rev_empty lo hi body s : hi <= lo -> for_rev lo hi body s = Ok s.
Proof. intros Hle. unfold for_rev. by replace (hi - lo) with 0 by lia. Qed.
End LoopRules.

(** ** Vectors: element access and [std::swap] *)

Section Vectors.
Context {T : Type}.
Implicit Types (arr : list T) (i j k : nat) (x y : T).

Lemma vec_at_Ok arr i x : vec_at arr i = Ok x <-> arr !! i = Some x.
Proof. unfold vec_at. destruct (arr !! i); naive_solver. Qed.

Lemma vec_at_lt arr i : i < length arr -> exists x, vec_at arr i = Ok x.
Proof.
  intros Hi. destruct (lookup_lt_is_Some_2 arr i Hi) as [x Hx].
  exists x. by apply vec_at_Ok.
Qed.

Lemma swap_Ok arr i j x y :
  arr !! i = Some x -> arr !! j = Some y ->
  swap arr i j = Ok (<[j := x]> (<[i := y]> arr)).
Proof.
  intros Hi Hj. unfold swap.
  apply vec_at_Ok in Hi as ->. apply vec_at_Ok in Hj as ->. done.
Qed.

Lemma swap_lt arr i j :
  i < length arr -> j < length arr -> exists arr', swap arr i j = Ok arr'.
Proof.
  intros Hi Hj.
  destruct (lookup_lt_is_Some_2 arr i Hi) as [x Hx].
  destruct (lookup_lt_is_Some_2 arr j Hj) as [y Hy].
  eexists. by apply swap_Ok.
Qed.

Lemma swap_inv arr i j arr' :
  swap arr i j = Ok arr' ->
  exists x y, arr !! i = Some x /\ arr !! j = Some y
              /\ arr' = <[j := x]> (<[i := y]> arr).
Proof.
  unfold swap. intros Hs.
  apply bind_Ok in Hs as (x & Hx & Hs). apply bind_Ok in Hs as (y & Hy & Hs).
  apply vec_at_Ok in Hx, Hy. exists x, y. naive_solver.
Qed.

Lemma swap_length arr i j arr' : swap arr i j = Ok arr' -> length arr' = length arr.
Proof.
  intros Hs. apply swap_inv in Hs as (x & y & _ & _ & ->).
  by rewrite !length_insert.
Qed.

Lemma swap_lookup arr i j arr' k :
  swap arr i j = Ok arr' -> arr' !! k = arr !! transpose i j k.
Proof.
  intros Hs. apply swap_inv in Hs as (x & y & Hx & Hy & ->).
  pose proof (lookup_lt_Some _ _ _ Hx). pose proof (lookup_lt_Some _ _ _ Hy).
  unfold transpose.
  destruct (decide (k = j)) as [->|Hkj].
  - rewrite list_lookup_insert_eq by (by rewrite length_insert).
    destruct (decide (j = i)) as [->|]; [congruence | done].
  - rewrite list_lookup_insert_ne by done.
    destruct (decide (k = i)) as [->|Hki].
    + by rewrite list_lookup_insert_eq.
    + by rewrite list_lookup_insert_ne.
Qed.

Lemma insert_Permutation l k x y :
  l !! k = Some y -> y :: <[k := x]> l ≡ₚ x :: l.
Proof.
  revert k. induction l as [|z l IH]; intros [|k] Hk; simplify_eq/=.
  - apply perm_swap.
  - rewrite (perm_swap z y). rewrite (IH _ Hk). apply perm_swap.
Qed.

Lemma swap_Permutation arr i j arr' : swap arr i j = Ok arr' -> arr' ≡ₚ arr.
Proof.
  intros Hs. apply swap_inv in Hs as (x & y & Hx & Hy & ->).
  revert i j Hx Hy. induction arr as [|z arr IH]; intros [|i] [|j] Hx Hy;
    simplify_eq/=; [done | | |].
  - by apply insert_Permutation.
  - by apply insert_Permutation.
  - f_equiv. by apply IH.
Qed.

Lemma swap_take arr i j arr' n :
  i < n -> j < n -> swap arr i j = Ok arr' ->
  take n arr' ≡ₚ take n arr /\ drop n arr' = drop n arr.
Proof.
  intros Hi Hj Hs. pose proof Hs as Hs'.
  apply swap_inv in Hs as (x & y & Hx & Hy & ->).
  pose proof (lookup_lt_Some _ _ _ Hx). pose proof (lookup_lt_Some _ _ _ Hy).
  split.
  - rewrite !take_insert_lt by done.
    apply swap_Permutation with i j. apply swap_Ok.
    + by rewrite lookup_take_lt.
    + by rewrite lookup_take_lt.
  - by rewrite !drop_insert_lt by lia.
Qed.

Lemma drop_eq_lookup (l1 l2 : list T) n k :
  drop n l1 = drop n l2 -> n <= k -> l1 !! k = l2 !! k.
Proof.
  intros Hd Hk. replace k with (n + (k - n)) by lia.
  by rewrite <- !lookup_drop, Hd.
Qed.

Lemma StronglySorted_lookup (R : T -> T -> Prop) l :
  (forall i j x y, i < j -> l !! i = Some x -> l !! j = Some y -> R x y) ->
  StronglySorted R l.
Proof.
  induction l as [|a l IH]; intros Hl; constructor.
  - apply IH. intros i j x y Hij Hi Hj. apply (Hl (S i) (S j)); [lia | done | done].
  - apply Forall_lookup. intros j y Hj. apply (Hl 0 (S j)); [lia | done | done].
Qed.
End Vectors.

(** ** Correctness of the sorting templates *)

Section SortProofs.
Context {T : Type} `{Comparable T}.
Hypothesis gt_lt : forall a b : T, op_gt a b = op_lt b a.
Hypothesis lt_swo : strict_weak_order (@op_lt T _).

Implicit Types (arr : list T) (x y z : T).

Lemma lt_irrefl x : op_lt x x = false.
Proof. apply lt_swo. Qed.

Lemma lt_trans x y z : op_lt x y = true -> op_lt y z = true -> op_lt x z = true.
Proof. apply lt_swo. Qed.

Lemma lt_asym x y : op_lt x y = true -> op_lt y x = false.
Proof.
  intros Hxy. destruct (op_lt y x) eqn:Hyx; [|done].
  pose proof (lt_trans _ _ _ Hxy Hyx) as C. by rewrite lt_irrefl in C.
Qed.

(** "Not greater" is transitive. *)
Lemma le_trans x y z : op_lt y x = false -> op_lt z y = false -> op_lt z x = false.
Proof.
  intros Hyx Hzy. destruct (op_lt z x) eqn:Hzx; [|done].
  destruct (op_lt x y) eqn:Hxy.
  { pose proof (lt_trans _ _ _ Hzx Hxy). congruence. }
  destruct (op_lt y z) eqn:Hyz.
  { pose proof (lt_trans _ _ _ Hyz Hzx). congruence. }
  destruct (swo_equiv_trans _ lt_swo x y z) as [_ C]; congruence.
Qed.

Lemma lt_le_trans x y z : op_lt x y = true -> op_lt z y = false -> op_lt z x = false.
Proof.
  intros Hxy Hzy. destruct (op_lt z x) eqn:Hzx; [|done].
  pose proof (lt_trans _ _ _ Hzx Hxy). congruence.
Qed.

Lemma pairs_ordered_sorted arr :
  pairs_ordered op_lt arr (fun _ _ => True) -> sorted_by op_lt arr.
Proof.
  intros Hp. apply StronglySorted_lookup. intros i j x y Hij Hi Hj.
  by apply (Hp i j).
Qed.

(** *** Selection sort *)

Lemma selection_min_spec arr i :
  i < length arr ->
  exists m, selection_min arr (length arr) i = Ok m
    /\ i <= m < length arr
    /\ forall q x y, i <= q < length arr ->
         arr !! m = Some x -> arr !! q = Some y -> op_lt y x = false.
Proof.
  intros Hi. unfold selection_min.
  destruct (for_range_inv
    (fun j m => i <= m < j /\ forall q x y, i <= q < j ->
         arr !! m = Some x -> arr !! q = Some y -> op_lt y x = false)
    (i + 1) (length arr)
    (fun j min_idx =>
       aj <- vec_at arr j ;; am <- vec_at arr min_idx ;;
       Ok (if op_lt aj am then j else min_idx)) i) as (m & Hm & Hb & Hmin).
  - lia.
  - split; [lia|]. intros q x y Hq Hx Hy. assert (q = i) as -> by lia.
    simplify_eq. apply lt_irrefl.
  - intros j m Hj [Hm Hmin].
    destruct (lookup_lt_is_Some_2 arr j) as [aj Haj]; [lia|].
    destruct (lookup_lt_is_Some_2 arr m) as [am Ham]; [lia|].
    rewrite (proj2 (vec_at_Ok arr j aj) Haj), (proj2 (vec_at_Ok arr m am) Ham).
    simpl. eexists; split; [done|].
    destruct (op_lt aj am) eqn:Hlt.
    + split; [lia|]. intros q x y Hq Hx Hy. simplify_eq.
      destruct (decide (q = j)) as [->|Hne].
      * simplify_eq. apply lt_irrefl.
      * apply lt_le_trans with am; [done|].
        apply (Hmin q); [lia | done | done].
    + split; [lia|]. intros q x y Hq Hx Hy. simplify_eq.
      destruct (decide (q = j)) as [->|Hne].
      * by simplify_eq.
      * apply (Hmin q); [lia | done | done].
  - exists m. split; [done|]. split; [lia|]. done.
Qed.

Lemma selectionSort_spec arr :
  exists out, selectionSort arr = Ok out
    /\ out ≡ₚ arr /\ pairs_ordered op_lt out (fun _ _ => True).
Proof.
  unfold selectionSort. set (n := length arr).
  destruct (for_range_inv
    (fun i a => length a = n /\ a ≡ₚ arr /\ pairs_ordered op_lt a (fun p _ => p < i))
    0 (n - 1)
    (fun i a => min_idx <- selection_min a n i ;;
                if negb (min_idx =? i) then swap a i min_idx else Ok a) arr)
    as (out & Hout & Hlen & Hperm & Hord).
  - lia.
  - split; [done|]. split; [done|]. intros p q x y _ Hp. lia.
  - intros i a Hi (Hlen & Hperm & Hord). rewrite <- Hlen.
    destruct (selection_min_spec a i) as (m & -> & Hm & Hmin); [lia|]. simpl.
    destruct (Nat.eqb_spec m i) as [->|Hne]; simpl.
    + exists a. split; [done|]. split; [done|]. split; [done|].
      intros p q x y Hpq Hp Hx Hy. simpl in Hp.
      destruct (decide (p = i)) as [->|Hpi].
      * apply (Hmin q); [|done|done].
        apply lookup_lt_Some in Hy. lia.
      * apply (Hord p q); [done | simpl; lia | done | done].
    + destruct (swap_lt a i m) as [a' Ha']; [lia | lia |].
      exists a'. split; [done|].
      split; [by rewrite (swap_length _ _ _ _ Ha')|].
      split; [by rewrite (swap_Permutation _ _ _ _ Ha')|].
      intros p q x y Hpq Hp. simpl in Hp.
      rewrite !(swap_lookup _ _ _ _ _ Ha'). intros Hx Hy.
      pose proof (lookup_lt_Some _ _ _ Hy) as Hq'.
      unfold transpose in Hx, Hy, Hq'.
      destruct (decide (p = i)) as [->|Hpi].
      * apply (Hmin (if decide (q = i) then m
                     else if decide (q = m) then i else q)); [|done|done].
        repeat case_decide; lia.
      * rewrite !decide_False in Hx by lia.
        apply (Hord p (if decide (q = i) then m
                       else if decide (q = m) then i else q));
          [repeat case_decide; lia | simpl; lia | done | done].
  - exists out. split; [done|]. split; [done|].
    intros p q x y Hpq _ Hx Hy. apply (Hord p q); [done | | done | done].
    apply lookup_lt_Some in Hy. simpl. lia.
Qed.

(** *** Bubble sort *)

Lemma bubble_step_spec j arr :
  j + 1 < length arr ->
  exists a b, arr !! j = Some a /\ arr !! (j + 1) = Some b
    /\ bubble_step j arr =
         Ok (if op_gt a b then <[j + 1 := a]> (<[j := b]> arr) else arr).
Proof.
  intros Hj.
  destruct (lookup_lt_is_Some_2 arr j) as [a Ha]; [lia|].
  destruct (lookup_lt_is_Some_2 arr (j + 1)) as [b Hb]; [lia|].
  exists a, b. split; [done|]. split; [done|]. unfold bubble_step.
  rewrite (proj2 (vec_at_Ok arr j a) Ha), (proj2 (vec_at_Ok arr (j + 1) b) Hb).
  simpl. destruct (op_gt a b); [|done]. by apply swap_Ok.
Qed.

(** One pass over the first [m + 1] elements moves their maximum to
    position [m] and leaves the rest of the vector alone. *)
Lemma bubble_pass_spec n i arr :
  length arr = n -> i < n - 1 ->
  exists out, bubble_pass n i arr = Ok out
    /\ length out = n
    /\ take (n - i) out ≡ₚ take (n - i) arr
    /\ drop (n - i) out = drop (n - i) arr
    /\ forall p x y, p <= n - i - 1 ->
         out !! p = Some x -> out !! (n - i - 1) = Some y -> op_lt y x = false.
Proof.
  intros Hlen Hi. unfold bubble_pass.
  destruct (for_range_inv
    (fun j a => length a = n
       /\ take (n - i) a ≡ₚ take (n - i) arr
       /\ drop (n - i) a = drop (n - i) arr
       /\ forall p x y, p <= j ->
            a !! p = Some x -> a !! j = Some y -> op_lt y x = false)
    0 (n - i - 1) bubble_step arr) as (out & Hout & Hinv).
  - lia.
  - split; [done|]. split; [done|]. split; [done|].
    intros p x y Hp Hx Hy. assert (p = 0) as -> by lia. simplify_eq.
    apply lt_irrefl.
  - intros j a Hj (Hla & Htake & Hdrop & Hmax).
    destruct (bubble_step_spec j a) as (u & v & Hu & Hv & ->); [lia|].
    eexists; split; [done|]. rewrite gt_lt.
    destruct (op_lt v u) eqn:Hvu.
    + pose proof (swap_Ok a j (j + 1) u v Hu Hv) as Hsw.
      split; [by rewrite !length_insert|].
      destruct (swap_take a j (j + 1) _ (n - i) ltac:(lia) ltac:(lia) Hsw)
        as [Ht Hd].
      split; [by rewrite Ht|]. split; [by rewrite Hd|].
      intros p x y Hp.
      rewrite !(swap_lookup _ _ _ _ _ Hsw). unfold transpose.
      replace (S j) with (j + 1) by lia.
      rewrite (decide_False (P := j + 1 = j)) by lia.
      rewrite (decide_True (P := j + 1 = j + 1)) by done.
      intros Hx Hy. simplify_eq.
      destruct (decide (p = j)) as [->|Hpj].
      * simplify_eq. by apply lt_asym.
      * destruct (decide (p = j + 1)) as [->|Hpj1].
        -- simplify_eq. apply lt_irrefl.
        -- apply (Hmax p); [lia | done | done].
    + split; [done|]. split; [done|]. split; [done|].
      intros p x y Hp Hx. replace (S j) with (j + 1) by lia. intros Hy.
      simplify_eq.
      destruct (decide (p = j + 1)) as [->|Hpj1].
      * simplify_eq. apply lt_irrefl.
      * apply le_trans with u; [|done].
        apply (Hmax p); [lia | done | done].
  - exists out. split; [done|]. destruct Hinv as (? & ? & ? & ?). done.
Qed.

Lemma bubbleSort_spec arr :
  exists out, bubbleSort arr = Ok out
    /\ out ≡ₚ arr /\ pairs_ordered op_lt out (fun _ _ => True).
Proof.
  unfold bubbleSort. set (n := length arr).
  destruct (for_range_inv
    (fun i a => length a = n /\ a ≡ₚ arr
       /\ pairs_ordered op_lt a (fun _ q => n - i <= q))
    0 (n - 1) (bubble_pass n) arr) as (out & Hout & Hlen & Hperm & Hord).
  - lia.
  - split; [done|]. split; [done|]. intros p q x y _ Hq _ Hy. simpl in Hq.
    apply lookup_lt_Some in Hy. lia.
  - intros i a Hi (Hlen & Hperm & Hord).
    destruct (bubble_pass_spec n i a Hlen ltac:(lia))
      as (a' & -> & Hlen' & Htake & Hdrop & Hmax).
    exists a'. split; [done|]. split; [done|]. split.
    { rewrite <- Hperm, <- (take_drop (n - i) a'), <- (take_drop (n - i) a).
      by rewrite Htake, Hdrop. }
    intros p q x y Hpq Hq Hx Hy. simpl in Hq.
    pose proof (lookup_lt_Some _ _ _ Hy) as Hqn.
    (* where the element at [p] stood before the pass *)
    assert (exists p', (p' < n - i \/ p' = p) /\ a !! p' = Some x)
      as (p' & Hp' & Hx').
    { destruct (decide (p < n - i)) as [Hlt|Hge].
      - assert (x ∈ take (n - i) a) as Hin.
        { rewrite <- Htake. apply list_elem_of_lookup. exists p.
          by rewrite lookup_take_lt. }
        apply list_elem_of_lookup in Hin as [p' Hp'].
        apply lookup_take_Some in Hp' as [Hp' ?].
        exists p'. split; [lia | done].
      - exists p. split; [by right|].
        by rewrite <- (drop_eq_lookup _ _ _ p Hdrop) by lia. }
    destruct (decide (q = n - i - 1)) as [->|Hqne].
    + apply (Hmax p); [lia | done | done].
    + assert (a !! q = Some y) as Hy'.
      { by rewrite <- (drop_eq_lookup _ _ _ q Hdrop) by lia. }
      apply (Hord p' q); [lia | simpl; lia | done | done].
  - exists out. split; [done|]. split; [done|].
    intros p q x y Hpq _ Hx Hy. apply (Hord p q); [done | | done | done].
    simpl. lia.
Qed.

(** *** Heap sort *)

Lemma pick_larger_spec arr n c l :
  n <= length arr -> l < c ->
  exists L, pick_larger arr n c l = Ok L
    /\ (L = l \/ (L = c /\ c < n))
    /\ (forall x y, arr !! L = Some x -> arr !! l = Some y -> op_lt x y = false)
    /\ (c < n -> forall x y, arr !! L = Some x -> arr !! c = Some y ->
          op_lt x y = false).
Proof.
  intros Hn Hl. unfold pick_larger.
  destruct (Nat.ltb_spec c n) as [Hc|Hc].
  - destruct (lookup_lt_is_Some_2 arr c) as [a Ha]; [lia|].
    destruct (lookup_lt_is_Some_2 arr l) as [b Hb]; [lia|].
    rewrite (proj2 (vec_at_Ok arr c a) Ha), (proj2 (vec_at_Ok arr l b) Hb).
    simpl. rewrite gt_lt. eexists; split; [done|].
    destruct (op_lt b a) eqn:Hba.
    + split; [right; done|]. split.
      * intros x y ? ?. simplify_eq. by apply lt_asym.
      * intros _ x y ? ?. simplify_eq. apply lt_irrefl.
    + split; [by left|]. split.
      * intros x y ? ?. simplify_eq. apply lt_irrefl.
      * intros _ x y ? ?. by simplify_eq.
  - exists l. split; [done|]. split; [by left|]. split.
    + intros x y ? ?. simplify_eq. apply lt_irrefl.
    + lia.
Qed.

Lemma heapify_largest_spec arr n i :
  n <= length arr ->
  exists L, heapify_largest arr n i = Ok L
    /\ (L = i \/ ((L = 2 * i + 1 \/ L = 2 * i + 2) /\ L < n))
    /\ forall c x y,
         c = i \/ ((c = 2 * i + 1 \/ c = 2 * i + 2) /\ c < n) ->
         arr !! L = Some x -> arr !! c = Some y -> op_lt x y = false.
Proof.
  intros Hn. unfold heapify_largest.
  destruct (pick_larger_spec arr n (2 * i + 1) i Hn ltac:(lia))
    as (l1 & -> & Hl1 & Hi1 & Hc1). cbn [bind].
  destruct (pick_larger_spec arr n (2 * i + 2) l1 Hn ltac:(lia))
    as (L & -> & HL & Hi2 & Hc2).
  exists L. split; [done|]. split; [lia|].
  intros c x y Hc Hx Hy.
  destruct HL as [->|[-> Hlt]].
  - destruct Hc as [->|[[->| ->] Hcn]].
    + by apply (Hi1 x y).
    + by apply (Hc1 Hcn x y).
    + by apply (Hc2 Hcn x y).
  - destruct (decide (c = 2 * i + 2)) as [->|Hne].
    { simplify_eq. apply lt_irrefl. }
    assert (l1 < length arr) as Hl1n by lia.
    destruct (lookup_lt_is_Some_2 arr l1 Hl1n) as [z Hz].
    apply le_trans with z.
    + destruct Hc as [->|[[->| ->] Hcn]]; [by apply (Hi1 z y) | | done].
      by apply (Hc1 Hcn z y).
    + by apply (Hi2 x z).
Qed.

Lemma heapify_rec_spec n lo fuel arr i :
  n - i < fuel -> n <= length arr -> lo <= i ->
  exists out, heapify_rec fuel arr n i = Ok out
    /\ length out = length arr
    /\ take n out ≡ₚ take n arr
    /\ drop n out = drop n arr
    /\ ((forall j, lo <= j -> j <> i -> heap_at op_lt arr n j) ->
        (forall p c x y, lo <= p -> i = 2 * p + 1 \/ i = 2 * p + 2 ->
           c = 2 * i + 1 \/ c = 2 * i + 2 -> c < n ->
           arr !! p = Some x -> arr !! c = Some y -> op_lt x y = false) ->
        forall j, lo <= j -> heap_at op_lt out n j).
Proof.
  revert arr i. induction fuel as [|fuel IH]; intros arr i Hfuel Hn Hlo; [lia|].
  simpl.
  destruct (heapify_largest_spec arr n i Hn) as (L & -> & HL & Hmax). simpl.
  destruct (Nat.eqb_spec L i) as [->|Hne]; simpl.
  - exists arr. split; [done|]. split; [done|]. split; [done|]. split; [done|].
    intros Hheap _ j Hj.
    destruct (decide (j = i)) as [->|Hji]; [|by apply Hheap].
    intros c x y Hc Hcn Hx Hy. apply (Hmax c); [right; done | done | done].
  - destruct HL as [->|[HL HLn]]; [done|].
    destruct (swap_lt arr i L) as [arr1 Hsw]; [lia | lia |]. rewrite Hsw. simpl.
    destruct (IH arr1 L) as (out & -> & Hlen & Htake & Hdrop & Hheap);
      [lia | by rewrite (swap_length _ _ _ _ Hsw) | lia |].
    destruct (swap_take arr i L arr1 n ltac:(lia) HLn Hsw) as [Ht Hd].
    exists out. split; [done|].
    split; [by rewrite Hlen, (swap_length _ _ _ _ Hsw)|].
    split; [by rewrite Htake|]. split; [by rewrite Hdrop|].
    intros P2 P3. apply Hheap.
    + intros j Hj HjL c x y Hc Hcn.
      rewrite !(swap_lookup _ _ _ _ _ Hsw). unfold transpose.
      destruct (decide (j = i)) as [->|Hji].
      * intros Hx Hy. apply (Hmax (if decide (c = i) then L
                                   else if decide (c = L) then i else c));
          [repeat case_decide; lia | done | done].
      * rewrite (decide_False (P := j = L)) by done.
        destruct (decide (c = i)) as [->|Hci].
        -- intros Hx Hy. apply (P3 j L); [done | lia | lia | done | done | done].
        -- rewrite (decide_False (P := c = L)) by lia.
           intros Hx Hy. by apply (P2 j Hj Hji c).
    + intros p c x y Hp HpL Hc Hcn.
      assert (p = i) as -> by lia.
      rewrite !(swap_lookup _ _ _ _ _ Hsw). unfold transpose.
      rewrite (decide_True (P := i = i)) by done.
      rewrite (decide_False (P := c = i)) by lia.
      rewrite (decide_False (P := c = L)) by lia.
      intros Hx Hy. apply (P2 L ltac:(lia) ltac:(lia) c); done.
Qed.

Lemma heapify_spec n lo arr i :
  n <= length arr -> lo <= i ->
  exists out, heapify arr n i = Ok out
    /\ length out = length arr
    /\ take n out ≡ₚ take n arr
    /\ drop n out = drop n arr
    /\ ((forall j, lo <= j -> j <> i -> heap_at op_lt arr n j) ->
        (forall p c x y, lo <= p -> i = 2 * p + 1 \/ i = 2 * p + 2 ->
           c = 2 * i + 1 \/ c = 2 * i + 2 -> c < n ->
           arr !! p = Some x -> arr !! c = Some y -> op_lt x y = false) ->
        forall j, lo <= j -> heap_at op_lt out n j).
Proof. intros Hn Hlo. apply heapify_rec_spec; [lia | done | done]. Qed.

(** The root of a heap is not smaller than any of its elements. *)
Lemma heap_root_max arr c k x y :
  (forall j, heap_at op_lt arr c j) -> c <= length arr -> k < c ->
  arr !! 0 = Some x -> arr !! k = Some y -> op_lt x y = false.
Proof.
  intros Hheap Hc. revert y.
  induction (lt_wf k) as [k _ IH]. intros y Hk Hx Hy.
  destruct k as [|k'].
  { simplify_eq. apply lt_irrefl. }
  set (p := k' / 2).
  pose proof (Nat.div_mod k' 2 ltac:(lia)) as Hdm.
  pose proof (Nat.mod_upper_bound k' 2 ltac:(lia)) as Hmod.
  destruct (lookup_lt_is_Some_2 arr p) as [z Hz]; [unfold p; lia|].
  apply le_trans with z.
  - apply (Hheap p (S k')); [unfold p; lia | done | done | done].
  - apply (IH p); [unfold p; lia | unfold p; lia | done | done].
Qed.

Lemma take_drop_Permutation (l1 l2 : list T) n :
  take n l1 ≡ₚ take n l2 -> drop n l1 = drop n l2 -> l1 ≡ₚ l2.
Proof.
  intros Ht Hd. rewrite <- (take_drop n l1), <- (take_drop n l2).
  by rewrite Ht, Hd.
Qed.

Lemma heap_build_spec arr :
  let n := length arr in
  exists out, for_rev 0 (n / 2) (fun i arr => heapify arr n i) arr = Ok out
    /\ length out = n /\ out ≡ₚ arr /\ forall j, heap_at op_lt out n j.
Proof.
  intros n.
  destruct (for_rev_inv
    (fun k a => length a = n /\ a ≡ₚ arr /\ forall j, k <= j -> heap_at op_lt a n j)
    0 (n / 2) (fun i arr => heapify arr n i) arr) as (out & Hout & Hlen & Hperm & Hheap).
  - lia.
  - split; [done|]. split; [done|]. intros j Hj c x y Hc Hcn.
    pose proof (Nat.div_mod n 2 ltac:(lia)).
    pose proof (Nat.mod_upper_bound n 2 ltac:(lia)). lia.
  - intros k a Hk (Hlen & Hperm & Hheap).
    destruct (heapify_spec n k a k ltac:(lia) ltac:(lia))
      as (a' & -> & Hlen' & Htake & Hdrop & Hpost).
    exists a'. split; [done|]. split; [lia|].
    split; [by rewrite (take_drop_Permutation _ _ _ Htake Hdrop)|].
    apply Hpost.
    + intros j Hj Hne. apply Hheap. lia.
    + intros p c x y Hp Hpk. lia.
  - exists out. split; [done|]. split; [done|]. split; [done|].
    intros j. apply Hheap. lia.
Qed.

Lemma heapSort_spec arr :
  exists out, heapSort arr = Ok out
    /\ out ≡ₚ arr /\ pairs_ordered op_lt out (fun _ _ => True).
Proof.
  unfold heapSort.
  destruct (heap_build_spec arr) as (heap & -> & Hlen0 & Hperm0 & Hheap0).
  cbn [bind]. set (n := length arr) in *.
  destruct (decide (n = 0)) as [Hn0|Hn0].
  { rewrite for_rev_empty by lia. exists heap. split; [done|]. split; [done|].
    intros p q x y _ _ _ Hy. apply lookup_lt_Some in Hy. lia. }
  destruct (for_rev_inv
    (fun c a => length a = n /\ a ≡ₚ arr /\ (forall j, heap_at op_lt a c j)
                /\ pairs_ordered op_lt a (fun _ q => c <= q))
    1 n (fun i arr => arr <- swap arr 0 i ;; heapify arr i 0) heap)
    as (out & Hout & Hlen & Hperm & _ & Hord).
  - lia.
  - split; [done|]. split; [done|]. split; [done|].
    intros p q x y _ Hq _ Hy. simpl in Hq. apply lookup_lt_Some in Hy. lia.
  - intros i a Hi (Hlen & Hperm & Hheap & Hord).
    destruct (swap_lt a 0 i) as [a1 Hsw]; [lia | lia |]. rewrite Hsw. cbn [bind].
    pose proof (swap_length _ _ _ _ Hsw) as Hlen1.
    destruct (heapify_spec i 0 a1 0 ltac:(lia) ltac:(lia))
      as (a2 & -> & Hlen2 & Htake & Hdrop & Hpost).
    exists a2. split; [done|]. split; [lia|]. split.
    { rewrite (take_drop_Permutation _ _ _ Htake Hdrop).
      by rewrite (swap_Permutation _ _ _ _ Hsw). }
    split.
    + intros j0. apply Hpost; [|intros; lia|lia].
      intros j _ Hj c x y Hc Hci.
      rewrite !(swap_lookup _ _ _ _ _ Hsw). unfold transpose.
      rewrite !decide_False by lia.
      apply (Hheap j c); [done | lia].
    + intros p q x y Hpq Hq Hx Hy. simpl in Hq.
      rewrite (drop_eq_lookup _ _ _ q Hdrop Hq) in Hy.
      rewrite (swap_lookup _ _ _ _ _ Hsw) in Hy.
      (* where the element at [p] stood before this step *)
      assert (exists p', a !! p' = Some x /\ (p' <= i \/ (p' = p /\ i < p)))
        as (p' & Hx' & Hp').
      { destruct (decide (p < i)) as [Hlt|Hge].
        - assert (x ∈ take i a1) as Hin.
          { rewrite <- Htake. apply list_elem_of_lookup. exists p.
            by rewrite lookup_take_lt. }
          apply list_elem_of_lookup in Hin as [p1 Hp1].
          apply lookup_take_Some in Hp1 as [Hp1 ?].
          rewrite (swap_lookup _ _ _ _ _ Hsw) in Hp1.
          exists (transpose 0 i p1). split; [done|].
          unfold transpose. repeat case_decide; lia.
        - rewrite (drop_eq_lookup _ _ _ p Hdrop ltac:(lia)) in Hx.
          rewrite (swap_lookup _ _ _ _ _ Hsw) in Hx.
          exists (transpose 0 i p). split; [done|].
          unfold transpose. repeat case_decide; lia. }
      destruct (decide (q = i)) as [->|Hqi]; unfold transpose in Hy.
      * rewrite decide_False, decide_True in Hy by lia.
        apply (heap_root_max a (S i) p'); [done | lia | lia | done | done].
      * rewrite !decide_False in Hy by lia.
        apply (Hord p' q); [lia | simpl; lia | done | done].
  - exists out. split; [done|]. split; [done|].
    intros p q x y Hpq _ Hx Hy. apply (Hord p q); [done | simpl; lia | done | done].
Qed.

(** The budget of [heapify] is never the limit: any budget above [n - i]
    gives the same outcome. *)
Lemma heapify_rec_fuel fuel fuel' arr n i out :
  heapify_rec fuel arr n i = Ok out -> fuel <= fuel' ->
  heapify_rec fuel' arr n i = Ok out.
Proof.
  revert fuel' arr i. induction fuel as [|fuel IH]; intros fuel' arr i; [done|].
  intros Hrun Hle. destruct fuel' as [|fuel']; [lia|].
  simpl in *. destruct (heapify_largest arr n i) as [L|e]; [|done].
  simpl in *. destruct (negb (L =? i)); [|done].
  destruct (swap arr i L) as [arr1|e]; [|done]. simpl in *.
  apply IH; [done | lia].
Qed.

(** *** Bubble sort: what every step preserves *)

Lemma bubble_step_inv j arr arr' :
  bubble_step j arr = Ok arr' ->
  exists a b, arr !! j = Some a /\ arr !! (j + 1) = Some b
    /\ arr' = if op_gt a b then <[j + 1 := a]> (<[j := b]> arr) else arr.
Proof.
  intros Hs. assert (j + 1 < length arr) as Hj.
  { unfold bubble_step in Hs. apply bind_Ok in Hs as (a & _ & Hs).
    apply bind_Ok in Hs as (b & Hb & _). apply vec_at_Ok in Hb.
    by apply lookup_lt_Some in Hb. }
  destruct (bubble_step_spec j arr Hj) as (a & b & Ha & Hb & Hs').
  exists a, b. split; [done|]. split; [done|]. congruence.
Qed.

Lemma bubbleSort_preserves (Q : list T -> Prop) arr out :
  (forall j a a', Q a -> bubble_step j a = Ok a' -> Q a') ->
  Q arr -> bubbleSort arr = Ok out -> Q out.
Proof.
  intros Hstep. unfold bubbleSort, for_range. apply for_up_preserves.
  intros i a a' Ha. unfold bubble_pass, for_range. by apply for_up_preserves.
Qed.

Lemma adjacent_swap arr j a b :
  arr !! j = Some a -> arr !! (j + 1) = Some b ->
  exists l1 l2, arr = l1 ++ a :: b :: l2
    /\ <[j + 1 := a]> (<[j := b]> arr) = l1 ++ b :: a :: l2.
Proof.
  revert arr. induction j as [|j IH]; intros [|h arr] Ha Hb; simplify_eq/=.
  - destruct arr as [|h' arr]; simplify_eq/=. by exists [], arr.
  - destruct (IH arr Ha Hb) as (l1 & l2 & -> & ->). by exists (h :: l1), l2.
Qed.

Lemma filter_adjacent_swap (f : T -> bool) l1 l2 a b :
  f a && f b = false ->
  List.filter f (l1 ++ b :: a :: l2) = List.filter f (l1 ++ a :: b :: l2).
Proof.
  intros Hf. rewrite !List.filter_app. f_equal. simpl.
  by destruct (f a), (f b).
Qed.

(** Stability: the elements equivalent to any given one keep their order. *)
Lemma bubbleSort_stable arr out k :
  bubbleSort arr = Ok out ->
  List.filter (equivalent k) out = List.filter (equivalent k) arr.
Proof.
  apply (bubbleSort_preserves
    (fun a => List.filter (equivalent k) a = List.filter (equivalent k) arr));
    [|done].
  intros j a a' Ha Hs. rewrite <- Ha.
  apply bubble_step_inv in Hs as (u & v & Hu & Hv & ->).
  rewrite gt_lt. destruct (op_lt v u) eqn:Hvu; [|done].
  destruct (adjacent_swap a j u v Hu Hv) as (l1 & l2 & -> & ->).
  apply filter_adjacent_swap. unfold equivalent.
  destruct (op_lt k u) eqn:Hku, (op_lt u k) eqn:Huk,
           (op_lt k v) eqn:Hkv, (op_lt v k) eqn:Hvk; try done.
  destruct (swo_equiv_trans _ lt_swo v k u); congruence.
Qed.

(** *** Bubble sort: the schedule of a run *)

Lemma bubble_step_logged_spec j arr log arr' :
  bubble_step j arr = Ok arr' ->
  exists a b,
    bubble_step_logged j (arr, log) = Ok (arr', log ++ [Compared j a b (op_gt a b)]).
Proof.
  intros Hs. pose proof Hs as Hs'.
  apply bubble_step_inv in Hs' as (a & b & Ha & Hb & ->).
  exists a, b. unfold bubble_step in Hs. unfold bubble_step_logged.
  rewrite (proj2 (vec_at_Ok arr j a) Ha), (proj2 (vec_at_Ok arr (j + 1) b) Hb) in *.
  cbn [bind] in *. destruct (op_gt a b); [|done]. by rewrite Hs.
Qed.

Lemma bubble_inner_logged count j arr log out :
  for_up count j bubble_step arr = Ok out ->
  exists evs,
    for_up count j bubble_step_logged (arr, log) = Ok (out, log ++ evs)
    /\ map erase_event evs = map Comparison (seq j count)
    /\ Forall faithful evs.
Proof.
  revert j arr log. induction count as [|count IH]; intros j arr log;
    cbn [for_up seq map].
  - intros [= <-]. exists []. by rewrite app_nil_r.
  - intros Hrun. apply bind_Ok in Hrun as (arr1 & H1 & Hrun).
    destruct (bubble_step_logged_spec j arr log arr1 H1) as (a & b & ->).
    cbn [bind].
    destruct (IH (S j) arr1 (log ++ [Compared j a b (op_gt a b)]) Hrun)
      as (evs & -> & Herase & Hfaith).
    exists (Compared j a b (op_gt a b) :: evs).
    split; [by rewrite <- app_assoc|]. split; [simpl; by f_equal|].
    by constructor.
Qed.

Lemma bubble_outer_logged n count i arr log out :
  for_up count i (bubble_pass n) arr = Ok out ->
  exists evs,
    for_up count i (bubble_pass_logged n) (arr, log) = Ok (out, log ++ evs)
    /\ map erase_event evs =
         concat (map (fun i => Pass i :: map Comparison (seq 0 (n - i - 1)))
                     (seq i count))
    /\ Forall faithful evs.
Proof.
  revert i arr log. induction count as [|count IH]; intros i arr log;
    cbn [for_up seq map concat].
  - intros [= <-]. exists []. by rewrite app_nil_r.
  - intros Hrun. apply bind_Ok in Hrun as (arr1 & H1 & Hrun).
    unfold bubble_pass, for_range in H1.
    destruct (bubble_inner_logged _ _ _ (log ++ [PassBegin i]) _ H1)
      as (evs1 & Hlog1 & Herase1 & Hfaith1).
    unfold bubble_pass_logged at 1. unfold for_range. rewrite Hlog1. cbn [bind].
    destruct (IH (S i) arr1 ((log ++ [PassBegin i]) ++ evs1) Hrun)
      as (evs & -> & Herase & Hfaith).
    exists (PassBegin i :: evs1 ++ evs).
    split; [by rewrite <- !app_assoc|]. split.
    + simpl. rewrite map_app, Herase1, Herase. by rewrite Nat.sub_0_r.
    + constructor; [done|]. by apply Forall_app.
Qed.

Lemma bubbleSort_logged_spec arr out :
  bubbleSort arr = Ok out ->
  exists log, bubbleSort_logged arr = Ok (out, log)
    /\ map erase_event log = bubble_schedule (length arr)
    /\ Forall faithful log.
Proof.
  unfold bubbleSort, bubbleSort_logged, for_range. intros Hrun.
  destruct (bubble_outer_logged _ _ _ _ [] _ Hrun) as (evs & Hlog & Herase & Hf).
  exists evs. split; [done|]. split; [|done].
  rewrite Herase. unfold bubble_schedule. by rewrite Nat.sub_0_r.
Qed.
End SortProofs.

Lemma schedule_passes (f : nat -> nat) (l : list nat) :
  length (List.filter is_pass
    (concat (map (fun i => Pass i :: map Comparison (seq 0 (f i))) l))) = length l.
Proof.
  induction l as [|i l IH]; simpl; [done|].
  rewrite List.filter_app, length_app, IH.
  assert (List.filter is_pass (map Comparison (seq 0 (f i))) = []) as ->; [|done].
  induction (seq 0 (f i)) as [|j js IHj]; simpl; done.
Qed.

Lemma bubble_schedule_passes n :
  length (List.filter is_pass (bubble_schedule n)) = n - 1.
Proof.
  unfold bubble_schedule.
  rewrite (schedule_passes (fun i => n - i - 1)). apply length_seq.
Qed.

(** ** Termination of [heapify] and [heapSort], for any element type *)

Section Termination.
Context {T : Type} `{Comparable T}.
Implicit Types (arr : list T).

Lemma pick_larger_range arr n c l :
  n <= length arr -> l < c ->
  exists L, pick_larger arr n c l = Ok L /\ (L = l \/ (L = c /\ c < n)).
Proof.
  intros Hn Hl. unfold pick_larger.
  destruct (Nat.ltb_spec c n) as [Hc|Hc]; [|by eexists; split; [|left]].
  destruct (vec_at_lt arr c) as [a ->]; [lia|].
  destruct (vec_at_lt arr l) as [b ->]; [lia|].
  cbn [bind]. eexists; split; [done|]. destruct (op_gt a b); auto.
Qed.

(** The node [heapify] continues with is [i] itself (and the recursion
    stops) or a child of [i] inside the heap. *)
Lemma heapify_largest_range arr n i :
  n <= length arr ->
  exists L, heapify_largest arr n i = Ok L
    /\ (L = i \/ (2 * i + 1 <= L /\ i < L /\ L < n)).
Proof.
  intros Hn. unfold heapify_largest.
  destruct (pick_larger_range arr n (2 * i + 1) i Hn ltac:(lia)) as (l1 & -> & Hl1).
  cbn [bind].
  destruct (pick_larger_range arr n (2 * i + 2) l1 Hn ltac:(lia)) as (L & -> & HL).
  exists L. split; [done|]. lia.
Qed.

Lemma heapify_rec_total n fuel arr i :
  n - i < fuel -> n <= length arr ->
  exists out, heapify_rec fuel arr n i = Ok out /\ length out = length arr.
Proof.
  revert arr i. induction fuel as [|fuel IH]; intros arr i Hfuel Hn; [lia|].
  cbn [heapify_rec].
  destruct (heapify_largest_range arr n i Hn) as (L & -> & HL). cbn [bind].
  destruct (Nat.eqb_spec L i) as [->|Hne]; cbn [negb]; [by exists arr|].
  destruct (swap_lt arr i L) as [arr1 Hsw]; [lia | lia |].
  rewrite Hsw. cbn [bind]. pose proof (swap_length _ _ _ _ Hsw) as Hlen.
  destruct (IH arr1 L) as (out & -> & Hout); [lia | lia |].
  exists out. split; [done | lia].
Qed.

Lemma heapify_total arr n i :
  n <= length arr ->
  exists out, heapify arr n i = Ok out /\ length out = length arr.
Proof. intros Hn. apply heapify_rec_total; [lia | done]. Qed.

Lemma heapSort_total arr : exists out, heapSort arr = Ok out.
Proof.
  unfold heapSort. set (n := length arr).
  destruct (for_rev_inv (fun _ a => length a = n) 0 (n / 2)
    (fun i arr => heapify arr n i) arr) as (heap & -> & Hheap); [lia | done | |].
  { intros k a _ Hlen. destruct (heapify_total a n k) as (a' & -> & Hlen'); [lia|].
    exists a'. split; [done | lia]. }
  cbn [bind].
  destruct (decide (n = 0)) as [Hn0|Hn0].
  { rewrite for_rev_empty by lia. by exists heap. }
  destruct (for_rev_inv (fun _ a => length a = n) 1 n
    (fun i arr => arr <- swap arr 0 i ;; heapify arr i 0) heap)
    as (out & -> & _); [lia | done | | by exists out].
  intros i a Hi Hlen.
  destruct (swap_lt a 0 i) as [a1 Hsw]; [lia | lia |]. rewrite Hsw. cbn [bind].
  pose proof (swap_length _ _ _ _ Hsw).
  destruct (heapify_total a1 i 0) as (a2 & -> & Hlen2); [lia|].
  exists a2. split; [done | lia].
Qed.
End Termination.

(** C9: [heapify] returns for every vector, every heap size [n] within the
    vector and every root [i]: the node it recurses into is a child of [i],
    at least [2i+1], larger than [i] and below [n], so a recursion budget
    above [n - i] is never exhausted, and a larger budget changes nothing;
    [heapSort] returns on every input. *)
Theorem C9_heapify_terminates {T : Type} `{Comparable T} (arr : list T) (n i : nat) :
  n <= length arr ->
  (exists L, heapify_largest arr n i = Ok L
     /\ (L = i \/ (2 * i + 1 <= L /\ i < L /\ L < n)))
  /\ (forall fuel, n - i < fuel -> exists out, heapify_rec fuel arr n i = Ok out)
  /\ (forall fuel fuel' out, heapify_rec fuel arr n i = Ok out -> fuel <= fuel' ->
        heapify_rec fuel' arr n i = Ok out)
  /\ (exists out, heapify arr n i = Ok out)
  /\ (exists out, heapSort arr = Ok out).
Proof.
  intros Hn. split; [by apply heapify_largest_range|]. split; [|split; [|split]].
  - intros fuel Hfuel.
    destruct (heapify_rec_total n fuel arr i Hfuel Hn) as (out & Hout & _).
    by exists out.
  - intros fuel fuel' out. apply heapify_rec_fuel.
  - destruct (heapify_total arr n i Hn) as (out & Hout & _). by exists out.
  - apply heapSort_total.
Qed.

Lemma C9_witness :
  (exists out, heapify example1 3 0 = Ok out)
  /\ (exists out, heapSort example1 = Ok out).
Proof.
  destruct (C9_heapify_terminates example1 3 0) as (_ & _ & _ & H1 & H2).
  - simpl. lia.
  - split; [exact H1 | exact H2].
Defined.

(** ** The reference sort: insertion sort meets the contract of [std::sort] *)

Section InsertionSort.
Context {T : Type} (comp : T -> T -> bool).
Hypothesis comp_swo : strict_weak_order comp.

Lemma insert_sorted_Permutation x l : insert_sorted comp x l ≡ₚ x :: l.
Proof.
  induction l as [|y l IH]; simpl; [done|].
  destruct (comp x y); [done|]. rewrite IH. apply perm_swap.
Qed.

Lemma insert_sorted_sorted x l :
  sorted_by comp l -> sorted_by comp (insert_sorted comp x l).
Proof.
  unfold sorted_by. induction l as [|y l IH]; intros Hs; simpl.
  - repeat constructor.
  - apply StronglySorted_inv in Hs as [Hs Hy].
    destruct (comp x y) eqn:Hxy.
    + constructor; [by constructor|]. constructor.
      * destruct (comp y x) eqn:Hyx; [|done].
        pose proof (swo_trans _ comp_swo _ _ _ Hxy Hyx) as C.
        by rewrite (swo_irrefl _ comp_swo) in C.
      * eapply Forall_impl; [exact Hy|]. intros z Hzy. simpl in Hzy.
        destruct (comp z x) eqn:Hzx; [|done].
        pose proof (swo_trans _ comp_swo _ _ _ Hzx Hxy). congruence.
    + constructor; [by apply IH|].
      rewrite insert_sorted_Permutation. by constructor.
Qed.

Lemma insertion_sort_spec l :
  Permutation l (insertion_sort T comp l) /\ sorted_by comp (insertion_sort T comp l).
Proof.
  induction l as [|x l [IHp IHs]]; simpl.
  - split; [done | constructor].
  - split; [|by apply insert_sorted_sorted].
    rewrite insert_sorted_Permutation. by constructor.
Qed.
End InsertionSort.

Lemma insertion_sort_contract : sort_contract insertion_sort.
Proof. intros T comp Hswo l. by apply insertion_sort_spec. Qed.

(** ** The sorting claims, for tickets *)

Lemma ticket_gt_lt (a b : LotteryTicket) : op_gt a b = op_lt b a.
Proof. done. Qed.

Lemma ticket_op_lt_swo : strict_weak_order (@op_lt LotteryTicket _).
Proof. exact ticket_lt_swo. Qed.

Lemma short_Permutation {A} (l out : list A) :
  Permutation l out -> length l <= 1 -> out = l.
Proof.
  intros Hp Hl. destruct l as [|x [|y l]]; simpl in Hl; [| |lia].
  - by apply Permutation_nil_l in Hp.
  - by apply Permutation_singleton_l in Hp.
Qed.

Lemma sorted_permutation_correct run l out :
  run l = Ok out -> out ≡ₚ l -> pairs_ordered ticket_lt out (fun _ _ => True) ->
  sorts_correctly run l.
Proof.
  intros Hrun Hperm Hord. exists out. split; [done|]. split; [done|]. split.
  - exact (pairs_ordered_sorted (T := LotteryTicket) out Hord).
  - by apply short_Permutation.
Qed.

(** C1: each of the four algorithms returns a permutation of its input that
    is non-decreasing for [operator<], and returns the empty and the
    one-element vector as they are.  [std::sort] is taken with the contract
    the C++ standard gives it. *)
Theorem C1_sort_correctness
    (std_sort : forall T : Type, (T -> T -> bool) -> list T -> list T)
    (alg : algorithm) (l : list LotteryTicket) :
  sort_contract std_sort ->
  sorts_correctly (run_algorithm std_sort alg) l.
Proof.
  intros Hstd. destruct alg; simpl.
  - destruct (Hstd LotteryTicket ticket_lt ticket_lt_swo l) as [Hp Hs].
    eexists. split; [done|]. split; [done|]. split; [done|].
    by apply short_Permutation.
  - destruct (bubbleSort_spec ticket_gt_lt ticket_op_lt_swo l) as (out & Hrun & Hp & Ho).
    by apply sorted_permutation_correct with out.
  - destruct (selectionSort_spec ticket_op_lt_swo l) as (out & Hrun & Hp & Ho).
    by apply sorted_permutation_correct with out.
  - destruct (heapSort_spec ticket_gt_lt ticket_op_lt_swo l) as (out & Hrun & Hp & Ho).
    by apply sorted_permutation_correct with out.
Qed.

Lemma C1_witness :
  sort_contract insertion_sort
  /\ sorts_correctly (run_algorithm insertion_sort HeapSort) example1.
Proof.
  split; [exact insertion_sort_contract|].
  apply (C1_sort_correctness insertion_sort HeapSort example1).
  exact insertion_sort_contract.
Defined.

(** Example 1 of the specification, on the three hand-written algorithms and
    on the reference implementation. *)
Example example1_runs :
  forall alg, run_algorithm insertion_sort alg example1 = Ok example1_sorted.
Proof. by intros []; vm_compute. Qed.

(** ** The claims on the comparison *)

(** C2: [operator<] orders by date, lexicographically ascending; for equal
    dates by win amount, larger first; for equal dates and amounts by
    ticket number, ascending.  With one date and one amount, ticket 3 goes
    before ticket 7. *)
Theorem C2_comparison_rule :
  (forall a b, ticket_lt a b = true <-> precedes a b)
  /\ (forall date win cost3 cost7,
        ticket_lt (mkLotteryTicket 3 cost3 date win) (mkLotteryTicket 7 cost7 date win) = true
        /\ ticket_lt (mkLotteryTicket 7 cost7 date win) (mkLotteryTicket 3 cost3 date win) = false).
Proof.
  split; [apply ticket_lt_precedes|].
  intros date win c3 c7. rewrite !ticket_lt_cases. simpl.
  by rewrite !decide_True by done.
Qed.

Lemma ticket_lt_asym a b : ticket_lt a b = true -> ticket_lt b a = false.
Proof. exact (lt_asym (T := LotteryTicket) ticket_op_lt_swo a b). Qed.

(** C3: [operator<] is a strict order that decides every pair of keys:
    never both ways, transitive, the derived operators are its inverses,
    tickets with distinct numbers are always ordered one way, and two
    tickets that are ordered neither way have the same key. *)
Theorem C3_strict_total_order :
  (forall a b, ticket_lt a b = true -> ticket_lt b a = false)
  /\ (forall a b c, ticket_lt a b = true -> ticket_lt b c = true -> ticket_lt a c = true)
  /\ (forall a b, ticket_gt a b = ticket_lt b a
                  /\ ticket_le a b = negb (ticket_lt b a)
                  /\ ticket_ge a b = negb (ticket_lt a b))
  /\ (forall a b, ticketNumber a <> ticketNumber b ->
        (ticket_lt a b = true /\ ticket_lt b a = false)
        \/ (ticket_lt b a = true /\ ticket_lt a b = false))
  /\ (forall a b, ticket_lt a b = false -> ticket_lt b a = false -> same_key a b).
Proof.
  split; [apply ticket_lt_asym|]. split; [apply ticket_lt_trans|].
  split; [done|]. split; [|apply ticket_lt_same_key].
  intros a b Hne.
  destruct (ticket_lt a b) eqn:Hab.
  - left. split; [done|]. by apply ticket_lt_asym.
  - right. split; [|done].
    destruct (ticket_lt b a) eqn:Hba; [done|].
    destruct (ticket_lt_same_key _ _ Hab Hba) as (_ & _ & Hn). done.
Qed.

Lemma C3_witness :
  let a := mkLotteryTicket 7 1 "2024-05-01" 50 in
  let b := mkLotteryTicket 3 2 "2024-05-01" 50 in
  (ticket_lt a b = true /\ ticket_lt b a = false)
  \/ (ticket_lt b a = true /\ ticket_lt a b = false).
Proof.
  intros a b.
  apply (proj1 (proj2 (proj2 (proj2 C3_strict_total_order))) a b).
  simpl. lia.
Defined.

Lemma ticket_lt_key a b : ticket_lt a b = ticket_lt (of_key (key a)) (of_key (key b)).
Proof. done. Qed.

Lemma key_le_antisym k1 k2 : key_le k1 k2 -> key_le k2 k1 -> k1 = k2.
Proof.
  unfold key_le. intros H12 H21.
  destruct (ticket_lt_same_key _ _ H12 H21) as (Hd & Hw & Hn).
  destruct k1 as [[d1 w1] n1], k2 as [[d2 w2] n2]. simpl in *. congruence.
Qed.

Lemma sorted_keys_unique l1 l2 :
  sorted_by ticket_lt l1 -> sorted_by ticket_lt l2 ->
  map key l1 ≡ₚ map key l2 -> map key l1 = map key l2.
Proof.
  intros H1 H2 Hp.
  apply (StronglySorted_unique_strong key_le); [| | |done].
  - intros k1 k2 _ _. apply key_le_antisym.
  - apply (StronglySorted_fmap key (fun a b => ticket_lt b a = false)); [|done].
    intros x y Hxy. unfold key_le. by rewrite <- ticket_lt_key.
  - apply (StronglySorted_fmap key (fun a b => ticket_lt b a = false)); [|done].
    intros x y Hxy. unfold key_le. by rewrite <- ticket_lt_key.
Qed.

Lemma run_algorithm_sorted std_sort alg l out :
  sort_contract std_sort -> run_algorithm std_sort alg l = Ok out ->
  out ≡ₚ l /\ sorted_by ticket_lt out.
Proof.
  intros Hstd. destruct alg; simpl.
  - intros [= <-].
    destruct (Hstd LotteryTicket ticket_lt ticket_lt_swo l) as [Hp Hs]. by split.
  - destruct (bubbleSort_spec ticket_gt_lt ticket_op_lt_swo l) as (o & -> & Hp & Ho).
    intros [= <-]. split; [done|].
    exact (pairs_ordered_sorted (T := LotteryTicket) o Ho).
  - destruct (selectionSort_spec ticket_op_lt_swo l) as (o & -> & Hp & Ho).
    intros [= <-]. split; [done|].
    exact (pairs_ordered_sorted (T := LotteryTicket) o Ho).
  - destruct (heapSort_spec ticket_gt_lt ticket_op_lt_swo l) as (o & -> & Hp & Ho).
    intros [= <-]. split; [done|].
    exact (pairs_ordered_sorted (T := LotteryTicket) o Ho).
Qed.

Lemma sorted_keys_independent std_sort alg l l' out out' :
  sort_contract std_sort -> map key l' = map key l ->
  run_algorithm std_sort alg l = Ok out ->
  run_algorithm std_sort alg l' = Ok out' ->
  map key out' = map key out.
Proof.
  intros Hstd Hkeys Hrun Hrun'.
  destruct (run_algorithm_sorted std_sort alg l out Hstd Hrun) as [Hp Hs].
  destruct (run_algorithm_sorted std_sort alg l' out' Hstd Hrun') as [Hp' Hs'].
  apply sorted_keys_unique; [done | done |].
  by rewrite Hp, Hp', Hkeys.
Qed.

(** C8: the result of [operator<] does not depend on [cost], and so the
    order of the keys in the output of each of the four algorithms does not
    either. *)
Theorem C8_cost_noninterference :
  (forall a b a' b', key a' = key a -> key b' = key b ->
     ticket_lt a' b' = ticket_lt a b)
  /\ (forall a b ca cb, ticket_lt (with_cost ca a) (with_cost cb b) = ticket_lt a b)
  /\ (forall std_sort alg l l' out out',
        sort_contract std_sort -> map key l' = map key l ->
        run_algorithm std_sort alg l = Ok out ->
        run_algorithm std_sort alg l' = Ok out' ->
        map key out' = map key out).
Proof.
  split; [|split].
  - intros a b a' b' Ha Hb. by rewrite (ticket_lt_key a'), Ha, Hb.
  - done.
  - apply sorted_keys_independent.
Qed.

Lemma C8_witness :
  ticket_lt (mkLotteryTicket 2 0 "2024-05-01" 100) (mkLotteryTicket 1 99 "2024-05-01" 50)
  = ticket_lt (mkLotteryTicket 2 20 "2024-05-01" 100) (mkLotteryTicket 1 10 "2024-05-01" 50).
Proof.
  apply (proj1 C8_cost_noninterference); reflexivity.
Defined.

(** The key order of Example 1 with other costs. *)
Example example1_recosted_runs :
  forall alg out out',
    run_algorithm insertion_sort alg example1 = Ok out ->
    run_algorithm insertion_sort alg example1_recosted = Ok out' ->
    map key out' = map key out.
Proof.
  intros alg out out'.
  apply (sorted_keys_independent insertion_sort alg);
    [exact insertion_sort_contract | reflexivity].
Qed.

(** ** The claims on bubble sort *)

(** C5: on [N] elements [bubbleSort] runs the passes [0 .. N-2], pass [i]
    comparing the adjacent pairs at [0 .. N-i-2] in turn; this schedule does
    not depend on the elements, so no pass is skipped on sorted input; a
    pair is exchanged exactly when the left element is greater than the
    right one. *)
Theorem C5_bubble_full_passes :
  (forall arr : list LotteryTicket, exists out log,
     bubbleSort arr = Ok out
     /\ bubbleSort_logged arr = Ok (out, log)
     /\ map erase_event log = bubble_schedule (length arr)
     /\ length (List.filter is_pass (map erase_event log)) = length arr - 1
     /\ Forall faithful log)
  /\ (forall (arr arr' : list LotteryTicket) j,
        bubble_step j arr = Ok arr' ->
        exists a b, arr !! j = Some a /\ arr !! (j + 1) = Some b
          /\ arr' = if ticket_gt a b then <[j + 1 := a]> (<[j := b]> arr) else arr).
Proof.
  split.
  - intros arr.
    destruct (bubbleSort_spec ticket_gt_lt ticket_op_lt_swo arr) as (out & Hrun & _).
    destruct (bubbleSort_logged_spec arr out Hrun) as (log & Hlog & Hsched & Hf).
    exists out, log. split; [done|]. split; [done|]. split; [done|].
    split; [|done]. rewrite Hsched. apply bubble_schedule_passes.
  - intros arr arr' j Hstep. by apply bubble_step_inv in Hstep.
Qed.

(** On the sorted vector of Example 1 both passes run and nothing moves. *)
Example bubble_sorted_input :
  bubbleSort_logged example1_sorted =
    Ok (example1_sorted,
        [PassBegin 0;
         Compared 0 (mkLotteryTicket 3 5 "2024-04-01" 0)
                    (mkLotteryTicket 2 20 "2024-05-01" 100) false;
         Compared 1 (mkLotteryTicket 2 20 "2024-05-01" 100)
                    (mkLotteryTicket 1 10 "2024-05-01" 50) false;
         PassBegin 1;
         Compared 0 (mkLotteryTicket 3 5 "2024-04-01" 0)
                    (mkLotteryTicket 2 20 "2024-05-01" 100) false]).
Proof. reflexivity. Qed.

Lemma equivalent_same_key (a b : LotteryTicket) :
  equivalent a b = true <-> same_key a b.
Proof.
  unfold equivalent. simpl. split.
  - intros Hab. apply andb_true_iff in Hab as [Hab Hba].
    apply negb_true_iff in Hab, Hba. by apply ticket_lt_same_key.
  - intros Hk. destruct (same_key_ticket_lt a b Hk) as [-> ->]. done.
Qed.

(** C10: [bubbleSort] is stable: the tickets equivalent to any given one
    (neither smaller than the other, that is, with the same date, win
    amount and ticket number) come out in the order they came in. *)
Theorem C10_bubble_stable :
  (forall (arr : list LotteryTicket), exists out,
     bubbleSort arr = Ok out
     /\ forall k, List.filter (equivalent k) out = List.filter (equivalent k) arr)
  /\ (forall a b : LotteryTicket, equivalent a b = true <-> same_key a b).
Proof.
  split; [|apply equivalent_same_key].
  intros arr.
  destruct (bubbleSort_spec ticket_gt_lt ticket_op_lt_swo arr) as (out & Hrun & _).
  exists out. split; [done|]. intros k.
  by apply (bubbleSort_stable ticket_gt_lt ticket_op_lt_swo).
Qed.

(** Two tickets with one key and costs 2 and 9: they stay in that order. *)
Example bubble_twins :
  bubbleSort twins =
    Ok [mkLotteryTicket 5 4 "2024-04-01" 0;
        mkLotteryTicket 3 2 "2024-05-01" 50;
        mkLotteryTicket 3 9 "2024-05-01" 50;
        mkLotteryTicket 7 1 "2024-05-01" 50].
Proof. reflexivity. Qed.

(** ** Text: delimiters, lines and fields *)

#[local] Arguments String.append !_ _ / : simpl nomatch.

Lemma append_nil_r (s : string) : s +:+ "" = s.
Proof. induction s as [|c s IH]; simpl; [done | by rewrite IH]. Qed.

Lemma append_assoc (s t u : string) : (s +:+ t) +:+ u = s +:+ t +:+ u.
Proof. induction s as [|c s IH]; simpl; [done | by rewrite IH]. Qed.

Lemma free_of_append c (s t : string) :
  free_of c (s +:+ t) = free_of c s && free_of c t.
Proof.
  induction s as [|a s IH]; simpl; [done|].
  rewrite IH. by rewrite andb_assoc.
Qed.

Lemma length_append (s t : string) :
  String.length (s +:+ t) = String.length s + String.length t.
Proof. induction s as [|c s IH]; simpl; [done | by rewrite IH]. Qed.

Lemma cut_Some delim s field rest :
  cut delim s = (field, Some rest) ->
  s = field +:+ String delim rest /\ free_of delim field = true.
Proof.
  revert field. induction s as [|c s IH]; intros field; simpl; [done|].
  destruct (Ascii.eqb_spec c delim) as [->|Hne].
  - by intros [= <- <-].
  - destruct (cut delim s) as [f r] eqn:Hcut. intros [= <- ->].
    destruct (IH f eq_refl) as [-> Hf]. split; [done|]. simpl.
    rewrite Hf. by apply Ascii.eqb_neq in Hne as ->.
Qed.

Lemma cut_None delim s field :
  cut delim s = (field, None) -> s = field /\ free_of delim field = true.
Proof.
  revert field. induction s as [|c s IH]; intros field; simpl.
  - by intros [= <-].
  - destruct (Ascii.eqb_spec c delim) as [->|Hne]; [done|].
    destruct (cut delim s) as [f r] eqn:Hcut. intros [= <- ->].
    destruct (IH f eq_refl) as [-> Hf]. split; [done|]. simpl.
    rewrite Hf. by apply Ascii.eqb_neq in Hne as ->.
Qed.

Lemma cut_append delim field rest :
  free_of delim field = true ->
  cut delim (field +:+ String delim rest) = (field, Some rest).
Proof.
  induction field as [|c f IH]; simpl.
  - by rewrite Ascii.eqb_refl.
  - intros Hf. apply andb_true_iff in Hf as [Hc Hf].
    apply negb_true_iff in Hc. rewrite Hc. by rewrite IH.
Qed.

Lemma cut_free delim field :
  free_of delim field = true -> cut delim field = (field, None).
Proof.
  induction field as [|c f IH]; simpl; [done|].
  intros Hf. apply andb_true_iff in Hf as [Hc Hf].
  apply negb_true_iff in Hc. rewrite Hc. by rewrite IH.
Qed.

Lemma file_lines_append line rest :
  free_of "010" line = true ->
  file_lines (line +:+ String "010" rest) = line :: file_lines rest.
Proof.
  induction line as [|c l IH]; simpl; [done|].
  intros Hf. apply andb_true_iff in Hf as [Hc Hf].
  apply negb_true_iff in Hc. rewrite Hc. by rewrite IH.
Qed.

Lemma file_lines_free line :
  free_of "010" line = true ->
  file_lines line = if is_empty line then [] else [line].
Proof.
  induction line as [|c l IH]; simpl; [done|].
  intros Hf. apply andb_true_iff in Hf as [Hc Hf].
  apply negb_true_iff in Hc. rewrite Hc, IH by done. by destruct l.
Qed.

Lemma fields_append field rest :
  free_of "," field = true ->
  fields (field +:+ String "," rest) = field :: fields rest.
Proof.
  induction field as [|c f IH]; simpl; [done|].
  intros Hf. apply andb_true_iff in Hf as [Hc Hf].
  apply negb_true_iff in Hc. rewrite Hc. by rewrite IH.
Qed.

Lemma fields_free field : free_of "," field = true -> fields field = [field].
Proof.
  induction field as [|c f IH]; simpl; [done|].
  intros Hf. apply andb_true_iff in Hf as [Hc Hf].
  apply negb_true_iff in Hc. rewrite Hc. by rewrite IH.
Qed.

Lemma cut_file_lines s :
  file_lines s =
    match cut "010" s with
    | (line, Some rest) => line :: file_lines rest
    | (line, None) => if is_empty line then [] else [line]
    end.
Proof.
  destruct (cut "010" s) as [line [rest|]] eqn:Hcut.
  - apply cut_Some in Hcut as [-> Hf]. by apply file_lines_append.
  - apply cut_None in Hcut as [-> Hf]. by apply file_lines_free.
Qed.

Lemma cut_fields s :
  fields s =
    match cut "," s with
    | (field, Some rest) => field :: fields rest
    | (field, None) => [field]
    end.
Proof.
  destruct (cut "," s) as [field [rest|]] eqn:Hcut.
  - apply cut_Some in Hcut as [-> Hf]. by apply fields_append.
  - apply cut_None in Hcut as [-> Hf]. by apply fields_free.
Qed.

(** ** The loader *)

(** The four extractions of the loop body, in terms of the fields. *)
Lemma parse_line_convert line : parse_line line = convert_line line.
Proof.
  unfold parse_line, convert_line, item, getline, open_stream. simpl.
  rewrite (cut_fields line).
  destruct (cut "," line) as [f1 [r1|]] eqn:H1; simpl; [|done].
  rewrite (cut_fields r1).
  destruct (cut "," r1) as [f2 [r2|]] eqn:H2; simpl; [|done].
  rewrite (cut_fields r2).
  destruct (cut "," r2) as [f3 [r3|]] eqn:H3; simpl; [|done].
  rewrite (cut_fields r3).
  destruct (cut "," r3) as [f4 [r4|]] eqn:H4; simpl; [|done].
  by destruct (fields r4).
Qed.

Lemma read_loop_lines fuel content line tickets :
  String.length content + 2 <= fuel ->
  read_loop fuel (open_stream content) line tickets =
    (parsed <- parse_lines (file_lines content) ;; Ok (tickets ++ parsed)).
Proof.
  revert content line tickets.
  induction fuel as [|fuel IH]; intros content line tickets Hfuel; [lia|].
  cbn [read_loop]. unfold getline, open_stream. cbn [eofbit failbit pending orb].
  rewrite (cut_file_lines content).
  destruct (cut "010" content) as [l [rest|]] eqn:Hcut; cbn [failbit].
  - apply cut_Some in Hcut as [-> _]. rewrite length_append in Hfuel. simpl in Hfuel.
    cbn [parse_lines]. destruct (parse_line l) as [ticket|e]; cbn [bind]; [|done].
    change (mkIstream rest false false) with (open_stream rest).
    rewrite IH by lia. destruct (parse_lines (file_lines rest)); cbn [bind]; [|done].
    by rewrite <- app_assoc.
  - destruct l as [|c l]; cbn [is_empty parse_lines bind].
    + by rewrite app_nil_r.
    + destruct (parse_line (String c l)) as [ticket|e]; cbn [bind]; [|done].
      destruct fuel as [|fuel]; [simpl in Hfuel; lia|]. done.
Qed.

Lemma readTicketsFromFile_lines fs filename :
  readTicketsFromFile fs filename =
    match contents fs !! filename with
    | None => throw (runtime_error ("Could not open file: " +:+ filename))
    | Some content => parse_lines (file_lines content)
    end.
Proof.
  unfold readTicketsFromFile. destruct (contents fs !! filename) as [content|]; [|done].
  rewrite read_loop_lines by lia. by destruct (parse_lines (file_lines content)).
Qed.

Lemma parse_lines_Ok lines tickets :
  parse_lines lines = Ok tickets <->
  Forall2 (fun line t => convert_line line = Ok t) lines tickets.
Proof.
  revert tickets. induction lines as [|line lines IH]; intros tickets; simpl.
  - split; [intros [= <-]; constructor | by intros ->%Forall2_nil_inv_l].
  - rewrite parse_line_convert. split.
    + intros Hrun. apply bind_Ok in Hrun as (t & Ht & Hrun).
      apply bind_Ok in Hrun as (ts & Hts & [= <-]).
      constructor; [done | by apply IH].
    + intros (t & ts & Ht & Hts & ->)%Forall2_cons_inv_l.
      rewrite Ht. cbn [bind]. apply IH in Hts as ->. done.
Qed.

Lemma parse_lines_fails lines :
  fails (parse_lines lines) <-> exists line, line ∈ lines /\ fails (convert_line line).
Proof.
  induction lines as [|line lines IH]; simpl.
  - split; [by intros [e ?] | intros (line & Hin & _); by apply elem_of_nil in Hin].
  - rewrite parse_line_convert. split.
    + intros [e He]. destruct (convert_line line) as [t|e'] eqn:Ht.
      * cbn [bind] in He. destruct (parse_lines lines) as [ts|e''] eqn:Hts; [done|].
        destruct (proj1 IH) as (l & Hin & Hl); [by eexists|].
        exists l. split; [by right | done].
      * exists line. split; [by left | by eexists].
    + intros (l & Hin & [e He]). apply elem_of_cons in Hin as [->|Hin].
      * rewrite He. by eexists.
      * destruct (convert_line line) as [t|e']; [|by eexists]. cbn [bind].
        destruct (proj2 IH) as [e' He']; [by exists l; split; [|eexists]|].
        rewrite He'. by eexists.
Qed.

Lemma parse_lines_error lines e :
  parse_lines lines = Err e -> exists x, e = Thrown x.
Proof.
  induction lines as [|line lines IH]; simpl; [done|].
  rewrite parse_line_convert. unfold convert_line.
  destruct (stoll (item line 0)) as [num|e1] eqn:H1; cbn [bind].
  2:{ intros [= <-]. unfold stoll, throw in H1.
      destruct (strtoll _); [destruct (_ && _)|]; simplify_eq; by eexists. }
  destruct (stoi (item line 1)) as [c|e2] eqn:H2; cbn [bind].
  2:{ intros [= <-]. unfold stoi, throw in H2.
      destruct (strtoll _); [destruct (_ && _)|]; simplify_eq; by eexists. }
  destruct (stoi (item line 3)) as [w|e3] eqn:H3; cbn [bind].
  2:{ intros [= <-]. unfold stoi, throw in H3.
      destruct (strtoll _); [destruct (_ && _)|]; simplify_eq; by eexists. }
  destruct (parse_lines lines) as [ts|e']; cbn [bind]; [done|].
  intros [= <-]. by apply IH.
Qed.

Lemma convert_line_fails line :
  fails (convert_line line) <->
  fails (stoll (item line 0)) \/ fails (stoi (item line 1)) \/ fails (stoi (item line 3)).
Proof.
  unfold convert_line, fails.
  destruct (stoll (item line 0)) as [num|e1]; cbn [bind].
  2:{ split; [intros _; left; by eexists | intros _; by eexists]. }
  destruct (stoi (item line 1)) as [c|e2]; cbn [bind].
  2:{ split; [intros _; right; left; by eexists | intros _; by eexists]. }
  destruct (stoi (item line 3)) as [w|e3]; cbn [bind].
  2:{ split; [intros _; right; right; by eexists | intros _; by eexists]. }
  split; [by intros [? ?] | by intros [[? ?]|[[? ?]|[? ?]]]].
Qed.

Lemma four_typed_fields_converts line :
  four_typed_fields line -> succeeds (convert_line line).
Proof.
  intros (num & c & date & win & Hf & [n Hn] & [k Hk] & [w Hw]).
  unfold convert_line, item. rewrite Hf. simpl. rewrite Hn, Hk, Hw. by eexists.
Qed.

(** ** Printing and parsing integers *)

Lemma digit_char_code d : (d < 10)%N -> N_of_ascii (digit_char d) = (48 + d)%N.
Proof. intros Hd. unfold digit_char. apply N_ascii_embedding. lia. Qed.

Lemma is_digit_digit_char d : (d < 10)%N -> is_digit (digit_char d) = true.
Proof.
  intros Hd. unfold is_digit. rewrite digit_char_code by done.
  apply andb_true_iff. split; apply N.leb_le; lia.
Qed.

Lemma digit_value_digit_char d : (d < 10)%N -> digit_value (digit_char d) = Z.of_N d.
Proof. intros Hd. unfold digit_value. rewrite digit_char_code by done. lia. Qed.

Lemma is_digit_range c : is_digit c = true -> (48 <= N_of_ascii c <= 57)%N.
Proof.
  unfold is_digit. intros Hc. apply andb_true_iff in Hc as [H1 H2].
  apply N.leb_le in H1, H2. lia.
Qed.

Lemma is_digit_not_space c : is_digit c = true -> is_space c = false.
Proof.
  intros Hc%is_digit_range. unfold is_space.
  apply orb_false_iff. split.
  - apply N.eqb_neq. lia.
  - apply andb_false_iff. right. apply N.leb_gt. lia.
Qed.

Lemma is_digit_neq c d : is_digit c = true -> is_digit d = false -> Ascii.eqb c d = false.
Proof. intros Hc Hd. apply Ascii.eqb_neq. intros ->. congruence. Qed.

Lemma all_digits_snoc s c :
  all_digits (s +:+ String c "") = all_digits s && is_digit c.
Proof.
  induction s as [|a s IH]; simpl; [by rewrite andb_true_r|].
  by rewrite IH, andb_assoc.
Qed.

Lemma read_digits_snoc s c acc :
  all_digits s = true -> is_digit c = true ->
  read_digits (s +:+ String c "") acc = (read_digits s acc * 10 + digit_value c)%Z.
Proof.
  revert acc. induction s as [|a s IH]; intros acc Hs Hc; simpl in *.
  - by rewrite Hc.
  - apply andb_true_iff in Hs as [Ha Hs]. rewrite Ha. by apply IH.
Qed.

Lemma all_digits_free c s :
  is_digit c = false -> all_digits s = true -> free_of c s = true.
Proof.
  intros Hc. induction s as [|a s IH]; simpl; [done|].
  intros Hs. apply andb_true_iff in Hs as [Ha Hs].
  rewrite (is_digit_neq a c Ha Hc). by rewrite IH.
Qed.

Lemma show_digits_spec fuel n :
  (n < 2 ^ N.of_nat (S fuel))%N ->
  all_digits (show_digits (S fuel) n) = true
  /\ read_digits (show_digits (S fuel) n) 0 = Z.of_N n
  /\ starts_with_digit (show_digits (S fuel) n) = true.
Proof.
  revert n. induction fuel as [|fuel IH]; intros n Hn.
  - assert (n < 10)%N as Hlt by (revert Hn; cbn; lia).
    cbn [show_digits]. apply N.ltb_lt in Hlt as Hb. rewrite Hb. simpl.
    rewrite is_digit_digit_char, digit_value_digit_char by done. done.
  - remember (S fuel) as fuel' eqn:Hf. cbn [show_digits].
    destruct (N.ltb_spec n 10) as [Hlt|Hge].
    + simpl. rewrite is_digit_digit_char, digit_value_digit_char by done. done.
    + rewrite Nat2N.inj_succ, N.pow_succ_r' in Hn.
      assert (n / 10 < 2 ^ N.of_nat fuel')%N as Hdiv.
      { apply N.Div0.div_lt_upper_bound. lia. }
      subst fuel'. destruct (IH _ Hdiv) as (Hall & Hread & Hstart).
      pose proof (N.mod_upper_bound n 10 ltac:(lia)) as Hmod.
      split; [|split].
      * by rewrite all_digits_snoc, Hall, is_digit_digit_char.
      * rewrite read_digits_snoc by (done || by apply is_digit_digit_char).
        rewrite Hread, digit_value_digit_char by done.
        pose proof (N.div_mod' n 10). lia.
      * destruct (show_digits (S fuel) (n / 10)); [done|]. exact Hstart.
Qed.

Lemma show_N_spec p :
  all_digits (show_N (Npos p)) = true
  /\ read_digits (show_N (Npos p)) 0 = Zpos p
  /\ starts_with_digit (show_N (Npos p)) = true.
Proof.
  unfold show_N. apply (show_digits_spec _ (Npos p)).
  rewrite Nat2N.inj_succ, N2Nat.id. apply N.log2_spec. lia.
Qed.

Lemma skip_spaces_digits s :
  starts_with_digit s = true -> skip_spaces s = s.
Proof.
  destruct s as [|c s]; simpl; [done|].
  intros Hc. by rewrite (is_digit_not_space c Hc).
Qed.

Lemma strtoll_digits s :
  all_digits s = true -> starts_with_digit s = true ->
  strtoll s = Some (read_digits s 0)
  /\ strtoll (String "-" s) = Some (- read_digits s 0)%Z.
Proof.
  intros Hall Hstart. unfold strtoll. cbn [skip_spaces].
  change (is_space "-") with false. cbn [Ascii.eqb Bool.eqb].
  rewrite (skip_spaces_digits s Hstart), Hstart.
  destruct s as [|c s]; [done|]. simpl in Hstart.
  rewrite !(is_digit_neq c) by done. cbn [starts_with_digit]. by rewrite Hstart.
Qed.

Lemma strtoll_show_Z z : strtoll (show_Z z) = Some z.
Proof.
  destruct z as [|p|p]; [done| |]; simpl;
    destruct (show_N_spec p) as (Hall & Hread & Hstart);
    destruct (strtoll_digits _ Hall Hstart) as [Hpos Hneg].
  - by rewrite Hpos, Hread.
  - by rewrite Hneg, Hread.
Qed.

Lemma stoll_show_Z z :
  (LLONG_MIN <= z <= LLONG_MAX)%Z -> stoll (show_Z z) = Ok z.
Proof.
  intros Hz. unfold stoll. rewrite strtoll_show_Z.
  destruct (Z.leb_spec LLONG_MIN z), (Z.leb_spec z LLONG_MAX); (done || lia).
Qed.

Lemma stoi_show_Z z :
  (INT_MIN <= z <= INT_MAX)%Z -> stoi (show_Z z) = Ok z.
Proof.
  intros Hz. unfold stoi. rewrite strtoll_show_Z.
  destruct (Z.leb_spec INT_MIN z), (Z.leb_spec z INT_MAX); (done || lia).
Qed.

Lemma show_Z_free c z :
  is_digit c = false -> Ascii.eqb "-" c = false -> free_of c (show_Z z) = true.
Proof.
  intros Hc Hminus. destruct z as [|p|p]; cbn [show_Z free_of].
  - by rewrite (is_digit_neq "0" c).
  - destruct (show_N_spec p) as (Hall & _). by apply all_digits_free.
  - destruct (show_N_spec p) as (Hall & _). rewrite Hminus. cbn [negb andb].
    by apply all_digits_free.
Qed.

(** ** Writing and reading back *)

Lemma fields_show_ticket t :
  free_of "," (lotteryDate t) = true ->
  fields (show_ticket t) =
    [show_Z (ticketNumber t); show_Z (cost t); lotteryDate t; show_Z (winAmount t)].
Proof.
  intros Hdate. unfold show_ticket. simpl.
  rewrite fields_append by (by apply show_Z_free).
  rewrite fields_append by (by apply show_Z_free).
  rewrite fields_append by done.
  by rewrite fields_free by (by apply show_Z_free).
Qed.

Lemma convert_show_ticket t : well_formed t -> convert_line (show_ticket t) = Ok t.
Proof.
  intros (Hnum & Hcost & Hwin & Hcomma & _).
  unfold convert_line, item. rewrite fields_show_ticket by done. simpl.
  rewrite stoll_show_Z, stoi_show_Z by done. cbn [bind].
  rewrite stoi_show_Z by done. cbn [bind]. by destruct t.
Qed.

Lemma show_ticket_one_line t :
  well_formed t -> free_of "010" (show_ticket t) = true.
Proof.
  intros (_ & _ & _ & _ & Hnl). unfold show_ticket.
  rewrite !free_of_append, Hnl, !show_Z_free by done. done.
Qed.

Lemma file_lines_write_tickets tickets :
  Forall well_formed tickets ->
  file_lines (write_tickets tickets newline) = map show_ticket tickets.
Proof.
  induction 1 as [|t ts Ht Hts IH]; simpl; [done|].
  rewrite file_lines_append by (by apply show_ticket_one_line).
  by rewrite IH.
Qed.

Lemma parse_lines_show tickets :
  Forall well_formed tickets -> parse_lines (map show_ticket tickets) = Ok tickets.
Proof.
  induction 1 as [|t ts Ht Hts IH]; simpl; [done|].
  rewrite parse_line_convert, convert_show_ticket by done. cbn [bind].
  by rewrite IH.
Qed.

Lemma writeTicketsToFile_Ok fs filename tickets :
  filename ∉ unwritable fs ->
  writeTicketsToFile fs filename tickets =
    Ok (write_file fs filename (write_tickets tickets newline)).
Proof. intros Hw. unfold writeTicketsToFile. by rewrite decide_False. Qed.

(** C7: what [writeTicketsToFile] writes for well-formed tickets, one line
    per ticket in the loader's four-field format, is read back by
    [readTicketsFromFile] as the same tickets. *)
Theorem C7_round_trip fs filename tickets :
  Forall well_formed tickets ->
  filename ∉ unwritable fs ->
  exists fs',
    writeTicketsToFile fs filename tickets = Ok fs'
    /\ contents fs' !! filename = Some (write_tickets tickets newline)
    /\ file_lines (write_tickets tickets newline) = map show_ticket tickets
    /\ Forall (fun t => fields (show_ticket t) =
                  [show_Z (ticketNumber t); show_Z (cost t); lotteryDate t;
                   show_Z (winAmount t)]) tickets
    /\ readTicketsFromFile fs' filename = Ok tickets.
Proof.
  intros Hwf Hw. eexists. split; [by apply writeTicketsToFile_Ok|].
  assert (contents (write_file fs filename (write_tickets tickets newline)) !! filename
          = Some (write_tickets tickets newline)) as Hfile.
  { unfold write_file. simpl. apply lookup_insert_eq. }
  split; [done|]. split; [by apply file_lines_write_tickets|]. split.
  { eapply Forall_impl; [exact Hwf|]. intros t (_ & _ & _ & Hcomma & _).
    by apply fields_show_ticket. }
  rewrite readTicketsFromFile_lines, Hfile, file_lines_write_tickets by done.
  by apply parse_lines_show.
Qed.

Lemma example1_well_formed : Forall well_formed example1.
Proof.
  repeat constructor; unfold LLONG_MIN, LLONG_MAX, INT_MIN, INT_MAX; simpl; lia.
Qed.

Lemma C7_witness :
  exists fs',
    writeTicketsToFile empty_fs "sorted_std_sort_3.csv" example1 = Ok fs'
    /\ readTicketsFromFile fs' "sorted_std_sort_3.csv" = Ok example1.
Proof.
  destruct (C7_round_trip empty_fs "sorted_std_sort_3.csv" example1)
    as (fs' & Hwrite & _ & _ & _ & Hread).
  - exact example1_well_formed.
  - apply not_elem_of_empty.
  - exists fs'. split; [exact Hwrite | exact Hread].
Defined.

(** A date with a comma is written as it is and read back as two fields. *)
Example odd_ticket_not_restored :
  parse_line (show_ticket odd_ticket) = Ok (mkLotteryTicket 1 2 "2024" 5).
Proof. reflexivity. Qed.

(** ** The claim on the loader *)

(** C6, as the code has it: the loader fails exactly when the file cannot
    be opened or, on some line, one of the three conversions fails
    ([stoll] of the first item, [stoi] of the second and of the fourth,
    where a line with fewer fields repeats its last field); then it throws
    and is never out of budget.  It returns a vector exactly when every
    line converts, with one ticket per line in the order of the lines.  A
    failure implies that the file is missing or that a line is not made of
    four typed fields. *)
Theorem C6_loader_outcomes fs filename :
  (fails (readTicketsFromFile fs filename) <->
     contents fs !! filename = None
     \/ exists content line,
          contents fs !! filename = Some content
          /\ line ∈ file_lines content
          /\ (fails (stoll (item line 0)) \/ fails (stoi (item line 1))
              \/ fails (stoi (item line 3))))
  /\ (forall tickets,
        readTicketsFromFile fs filename = Ok tickets <->
        exists content,
          contents fs !! filename = Some content
          /\ Forall2 (fun line t => convert_line line = Ok t) (file_lines content) tickets)
  /\ (forall e, readTicketsFromFile fs filename = Err e -> exists x, e = Thrown x)
  /\ (fails (readTicketsFromFile fs filename) ->
        contents fs !! filename = None
        \/ exists content line,
             contents fs !! filename = Some content
             /\ line ∈ file_lines content
             /\ ~ four_typed_fields line).
Proof.
  rewrite readTicketsFromFile_lines.
  destruct (contents fs !! filename) as [content|] eqn:Hfile.
  - assert (fails (parse_lines (file_lines content)) <->
            exists line, line ∈ file_lines content
              /\ (fails (stoll (item line 0)) \/ fails (stoi (item line 1))
                  \/ fails (stoi (item line 3)))) as Hfails.
    { rewrite parse_lines_fails. split.
      - intros (line & Hin & Hl). exists line. split; [done|].
        by apply convert_line_fails.
      - intros (line & Hin & Hl). exists line. split; [done|].
        by apply convert_line_fails. }
    split; [|split; [|split]].
    + rewrite Hfails. split.
      * intros (line & Hin & Hl). right. by exists content, line.
      * intros [?|(c & line & [= <-] & Hin & Hl)]; [done|]. by exists line.
    + intros tickets. rewrite parse_lines_Ok. split.
      * intros H. by exists content.
      * by intros (c & [= <-] & H).
    + apply parse_lines_error.
    + intros (line & Hin & Hl)%Hfails. right. exists content, line.
      split; [done|]. split; [done|].
      intros [t Ht]%four_typed_fields_converts.
      apply convert_line_fails in Hl as [e He]. congruence.
  - split; [|split; [|split]].
    + split; [by left | intros _; by eexists].
    + intros tickets. split; [done | by intros (c & ? & _)].
    + intros e [= <-]. by eexists.
    + by left.
Qed.

Lemma C6_witness : fails (readTicketsFromFile empty_fs "lottery_100.txt").
Proof.
  apply (proj1 (C6_loader_outcomes empty_fs "lottery_100.txt")).
  left. reflexivity.
Defined.

(** A line of three fields whose third begins with digits is accepted: the
    missing amount is converted from the date. *)
Example short_line_loaded :
  readTicketsFromFile short_line_fs "lottery_1.txt"
  = Ok [mkLotteryTicket 1 2 "2024-05-01" 2024].
Proof. reflexivity. Qed.

Lemma C6_counterexample : ~ loader_claim short_line_fs "lottery_1.txt".
Proof.
  intros [_ Hclaim].
  destruct Hclaim as [e He].
  - right. exists "1,2,2024-05-01", "1,2,2024-05-01".
    split; [reflexivity|]. split; [by left|].
    intros (num & c & date & win & Hf & _). discriminate Hf.
  - rewrite short_line_loaded in He. discriminate He.
Qed.

(** ** The harness *)

Lemma for_each_app {E A St} (xs ys : list A) (body : A -> St -> result E St) s :
  for_each (xs ++ ys) body s = (s' <- for_each xs body s ;; for_each ys body s').
Proof.
  revert s. induction xs as [|x xs IH]; intros s; simpl; [done|].
  destruct (body x s) as [s1|e]; cbn [bind]; [apply IH | done].
Qed.

Lemma load_all_spec fs filenames datasets :
  load_all fs filenames = Ok datasets <->
  Forall2 (fun name d => readTicketsFromFile fs name = Ok d) filenames datasets.
Proof.
  unfold load_all.
  assert (forall acc out,
    for_each filenames (fun name arrs =>
      tickets <- readTicketsFromFile fs name ;; Ok (arrs ++ [tickets])) acc = Ok out
    <-> exists ds, out = acc ++ ds
          /\ Forall2 (fun name d => readTicketsFromFile fs name = Ok d) filenames ds)
    as Hgen.
  { induction filenames as [|name names IH]; intros acc out; simpl.
    - split.
      + intros [= <-]. exists []. by rewrite app_nil_r.
      + intros (ds & -> & ->%Forall2_nil_inv_l). by rewrite app_nil_r.
    - split.
      + intros Hrun. apply bind_Ok in Hrun as (acc1 & H1 & Hrun).
        apply bind_Ok in H1 as (d & Hd & [= <-]).
        apply IH in Hrun as (ds & -> & Hds).
        exists (d :: ds). split; [by rewrite <- app_assoc | by constructor].
      + intros (ds & -> & (d & ds' & Hd & Hds & ->)%Forall2_cons_inv_l).
        rewrite Hd. cbn [bind]. apply IH. exists ds'.
        split; [by rewrite <- app_assoc | done]. }
  rewrite Hgen. split.
  - by intros (ds & -> & Hds).
  - intros Hds. by exists datasets.
Qed.

Lemma lift_fault_Ok {A} (m : result fault A) a : m = Ok a -> lift_fault m = Ok a.
Proof. by intros ->. Qed.

Lemma write_unchecked_unwritable fs name text :
  unwritable (write_unchecked fs name text) = unwritable fs.
Proof. unfold write_unchecked. by case_decide. Qed.

Lemma thrown_in_Ok {A} w (m : result error A) a : m = Ok a -> thrown_in w m = Ok a.
Proof. by intros ->. Qed.

Lemma thrown_in_Ok_inv {A} w (m : result error A) a : thrown_in w m = Ok a -> m = Ok a.
Proof. destruct m; simpl; congruence. Qed.

(** *** The calls in a trace *)

Lemma calls_app es1 es2 : calls (es1 ++ es2) = calls es1 ++ calls es2.
Proof.
  induction es1 as [|e es1 IH]; [done|].
  destruct e; simpl; by rewrite IH.
Qed.

Lemma calls_Opened names : calls (map Opened names) = [].
Proof. by induction names. Qed.

Lemma calls_measurement_events alg c tickets :
  calls (measurement_events alg c tickets) = [mkInvocation alg tickets].
Proof. unfold measurement_events. simpl. by rewrite calls_Opened. Qed.

Lemma calls_sweep_events alg c datasets :
  calls (sweep_events alg c datasets) = map (mkInvocation alg) datasets.
Proof.
  revert c. induction datasets as [|d datasets IH]; intros c; [done|].
  cbn [sweep_events map]. by rewrite calls_app, calls_measurement_events, IH.
Qed.

Lemma calls_harness_events c datasets :
  calls (harness_events c datasets) = algorithm_major datasets.
Proof.
  unfold harness_events, algorithm_major.
  rewrite !calls_app, !calls_sweep_events. simpl. by rewrite app_nil_r.
Qed.

Lemma called_between_app_l es alg d r pre :
  called_between es alg d r -> called_between (pre ++ es) alg d r.
Proof.
  intros (before & after & ->). exists (pre ++ before), after.
  by rewrite <- !app_assoc.
Qed.

Lemma called_between_app_r es alg d r post :
  called_between es alg d r -> called_between (es ++ post) alg d r.
Proof.
  intros (before & after & ->). exists before, (after ++ post).
  by rewrite <- !app_assoc.
Qed.

Lemma sweep_events_segment alg c datasets k d :
  datasets !! k = Some d ->
  called_between (sweep_events alg c datasets) alg d (c + 2 * k).
Proof.
  revert c k. induction datasets as [|d0 datasets IH]; intros c k Hk; [done|].
  destruct k as [|k]; cbn [sweep_events].
  - injection Hk as ->. replace (c + 2 * 0) with c by lia.
    exists [], (map Opened (output_files alg (length d)) ++ sweep_events alg (c + 2) datasets).
    unfold measurement_events. by rewrite <- !app_assoc.
  - replace (c + 2 * S k) with (c + 2 + 2 * k) by lia.
    apply called_between_app_l, IH, Hk.
Qed.

(** Where the four invocations on the [k]-th dataset stand among the
    readings of the clock. *)
Lemma harness_events_segments c datasets k d :
  datasets !! k = Some d ->
  let n := length datasets in
  let es := harness_events c datasets in
  called_between es StdSort d (c + 2 * k)
  /\ called_between es BubbleSort d (c + 2 * n + 2 * k)
  /\ called_between es SelectionSort d (c + 4 * n + 2 * k)
  /\ called_between es HeapSort d (c + 6 * n + 2 * k).
Proof.
  intros Hk n es. subst es. unfold harness_events. fold n.
  pose proof (fun alg c => sweep_events_segment alg c datasets k d Hk) as Hseg.
  split; [|split; [|split]].
  - apply called_between_app_r, Hseg.
  - apply called_between_app_l, called_between_app_r, Hseg.
  - do 2 apply called_between_app_l. apply called_between_app_r, Hseg.
  - do 3 apply called_between_app_l. apply called_between_app_r, Hseg.
Qed.

(** *** The readings of the clock *)

Lemma durations_cons now c n :
  durations now c (S n) = elapsed_ms now c :: durations now (c + 2) n.
Proof.
  unfold durations. cbn [seq map]. f_equal.
  - by replace (c + 2 * 0) with c by lia.
  - rewrite <- seq_shift, map_map. apply map_ext. intros k.
    by replace (c + 2 * S k) with (c + 2 + 2 * k) by lia.
Qed.

Lemma durations_length now c n : length (durations now c n) = n.
Proof. unfold durations. by rewrite length_map, length_seq. Qed.

Lemma durations_lookup now c n k :
  k < n ->
  durations now c n !! k
  = Some (duration_cast_milliseconds (now (c + 2 * k + 1) - now (c + 2 * k))).
Proof.
  intros Hk. unfold durations. rewrite list_lookup_fmap, lookup_seq_lt by done.
  simpl. unfold elapsed_ms. by rewrite Nat.add_1_r.
Qed.

Section HarnessProofs.
Variable std_sort : forall T : Type, (T -> T -> bool) -> list T -> list T.
Variable now : nat -> Z.

Lemma measureStdSort_measures : measures now StdSort (measureStdSort std_sort now).
Proof.
  intros tickets w. eexists. split; [done|]. cbn [clock_reads trace disk enter].
  split; [lia|]. split; [|done]. by rewrite <- !app_assoc.
Qed.

(** The three measuring routines that save their result have one shape. *)
Lemma measure_shape_measures alg prefix
    (sort : list LotteryTicket -> result fault (list LotteryTicket)) measure :
  output_files alg = (fun n => [prefix +:+ show_Z (Z.of_nat n)]) ->
  (forall tickets, exists out, sort tickets = Ok out /\ out ≡ₚ tickets) ->
  (forall tickets w, measure tickets w =
     let '(start, w) := read_clock now w in
     let w := enter alg tickets w in
     sorted <- thrown_in w (lift_fault (sort tickets)) ;;
     let '(finish, w) := read_clock now w in
     let w := save (prefix +:+ size_suffix sorted) sorted w in
     Ok (duration_cast_milliseconds (finish - start), w)) ->
  measures now alg measure.
Proof.
  intros Hfiles Hsort Hshape tickets w. rewrite Hshape. cbn [read_clock].
  destruct (Hsort tickets) as (out & Hrun & Hperm). rewrite Hrun.
  cbn [lift_fault thrown_in bind].
  eexists. split; [done|]. cbn [clock_reads trace disk enter save output].
  split; [lia|]. split.
  - unfold measurement_events, size_suffix.
    rewrite Hfiles, (Permutation_length Hperm). by rewrite <- !app_assoc.
  - apply write_unchecked_unwritable.
Qed.

Lemma measureBubbleSort_measures : measures now BubbleSort (measureBubbleSort now).
Proof.
  apply (measure_shape_measures BubbleSort "lottery_bubble_sort_" bubbleSort);
    [done | | done].
  intros tickets.
  destruct (bubbleSort_spec ticket_gt_lt ticket_op_lt_swo tickets)
    as (out & Hrun & Hperm & _).
  by exists out.
Qed.

Lemma measureSelectionSort_measures :
  measures now SelectionSort (measureSelectionSort now).
Proof.
  apply (measure_shape_measures SelectionSort "lottery_selection_sort_" selectionSort);
    [done | | done].
  intros tickets.
  destruct (selectionSort_spec ticket_op_lt_swo tickets) as (out & Hrun & Hperm & _).
  by exists out.
Qed.

Lemma measureHeapSort_measures : measures now HeapSort (measureHeapSort now).
Proof.
  apply (measure_shape_measures HeapSort "lottery_heap_sort_" heapSort);
    [done | | done].
  intros tickets.
  destruct (heapSort_spec ticket_gt_lt ticket_op_lt_swo tickets)
    as (out & Hrun & Hperm & _).
  by exists out.
Qed.

Lemma measure_all_spec alg measure arrs w :
  measures now alg measure ->
  exists w',
    measure_all measure arrs w = Ok (durations now (clock_reads w) (length arrs), w')
    /\ clock_reads w' = clock_reads w + 2 * length arrs
    /\ trace w' = trace w ++ sweep_events alg (clock_reads w) arrs
    /\ unwritable (disk w') = unwritable (disk w).
Proof.
  intros Hm. unfold measure_all.
  assert (forall times0 w0, exists w',
    for_each arrs (fun arr '(times, w) =>
      timed <- measure arr w ;;
      let '(t, w) := timed in Ok (times ++ [t], w)) (times0, w0)
      = Ok (times0 ++ durations now (clock_reads w0) (length arrs), w')
    /\ clock_reads w' = clock_reads w0 + 2 * length arrs
    /\ trace w' = trace w0 ++ sweep_events alg (clock_reads w0) arrs
    /\ unwritable (disk w') = unwritable (disk w0)) as Hgen.
  { induction arrs as [|arr arrs IH]; intros times0 w0; cbn [for_each].
    - exists w0. rewrite !app_nil_r. split; [done|]. split; [simpl; lia | done].
    - destruct (Hm arr w0) as (w1 & -> & Hclock & Htrace & Hperm). cbn [bind].
      destruct (IH (times0 ++ [elapsed_ms now (clock_reads w0)]) w1)
        as (w' & -> & Hclock' & Htrace' & Hperm').
      exists w'. cbn [length sweep_events].
      rewrite durations_cons, <- app_assoc, Hclock. split; [done|].
      split; [lia|]. split; [|congruence].
      rewrite Htrace', Htrace, Hclock. by rewrite <- app_assoc. }
  destruct (Hgen [] w) as (w' & Hrun & H). by exists w'.
Qed.
End HarnessProofs.

(** *** The results table *)

Lemma show_table_app rows1 rows2 :
  show_table (rows1 ++ rows2) = show_table rows1 +:+ show_table rows2.
Proof.
  induction rows1 as [|r rows1 IH]; simpl; [done|].
  by rewrite IH, append_assoc.
Qed.

Lemma zip_rows_lookup sizes t1 t2 t3 t4 i s a b c d :
  sizes !! i = Some s -> t1 !! i = Some a -> t2 !! i = Some b ->
  t3 !! i = Some c -> t4 !! i = Some d ->
  zip_rows sizes t1 t2 t3 t4 !! i = Some (mkTableLine s a b c d).
Proof.
  revert sizes t1 t2 t3 t4.
  induction i as [|i IH]; intros [|s' sizes] [|a' t1] [|b' t2] [|c' t3] [|d' t4];
    try done; simpl.
  - by intros [= ->] [= ->] [= ->] [= ->] [= ->].
  - apply IH.
Qed.

Lemma zip_rows_length sizes t1 t2 t3 t4 n :
  length sizes = n -> length t1 = n -> length t2 = n -> length t3 = n ->
  length t4 = n -> length (zip_rows sizes t1 t2 t3 t4) = n.
Proof.
  revert sizes t1 t2 t3 t4.
  induction n as [|n IH]; intros [|s' sizes] [|a' t1] [|b' t2] [|c' t3] [|d' t4];
    try done; simpl.
  intros. f_equal. apply IH; lia.
Qed.

Lemma zip_rows_sizes sizes t1 t2 t3 t4 n :
  length sizes = n -> length t1 = n -> length t2 = n -> length t3 = n ->
  length t4 = n -> map size (zip_rows sizes t1 t2 t3 t4) = sizes.
Proof.
  revert sizes t1 t2 t3 t4.
  induction n as [|n IH]; intros [|s' sizes] [|a' t1] [|b' t2] [|c' t3] [|d' t4];
    try done; simpl.
  intros. f_equal. apply IH; lia.
Qed.

Lemma table_text sizes t1 t2 t3 t4 n :
  length sizes = n -> length t1 = n -> length t2 = n -> length t3 = n ->
  length t4 = n ->
  for_range 0 n (fun i text =>
    row <- table_row sizes t1 t2 t3 t4 i ;; Ok (text +:+ row)) ""
  = Ok (show_table (zip_rows sizes t1 t2 t3 t4)).
Proof.
  intros Hs H1 H2 H3 H4. set (rows := zip_rows sizes t1 t2 t3 t4).
  destruct (for_range_inv (fun j text => text = show_table (take j rows)) 0 n
    (fun i text => row <- table_row sizes t1 t2 t3 t4 i ;; Ok (text +:+ row)) "")
    as (text & -> & ->).
  - lia.
  - done.
  - intros j text Hj ->.
    destruct (lookup_lt_is_Some_2 sizes j) as [s Hsj]; [lia|].
    destruct (lookup_lt_is_Some_2 t1 j) as [a Ha]; [lia|].
    destruct (lookup_lt_is_Some_2 t2 j) as [b Hb]; [lia|].
    destruct (lookup_lt_is_Some_2 t3 j) as [c Hc]; [lia|].
    destruct (lookup_lt_is_Some_2 t4 j) as [d Hd]; [lia|].
    unfold table_row.
    rewrite (proj2 (vec_at_Ok _ _ _) Hsj), (proj2 (vec_at_Ok _ _ _) Ha),
      (proj2 (vec_at_Ok _ _ _) Hb), (proj2 (vec_at_Ok _ _ _) Hc),
      (proj2 (vec_at_Ok _ _ _) Hd). cbn [bind].
    eexists. split; [done|].
    rewrite (take_S_r rows j (mkTableLine s a b c d))
      by (by apply zip_rows_lookup).
    rewrite show_table_app. simpl. by rewrite append_nil_r.
  - f_equal. f_equal. apply take_ge.
    unfold rows. rewrite (zip_rows_length _ _ _ _ _ n) by done. lia.
Qed.

Lemma harness_runs std_sort now arr_size w datasets :
  load_all (disk w) (map dataset_name arr_size) = Ok datasets ->
  exists w',
    harness std_sort now arr_size w = Ok w'
    /\ clock_reads w' = clock_reads w + 8 * length arr_size
    /\ trace w' = trace w ++ harness_events (clock_reads w) datasets
    /\ unwritable (disk w') = unwritable (disk w)
    /\ ("time_sorts.txt" ∉ unwritable (disk w) ->
        contents (disk w') !! "time_sorts.txt"
        = Some (show_table (expected_rows now (clock_reads w) arr_size))).
Proof.
  intros Hload. unfold harness. rewrite Hload. cbn [thrown_in bind].
  assert (length datasets = length arr_size) as Hlen.
  { apply load_all_spec in Hload. apply Forall2_length in Hload.
    by rewrite length_map in Hload. }
  set (n := length arr_size) in *. set (c := clock_reads w).
  destruct (measure_all_spec now StdSort (measureStdSort std_sort now)
    datasets w (measureStdSort_measures std_sort now)) as (w1 & -> & Hc1 & Ht1 & Hp1).
  cbn [bind].
  destruct (measure_all_spec now BubbleSort (measureBubbleSort now) datasets w1
    (measureBubbleSort_measures now)) as (w2 & -> & Hc2 & Ht2 & Hp2).
  cbn [bind].
  destruct (measure_all_spec now SelectionSort (measureSelectionSort now)
    datasets w2 (measureSelectionSort_measures now)) as (w3 & -> & Hc3 & Ht3 & Hp3).
  cbn [bind].
  destruct (measure_all_spec now HeapSort (measureHeapSort now) datasets w3
    (measureHeapSort_measures now)) as (w4 & -> & Hc4 & Ht4 & Hp4).
  cbn [bind].
  rewrite Hlen in *. fold c in Hc1, Ht1.
  replace (clock_reads w1) with (c + 2 * n) in * by lia.
  replace (clock_reads w2) with (c + 4 * n) in * by lia.
  replace (clock_reads w3) with (c + 6 * n) in * by lia.
  rewrite durations_length.
  rewrite (thrown_in_Ok _ _ _ (lift_fault_Ok _ _ (table_text arr_size _ _ _ _ n
    eq_refl (durations_length _ _ _) (durations_length _ _ _)
    (durations_length _ _ _) (durations_length _ _ _)))). cbn [bind].
  eexists. split; [done|]. cbn [clock_reads trace disk output].
  split; [lia|]. split; [|split].
  - rewrite Ht4, Ht3, Ht2, Ht1. unfold harness_events. rewrite Hlen.
    by rewrite <- !app_assoc.
  - rewrite write_unchecked_unwritable. congruence.
  - intros Hw. unfold write_unchecked.
    rewrite decide_False by (by rewrite Hp4, Hp3, Hp2, Hp1).
    apply lookup_insert_eq.
Qed.

(** Where the four invocations on the [k]-th dataset stand in the order of
    execution: [n] places apart, in the order reference, bubble, selection,
    heap. *)
Lemma algorithm_major_lookup datasets k d :
  datasets !! k = Some d ->
  let n := length datasets in
  algorithm_major datasets !! k = Some (mkInvocation StdSort d)
  /\ algorithm_major datasets !! (n + k) = Some (mkInvocation BubbleSort d)
  /\ algorithm_major datasets !! (2 * n + k) = Some (mkInvocation SelectionSort d)
  /\ algorithm_major datasets !! (3 * n + k) = Some (mkInvocation HeapSort d).
Proof.
  intros Hk n. pose proof (lookup_lt_Some _ _ _ Hk) as Hlt.
  unfold algorithm_major.
  assert (forall alg, map (mkInvocation alg) datasets !! k = Some (mkInvocation alg d))
    as Hmap by (intros alg; by rewrite list_lookup_fmap, Hk).
  split; [|split; [|split]].
  - rewrite lookup_app_l by (rewrite length_map; lia). apply Hmap.
  - rewrite lookup_app_r by (rewrite length_map; lia).
    rewrite length_map. replace (n + k - length datasets) with k by (subst n; lia).
    rewrite lookup_app_l by (rewrite length_map; lia). apply Hmap.
  - rewrite lookup_app_r by (rewrite length_map; lia).
    rewrite lookup_app_r by (rewrite !length_map; subst n; lia).
    rewrite !length_map.
    replace (2 * n + k - length datasets - length datasets) with k by (subst n; lia).
    rewrite lookup_app_l by (rewrite length_map; lia). apply Hmap.
  - rewrite lookup_app_r by (rewrite length_map; lia).
    rewrite lookup_app_r by (rewrite !length_map; subst n; lia).
    rewrite lookup_app_r by (rewrite !length_map; subst n; lia).
    rewrite !length_map.
    replace (3 * n + k - length datasets - length datasets - length datasets)
      with k by (subst n; lia).
    apply Hmap.
Qed.

(** C4, as the code has it: the datasets of the sweep are loaded in the
    order of the sweep; then the reference sort is measured on every
    dataset, then bubble sort on every dataset, then selection sort, then
    heap sort, each time on the dataset as it was loaded, so that the four
    invocations on one dataset come in the order reference, bubble,
    selection, heap, a whole sweep apart.  Every invocation stands between
    two successive readings of the clock, and the readings, the calls and
    the output files follow one another as [harness_events] lists them.
    The table has one row per size in the order of the sweep, and the row
    of the [k]-th size holds, in this order, the size and the durations in
    whole milliseconds between the two readings around the reference,
    bubble, selection and heap sort of the [k]-th dataset: the readings
    [2k], [2n + 2k], [4n + 2k] and [6n + 2k] of the run and their
    successors, for a sweep of [n] sizes.  The sweep of [main] is
    ascending. *)
Theorem C4_harness_order std_sort now arr_size w datasets :
  load_all (disk w) (map dataset_name arr_size) = Ok datasets ->
  Forall2 (fun el d => readTicketsFromFile (disk w) (dataset_name el) = Ok d)
          arr_size datasets
  /\ StronglySorted Z.lt main_sizes
  /\ (forall k d, datasets !! k = Some d ->
        let n := length datasets in
        algorithm_major datasets !! k = Some (mkInvocation StdSort d)
        /\ algorithm_major datasets !! (n + k) = Some (mkInvocation BubbleSort d)
        /\ algorithm_major datasets !! (2 * n + k) = Some (mkInvocation SelectionSort d)
        /\ algorithm_major datasets !! (3 * n + k) = Some (mkInvocation HeapSort d))
  /\ (forall k d, datasets !! k = Some d ->
        let n := length datasets in
        let c := clock_reads w in
        let es := harness_events c datasets in
        called_between es StdSort d (c + 2 * k)
        /\ called_between es BubbleSort d (c + 2 * n + 2 * k)
        /\ called_between es SelectionSort d (c + 4 * n + 2 * k)
        /\ called_between es HeapSort d (c + 6 * n + 2 * k))
  /\ exists w',
       harness std_sort now arr_size w = Ok w'
       /\ invocations w' = invocations w ++ algorithm_major datasets
       /\ trace w' = trace w ++ harness_events (clock_reads w) datasets
       /\ map size (expected_rows now (clock_reads w) arr_size) = arr_size
       /\ (forall k s, arr_size !! k = Some s ->
             let n := length arr_size in
             let c := clock_reads w in
             expected_rows now c arr_size !! k
             = Some (mkTableLine s
                       (duration_cast_milliseconds
                          (now (c + 2 * k + 1) - now (c + 2 * k)))
                       (duration_cast_milliseconds
                          (now (c + 2 * n + 2 * k + 1) - now (c + 2 * n + 2 * k)))
                       (duration_cast_milliseconds
                          (now (c + 4 * n + 2 * k + 1) - now (c + 4 * n + 2 * k)))
                       (duration_cast_milliseconds
                          (now (c + 6 * n + 2 * k + 1) - now (c + 6 * n + 2 * k)))))
       /\ ("time_sorts.txt" ∉ unwritable (disk w) ->
           contents (disk w') !! "time_sorts.txt"
           = Some (show_table (expected_rows now (clock_reads w) arr_size))).
Proof.
  intros Hload. split; [|split; [|split; [|split]]].
  - apply load_all_spec in Hload. by apply Forall2_fmap_l in Hload.
  - unfold main_sizes. repeat (constructor; [|repeat constructor; lia]). constructor.
  - apply algorithm_major_lookup.
  - intros k d Hk. by apply harness_events_segments.
  - destruct (harness_runs std_sort now arr_size w datasets Hload)
      as (w' & Hrun & _ & Htrace & _ & Htable).
    exists w'. split; [done|]. split; [|split; [done|split; [|split; [|done]]]].
    + unfold invocations. by rewrite Htrace, calls_app, calls_harness_events.
    + apply (zip_rows_sizes _ _ _ _ _ (length arr_size));
        (done || apply durations_length).
    + intros k s Hk n c. pose proof (lookup_lt_Some _ _ _ Hk) as Hlt.
      apply zip_rows_lookup; [done|..]; apply durations_lookup; done.
Qed.

Lemma two_sizes_load :
  load_all (disk two_sizes_world) (map dataset_name [1; 2]%Z) = Ok two_sizes_datasets.
Proof. vm_compute. reflexivity. Qed.

Lemma C4_witness :
  exists w',
    harness insertion_sort ticking [1; 2]%Z two_sizes_world = Ok w'
    /\ trace w' = trace two_sizes_world ++ harness_events 0 two_sizes_datasets
    /\ contents (disk w') !! "time_sorts.txt"
       = Some (show_table [mkTableLine 1 0 2 4 6; mkTableLine 2 1 3 5 7]).
Proof.
  destruct (C4_harness_order insertion_sort ticking [1; 2]%Z two_sizes_world
              two_sizes_datasets)
    as (_ & _ & _ & _ & w' & Hrun & _ & Htrace & _ & _ & Htable).
  - vm_compute. reflexivity.
  - exists w'. split; [exact Hrun|]. split; [exact Htrace|].
    apply Htable. apply not_elem_of_empty.
Defined.

(** On the sweep [1; 2] the second invocation is the reference sort on the
    second dataset, not bubble sort on the first. *)
Lemma C4_counterexample :
  ~ harness_claim insertion_sort ticking [1; 2]%Z two_sizes_world.
Proof.
  intros Hclaim.
  destruct (Hclaim two_sizes_datasets two_sizes_load) as (w' & rows & Hrun & Hinv & _).
  destruct (harness_runs insertion_sort ticking [1; 2]%Z two_sizes_world
              two_sizes_datasets two_sizes_load) as (w2 & Hrun2 & _ & Htrace & _).
  rewrite Hrun in Hrun2. injection Hrun2 as <-.
  unfold invocations in Hinv. rewrite Htrace, calls_app, calls_harness_events in Hinv.
  apply app_inv_head in Hinv. discriminate Hinv.
Qed.

(** The table of that run, after 8 invocations and 16 readings of the
    clock: the measurements last 0.25 ms, 1.25 ms, ..., 7.25 ms, the
    reference sort comes first on both datasets, heap sort last. *)
Example two_sizes_table :
  match harness insertion_sort ticking [1; 2]%Z two_sizes_world with
  | Ok w' => (contents (disk w') !! "time_sorts.txt", clock_reads w')
  | Err _ => (None, 0)
  end
  = (Some (show_table [mkTableLine 1 0 2 4 6; mkTableLine 2 1 3 5 7]), 16).
Proof. vm_compute. reflexivity. Qed.

(** * Further properties of the code *)

(** ** The sorting templates *)

Section SortExtras.
Context {T : Type} `{Comparable T}.
Hypothesis gt_lt : forall a b : T, op_gt a b = op_lt b a.
Hypothesis lt_swo : strict_weak_order (@op_lt T _).

Implicit Types (arr : list T) (x y z : T).

Lemma sorted_by_lookup arr i j x y :
sorted_by op_lt arr -> i < j -> arr !! i = Some x -> arr !! j = Some y ->
op_lt y x = false.
Proof.
unfold sorted_by. intros Hs. revert i j.
induction Hs as [|a l Hs IH Ha]; intros i j Hij Hi Hj; [done|].
destruct i as [|i], j as [|j]; try lia; simpl in *.
- simplify_eq. rewrite Forall_lookup in Ha. by apply (Ha j).
- apply (IH i j); [lia | done | done].
Qed.

(** [lt x y] and "[z] not below [y]" give [lt x z]. *)
Lemma lt_le_lt x y z : op_lt x y = true -> op_lt z y = false -> op_lt x z = true.
Proof.
intros Hxy Hzy. destruct (op_lt x z) eqn:Hxz; [done|].
pose proof (le_trans lt_swo _ _ _ Hzy Hxz). congruence.
Qed.

(** The scan of [selectionSort] returns the first position of a least
  element of [arr[i .. n-1]]. *)
Lemma selection_min_first arr i :
i < length arr ->
exists m, selection_min arr (length arr) i = Ok m
  /\ i <= m < length arr
  /\ (forall q x y, i <= q < length arr ->
        arr !! m = Some x -> arr !! q = Some y -> op_lt y x = false)
  /\ (forall q x y, i <= q < m ->
        arr !! m = Some x -> arr !! q = Some y -> op_lt x y = true).
Proof.
intros Hi. unfold selection_min.
destruct (for_range_inv
  (fun j m => i <= m < j
     /\ (forall q x y, i <= q < j ->
           arr !! m = Some x -> arr !! q = Some y -> op_lt y x = false)
     /\ (forall q x y, i <= q < m ->
           arr !! m = Some x -> arr !! q = Some y -> op_lt x y = true))
  (i + 1) (length arr)
  (fun j min_idx =>
     aj <- vec_at arr j ;; am <- vec_at arr min_idx ;;
     Ok (if op_lt aj am then j else min_idx)) i) as (m & Hm & Hb & Hmin & Hfirst).
- lia.
- split; [lia|]. split.
  + intros q x y Hq Hx Hy. assert (q = i) as -> by lia.
    simplify_eq. apply (swo_irrefl _ lt_swo).
  + intros q x y Hq. lia.
- intros j m Hj (Hm & Hmin & Hfirst).
  destruct (lookup_lt_is_Some_2 arr j) as [aj Haj]; [lia|].
  destruct (lookup_lt_is_Some_2 arr m) as [am Ham]; [lia|].
  rewrite (proj2 (vec_at_Ok arr j aj) Haj), (proj2 (vec_at_Ok arr m am) Ham).
  cbn [bind]. eexists; split; [done|].
  destruct (op_lt aj am) eqn:Hlt.
  + split; [lia|]. split.
    * intros q x y Hq Hx Hy. simplify_eq.
      destruct (decide (q = j)) as [->|Hne].
      -- simplify_eq. apply (swo_irrefl _ lt_swo).
      -- apply (lt_le_trans lt_swo) with am; [done|].
         apply (Hmin q); [lia | done | done].
    * intros q x y Hq Hx Hy. simplify_eq.
      apply lt_le_lt with am; [done|].
      apply (Hmin q); [lia | done | done].
  + split; [lia|]. split.
    * intros q x y Hq Hx Hy. simplify_eq.
      destruct (decide (q = j)) as [->|Hne].
      -- by simplify_eq.
      -- apply (Hmin q); [lia | done | done].
    * exact Hfirst.
- exists m. split; [done|]. split; [lia|]. split; done.
Qed.

Lemma selection_min_sorted arr i :
sorted_by op_lt arr -> i < length arr ->
selection_min arr (length arr) i = Ok i.
Proof.
intros Hs Hi.
destruct (selection_min_first arr i Hi) as (m & -> & Hm & Hmin & Hfirst).
f_equal. destruct (decide (m = i)) as [->|Hne]; [done|]. exfalso.
destruct (lookup_lt_is_Some_2 arr i Hi) as [ai Hai].
destruct (lookup_lt_is_Some_2 arr m) as [am Ham]; [lia|].
pose proof (Hfirst i am ai ltac:(lia) Ham Hai) as Hlt.
pose proof (sorted_by_lookup arr i m ai am Hs ltac:(lia) Hai Ham). congruence.
Qed.

Lemma selectionSort_sorted arr : sorted_by op_lt arr -> selectionSort arr = Ok arr.
Proof.
intros Hs. unfold selectionSort.
destruct (for_range_inv (fun _ a => a = arr) 0 (length arr - 1)
  (fun i a => min_idx <- selection_min a (length arr) i ;;
              if negb (min_idx =? i) then swap a i min_idx else Ok a) arr)
  as (out & -> & ->); [lia | done | | done].
intros i a Hi ->. rewrite selection_min_sorted by (done || lia). cbn [bind].
rewrite Nat.eqb_refl. by exists arr.
Qed.

Lemma bubbleSort_sorted arr : sorted_by op_lt arr -> bubbleSort arr = Ok arr.
Proof.
intros Hs.
destruct (bubbleSort_spec gt_lt lt_swo arr) as (out & Hrun & _).
rewrite Hrun. f_equal.
apply (bubbleSort_preserves (fun a => a = arr) arr out); [|done|done].
intros j a a' -> Hstep.
apply bubble_step_inv in Hstep as (u & v & Hu & Hv & ->).
rewrite gt_lt.
by rewrite (sorted_by_lookup arr j (j + 1) u v Hs ltac:(lia) Hu Hv).
Qed.

(** [heapify] does not touch the positions before [i]. *)
Lemma heapify_rec_prefix fuel arr n i out k :
heapify_rec fuel arr n i = Ok out -> n <= length arr -> k < i ->
out !! k = arr !! k.
Proof.
revert arr i. induction fuel as [|fuel IH]; intros arr i; [done|].
cbn [heapify_rec]. intros Hrun Hn Hk.
destruct (heapify_largest_range arr n i Hn) as (L & HL & Hrange).
rewrite HL in Hrun. cbn [bind] in Hrun.
destruct (Nat.eqb_spec L i) as [Heq|Hne]; cbn [negb] in Hrun.
{ by injection Hrun as <-. }
destruct Hrange as [Heq|HLr]; [done|].
destruct (swap arr i L) as [arr1|e] eqn:Hsw; [|done]. cbn [bind] in Hrun.
rewrite (IH arr1 L Hrun) by (rewrite ?(swap_length _ _ _ _ Hsw); lia).
rewrite (swap_lookup _ _ _ _ _ Hsw). unfold transpose.
by rewrite !decide_False by lia.
Qed.
End SortExtras.

Lemma comparisons_of_passes n count i :
  i + count = n - 1 ->
  2 * length (List.filter is_comparison
        (concat (map (fun i => Pass i :: map Comparison (seq 0 (n - i - 1)))
                     (seq i count))))
  = count * (count + 1).
Proof.
  revert i. induction count as [|count IH]; intros i Hi; [done|].
  cbn [seq map concat]. rewrite List.filter_app, length_app.
  assert (length (List.filter is_comparison
            (Pass i :: map Comparison (seq 0 (n - i - 1)))) = n - i - 1) as ->.
  { change (length (List.filter is_comparison (map Comparison (seq 0 (n - i - 1))))
            = n - i - 1).
    generalize (n - i - 1). intros len. generalize 0.
    induction len as [|len IHl]; intros start; simpl; [done|].
    by rewrite IHl. }
  specialize (IH (S i) ltac:(lia)). nia.
Qed.

Lemma bubble_schedule_comparisons n :
  2 * length (List.filter is_comparison (bubble_schedule n)) = n * (n - 1).
Proof.
  unfold bubble_schedule.
  rewrite (comparisons_of_passes n (n - 1) 0) by lia.
  destruct n as [|n]; [done|]. simpl. nia.
Qed.

(** X1: [heapify] at node [i] of a heap of size [n] whose nodes after [i]
    already dominate their children returns a vector in which every node
    from [i] on dominates its children; it permutes the first [n] elements,
    and leaves alone the positions before [i] and from [n] on. *)
Theorem X1_heapify_restores_heap (arr : list LotteryTicket) (n i : nat) :
  n <= length arr ->
  (forall j, i < j -> heap_at ticket_lt arr n j) ->
  exists out,
    heapify arr n i = Ok out
    /\ length out = length arr
    /\ take n out ≡ₚ take n arr
    /\ drop n out = drop n arr
    /\ (forall k, k < i -> out !! k = arr !! k)
    /\ (forall j, i <= j -> heap_at ticket_lt out n j).
Proof.
  intros Hn Hheap.
  destruct (heapify_spec ticket_gt_lt ticket_op_lt_swo n i arr i Hn ltac:(lia))
    as (out & Hrun & Hlen & Htake & Hdrop & Hpost).
  exists out. split; [done|]. split; [done|]. split; [done|]. split; [done|].
  split.
  - intros k Hk. by apply (heapify_rec_prefix (S n) arr n i out k).
  - apply Hpost.
    + intros j Hj Hne. apply Hheap. lia.
    + intros p c x y Hp Hi. lia.
Qed.

Lemma X1_witness :
  exists out, heapify example1 3 0 = Ok out
    /\ forall j, 0 <= j -> heap_at ticket_lt out 3 j.
Proof.
  destruct (X1_heapify_restores_heap example1 3 0) as (out & Hrun & _ & _ & _ & _ & Hh).
  - simpl. lia.
  - intros j Hj c x y Hc Hcn. lia.
  - exists out. split; [exact Hrun | exact Hh].
Defined.

(** X2: [bubbleSort] returns a vector that is already sorted as it is,
    element for element; so sorting its own output changes nothing. *)
Theorem X2_bubbleSort_keeps_sorted :
  (forall l : list LotteryTicket, sorted_by ticket_lt l -> bubbleSort l = Ok l)
  /\ (forall l out : list LotteryTicket,
        bubbleSort l = Ok out -> bubbleSort out = Ok out).
Proof.
  split.
  - intros l Hs. by apply (bubbleSort_sorted ticket_gt_lt ticket_op_lt_swo).
  - intros l out Hrun.
    apply (bubbleSort_sorted ticket_gt_lt ticket_op_lt_swo).
    destruct (bubbleSort_spec ticket_gt_lt ticket_op_lt_swo l) as (o & Ho & _ & Hord).
    rewrite Hrun in Ho. injection Ho as <-.
    exact (pairs_ordered_sorted (T := LotteryTicket) out Hord).
Qed.

(** X3: [selectionSort] returns a vector that is already sorted as it is,
    element for element; so sorting its own output changes nothing. *)
Theorem X3_selectionSort_keeps_sorted :
  (forall l : list LotteryTicket, sorted_by ticket_lt l -> selectionSort l = Ok l)
  /\ (forall l out : list LotteryTicket,
        selectionSort l = Ok out -> selectionSort out = Ok out).
Proof.
  split.
  - intros l Hs. by apply (selectionSort_sorted ticket_op_lt_swo).
  - intros l out Hrun.
    apply (selectionSort_sorted ticket_op_lt_swo).
    destruct (selectionSort_spec ticket_op_lt_swo l) as (o & Ho & _ & Hord).
    rewrite Hrun in Ho. injection Ho as <-.
    exact (pairs_ordered_sorted (T := LotteryTicket) out Hord).
Qed.

Lemma sorted_twins_sorted : sorted_by ticket_lt sorted_twins.
Proof. repeat constructor. Qed.

(** X4: [selectionSort] and [heapSort] are not stable, and [heapSort] does
    not even return every sorted vector as it is: tickets of one key can
    change places. *)
Theorem X4_selection_heap_not_stable :
  ~ (forall (arr out : list LotteryTicket) k, selectionSort arr = Ok out ->
       List.filter (equivalent k) out = List.filter (equivalent k) arr)
  /\ ~ (forall (arr out : list LotteryTicket) k, heapSort arr = Ok out ->
          List.filter (equivalent k) out = List.filter (equivalent k) arr)
  /\ ~ (forall arr : list LotteryTicket, sorted_by ticket_lt arr ->
          heapSort arr = Ok arr).
Proof.
  split; [|split].
  - intros Hstable.
    specialize (Hstable late_twins _ (mkLotteryTicket 3 1 "2024-05-01" 50) eq_refl).
    vm_compute in Hstable. discriminate Hstable.
  - intros Hstable.
    specialize (Hstable sorted_twins _ (mkLotteryTicket 3 1 "2024-05-01" 50) eq_refl).
    vm_compute in Hstable. discriminate Hstable.
  - intros Hsame. specialize (Hsame sorted_twins sorted_twins_sorted).
    vm_compute in Hsame. discriminate Hsame.
Qed.

(** X5: on one input the four algorithms return the same sequence of keys
    (date, win amount, ticket number), and sorting an output again with any
    of them returns that sequence of keys. *)
Theorem X5_algorithms_agree_on_keys std_sort alg1 alg2 l out1 out2 :
  sort_contract std_sort ->
  run_algorithm std_sort alg1 l = Ok out1 ->
  run_algorithm std_sort alg2 l = Ok out2 ->
  map key out1 = map key out2
  /\ forall out3, run_algorithm std_sort alg2 out1 = Ok out3 ->
       map key out3 = map key out1.
Proof.
  intros Hstd Hrun1 Hrun2.
  destruct (run_algorithm_sorted std_sort alg1 l out1 Hstd Hrun1) as [Hp1 Hs1].
  destruct (run_algorithm_sorted std_sort alg2 l out2 Hstd Hrun2) as [Hp2 Hs2].
  split.
  - apply sorted_keys_unique; [done | done |]. by rewrite Hp1, Hp2.
  - intros out3 Hrun3.
    destruct (run_algorithm_sorted std_sort alg2 out1 out3 Hstd Hrun3) as [Hp3 Hs3].
    apply sorted_keys_unique; [done | done |]. by rewrite Hp3.
Qed.

Lemma X5_witness :
  sort_contract insertion_sort
  /\ map key example1_sorted = map key example1_sorted.
Proof.
  split; [exact insertion_sort_contract|].
  destruct (X5_algorithms_agree_on_keys insertion_sort HeapSort SelectionSort example1
              example1_sorted example1_sorted) as [Hagree _].
  - exact insertion_sort_contract.
  - vm_compute. reflexivity.
  - vm_compute. reflexivity.
  - exact Hagree.
Defined.

(** X6: on [N] elements [bubbleSort] makes [N (N - 1) / 2] comparisons,
    whatever the elements. *)
Theorem X6_bubble_comparison_count (arr : list LotteryTicket) :
  exists out log,
    bubbleSort_logged arr = Ok (out, log)
    /\ 2 * length (List.filter is_comparison (map erase_event log))
       = length arr * (length arr - 1).
Proof.
  destruct (bubbleSort_spec ticket_gt_lt ticket_op_lt_swo arr) as (out & Hrun & _).
  destruct (bubbleSort_logged_spec arr out Hrun) as (log & Hlog & Hsched & _).
  exists out, log. split; [done|]. rewrite Hsched.
  apply bubble_schedule_comparisons.
Qed.

(** X7: the scan of [selectionSort] from position [i] returns the first
    position of a least ticket of [arr[i ..]]: no ticket from [i] on is
    smaller than the one found, and every ticket between [i] and it is
    greater. *)
Theorem X7_selection_scan_first_minimum (arr : list LotteryTicket) (i : nat) :
  i < length arr ->
  exists m, selection_min arr (length arr) i = Ok m
    /\ i <= m < length arr
    /\ (forall q x y, i <= q < length arr ->
          arr !! m = Some x -> arr !! q = Some y -> ticket_lt y x = false)
    /\ (forall q x y, i <= q < m ->
          arr !! m = Some x -> arr !! q = Some y -> ticket_lt x y = true).
Proof. intros Hi. by apply (selection_min_first ticket_op_lt_swo). Qed.

Lemma X7_witness : exists m, selection_min example1 3 0 = Ok m /\ 0 <= m < 3.
Proof.
  destruct (X7_selection_scan_first_minimum example1 0) as (m & Hrun & Hm & _).
  - simpl. lia.
  - exists m. split; [exact Hrun | exact Hm].
Defined.

(** X8: pass [i] of [bubbleSort] on [n] tickets moves a greatest ticket of
    the first [n - i] to position [n - i - 1], permutes those first [n - i]
    among themselves and leaves the last [i] where they are. *)
Theorem X8_bubble_pass_lifts_maximum (arr : list LotteryTicket) (i : nat) :
  i < length arr - 1 ->
  let n := length arr in
  exists out, bubble_pass n i arr = Ok out
    /\ length out = n
    /\ take (n - i) out ≡ₚ take (n - i) arr
    /\ drop (n - i) out = drop (n - i) arr
    /\ forall p x y, p <= n - i - 1 ->
         out !! p = Some x -> out !! (n - i - 1) = Some y -> ticket_lt y x = false.
Proof.
  intros Hi n.
  by apply (bubble_pass_spec ticket_gt_lt ticket_op_lt_swo n i arr).
Qed.

Lemma X8_witness :
  exists out, bubble_pass 3 0 example1 = Ok out /\ length out = 3.
Proof.
  destruct (X8_bubble_pass_lifts_maximum example1 0) as (out & Hrun & Hlen & _).
  - simpl. lia.
  - exists out. split; [exact Hrun | exact Hlen].
Defined.

(** X9: [operator<=] is a total preorder whose two-way instances are the
    tickets of one key, and [operator>=] is its converse. *)
Theorem X9_ticket_le_total_preorder :
  (forall a b, ticket_le a b = true \/ ticket_le b a = true)
  /\ (forall a b c, ticket_le a b = true -> ticket_le b c = true -> ticket_le a c = true)
  /\ (forall a b, ticket_le a b = true /\ ticket_le b a = true <-> same_key a b)
  /\ (forall a b, ticket_ge a b = ticket_le b a).
Proof.
  unfold ticket_le, ticket_ge, ticket_gt. split; [|split; [|split]].
  - intros a b. destruct (ticket_lt b a) eqn:Hba; [|by left].
    right. by rewrite (ticket_lt_asym _ _ Hba).
  - intros a b c Hab Hbc. apply negb_true_iff in Hab, Hbc. apply negb_true_iff.
    exact (le_trans (T := LotteryTicket) ticket_op_lt_swo a b c Hab Hbc).
  - intros a b. rewrite !negb_true_iff. split.
    + intros [Hba Hab]. by apply ticket_lt_same_key.
    + intros Hk. destruct (same_key_ticket_lt a b Hk). done.
  - done.
Qed.

(** ** The loader and the writer *)

Lemma file_lines_final_newline s :
  ends_in_text s = true -> file_lines (s +:+ newline) = file_lines s.
Proof.
  induction s as [|c s IH]; [done|].
  destruct s as [|c' s].
  - simpl. intros Hc. apply negb_true_iff in Hc. by rewrite Hc.
  - intros Hs. change (ends_in_text (String c (String c' s)))
      with (ends_in_text (String c' s)) in Hs.
    specialize (IH Hs).
    change (String c (String c' s) +:+ newline)
      with (String c (String c' s +:+ newline)).
    cbn [file_lines]. cbn [file_lines] in IH. by rewrite IH.
Qed.

(** X10: an empty file loads as the empty vector, and the line break after
    the last line is optional: a text that ends in a character other than a
    line break loads the same with one line break appended. *)
Theorem X10_final_newline_optional :
  (forall fs filename,
     contents fs !! filename = Some "" -> readTicketsFromFile fs filename = Ok [])
  /\ (forall fs1 fs2 filename content,
        contents fs1 !! filename = Some content ->
        contents fs2 !! filename = Some (content +:+ newline) ->
        ends_in_text content = true ->
        readTicketsFromFile fs2 filename = readTicketsFromFile fs1 filename).
Proof.
  split.
  - intros fs filename Hfile. by rewrite readTicketsFromFile_lines, Hfile.
  - intros fs1 fs2 filename content H1 H2 Hend.
    rewrite !readTicketsFromFile_lines, H1, H2.
    by rewrite file_lines_final_newline.
Qed.

Lemma parse_lines_first_failure before line after e :
  Forall (fun l => succeeds (parse_line l)) before ->
  parse_line line = Err e ->
  parse_lines (before ++ line :: after) = Err e.
Proof.
  induction 1 as [|l ls [t Ht] Hls IH]; intros Hline; simpl.
  - by rewrite Hline.
  - rewrite Ht. cbn [bind]. by rewrite IH.
Qed.

(** X11: the loader stops at the first line that does not convert and
    throws what that line throws; the tickets of the lines before it are
    lost.  An empty line is such a line: [std::invalid_argument]. *)
Theorem X11_first_bad_line_decides fs filename content before line after e :
  contents fs !! filename = Some content ->
  file_lines content = before ++ line :: after ->
  Forall (fun l => succeeds (parse_line l)) before ->
  parse_line line = Err e ->
  readTicketsFromFile fs filename = Err e
  /\ parse_line "" = Err (Thrown (invalid_argument "stoll")).
Proof.
  intros Hfile Hlines Hbefore Hline. split; [|done].
  rewrite readTicketsFromFile_lines, Hfile, Hlines.
  by apply parse_lines_first_failure.
Qed.

Lemma X11_witness :
  readTicketsFromFile bad_line_fs "lottery_2.txt"
  = Err (Thrown (invalid_argument "stoll")).
Proof.
  apply (X11_first_bad_line_decides bad_line_fs "lottery_2.txt" bad_line_text
           ["1,10,2024-05-01,50"] "x,20,2024-05-01,100" []).
  - reflexivity.
  - reflexivity.
  - constructor; [|constructor]. eexists. reflexivity.
  - reflexivity.
Defined.

Lemma item_take4 line k :
  4 <= length (fields line) -> k < 4 ->
  item line k = nth k (take 4 (fields line)) "".
Proof.
  intros Hlen Hk. unfold item.
  replace (Nat.min k (length (fields line) - 1)) with k by lia.
  destruct (fields line) as [|a [|b [|c [|d fs]]]]; simpl in Hlen; try lia.
  by destruct k as [|[|[|[|k]]]]; try lia.
Qed.

(** X12: only the first four fields of a line count: two lines with at
    least four fields each that agree on the first four load as the same
    ticket, or fail the same way. *)
Theorem X12_extra_fields_ignored line line' :
  4 <= length (fields line) -> 4 <= length (fields line') ->
  take 4 (fields line) = take 4 (fields line') ->
  parse_line line = parse_line line'.
Proof.
  intros Hlen Hlen' Hsame. rewrite !parse_line_convert. unfold convert_line.
  rewrite !(item_take4 line) by (done || lia).
  rewrite !(item_take4 line') by (done || lia).
  by rewrite Hsame.
Qed.

Lemma X12_witness :
  parse_line "1,10,2024-05-01,50,extra,fields" = parse_line "1,10,2024-05-01,50".
Proof.
  apply X12_extra_fields_ignored.
  - vm_compute. lia.
  - vm_compute. lia.
  - reflexivity.
Defined.

(** X13: the text [operator<<] prints for a well-formed ticket holds no
    line break and exactly the four fields, and determines the ticket: two
    well-formed tickets with the same text are the same ticket. *)
Theorem X13_show_ticket_injective t1 t2 :
  well_formed t1 -> well_formed t2 ->
  free_of "010" (show_ticket t1) = true
  /\ length (fields (show_ticket t1)) = 4
  /\ (show_ticket t1 = show_ticket t2 -> t1 = t2).
Proof.
  intros Hwf1 Hwf2. split; [by apply show_ticket_one_line|]. split.
  - destruct Hwf1 as (_ & _ & _ & Hcomma & _).
    by rewrite fields_show_ticket.
  - intros Heq. pose proof (convert_show_ticket t1 Hwf1) as H1.
    rewrite Heq, convert_show_ticket in H1 by done. by injection H1.
Qed.

Lemma X13_witness :
  length (fields (show_ticket (mkLotteryTicket 1 10 "2024-05-01" 50))) = 4.
Proof.
  destruct (X13_show_ticket_injective (mkLotteryTicket 1 10 "2024-05-01" 50)
              (mkLotteryTicket 1 10 "2024-05-01" 50)) as (_ & Hlen & _).
  - unfold well_formed, LLONG_MIN, LLONG_MAX, INT_MIN, INT_MAX. simpl.
    repeat split; (lia || reflexivity).
  - unfold well_formed, LLONG_MIN, LLONG_MAX, INT_MIN, INT_MAX. simpl.
    repeat split; (lia || reflexivity).
  - exact Hlen.
Defined.

(** ** The measuring routines and [main] *)

Lemma read_back fs name out :
  Forall well_formed out -> name ∉ unwritable fs ->
  readTicketsFromFile (write_unchecked fs name (write_tickets out newline)) name = Ok out.
Proof.
  intros Hwf Hw. unfold write_unchecked. rewrite decide_False by done.
  rewrite readTicketsFromFile_lines. unfold write_file. cbn [contents].
  rewrite lookup_insert_eq, file_lines_write_tickets by done.
  by apply parse_lines_show.
Qed.

Lemma measure_shape now (sort : list LotteryTicket -> result fault (list LotteryTicket))
    prefix alg measure tickets w out :
  (forall w, measure tickets w =
     let '(start, w) := read_clock now w in
     let w := enter alg tickets w in
     sorted <- thrown_in w (lift_fault (sort tickets)) ;;
     let '(finish, w) := read_clock now w in
     let w := save (prefix +:+ size_suffix sorted) sorted w in
     Ok (duration_cast_milliseconds (finish - start), w)) ->
  sort tickets = Ok out -> out ≡ₚ tickets -> Forall well_formed tickets ->
  measures_and_saves now alg sort prefix measure tickets w.
Proof.
  intros Hshape Hsort Hperm Hwf. exists out.
  rewrite Hshape. cbn [read_clock]. rewrite Hsort. cbn [lift_fault thrown_in bind].
  eexists. split; [done|]. split; [done|].
  cbn [clock_reads trace enter save output disk].
  split; [lia|].
  unfold size_suffix. rewrite (Permutation_length Hperm).
  split; [by rewrite <- !app_assoc|]. split.
  - intros Hw. apply read_back; [by rewrite Hperm | done].
  - intros Hw. unfold write_unchecked. by rewrite decide_True.
Qed.

(** X14: each of [measureBubbleSort], [measureSelectionSort] and
    [measureHeapSort], given well-formed tickets, reads the clock, calls
    its sorting algorithm on the tickets, reads the clock again and only
    then opens its output file, named after the number of tickets; it
    returns the time between the two readings in whole milliseconds,
    truncated, and leaves in the file a text that loads back as the sorted
    vector; when the file cannot be opened the output is dropped silently
    and the disk is unchanged. *)
Theorem X14_measured_output_reads_back now tickets w :
  Forall well_formed tickets ->
  measures_and_saves now BubbleSort bubbleSort "lottery_bubble_sort_"
    (measureBubbleSort now) tickets w
  /\ measures_and_saves now SelectionSort selectionSort "lottery_selection_sort_"
       (measureSelectionSort now) tickets w
  /\ measures_and_saves now HeapSort heapSort "lottery_heap_sort_"
       (measureHeapSort now) tickets w.
Proof.
  intros Hwf. split; [|split].
  - destruct (bubbleSort_spec ticket_gt_lt ticket_op_lt_swo tickets)
      as (out & Hrun & Hperm & _).
    by apply (measure_shape now bubbleSort _ BubbleSort _ tickets w out).
  - destruct (selectionSort_spec ticket_op_lt_swo tickets)
      as (out & Hrun & Hperm & _).
    by apply (measure_shape now selectionSort _ SelectionSort _ tickets w out).
  - destruct (heapSort_spec ticket_gt_lt ticket_op_lt_swo tickets)
      as (out & Hrun & Hperm & _).
    by apply (measure_shape now heapSort _ HeapSort _ tickets w out).
Qed.

Lemma X14_witness :
  measures_and_saves close_readings BubbleSort bubbleSort "lottery_bubble_sort_"
    (measureBubbleSort close_readings) example1 two_sizes_world.
Proof.
  apply (X14_measured_output_reads_back close_readings example1 two_sizes_world).
  exact example1_well_formed.
Defined.

(** Sorting between a reading at 0.8 ms and one at 1.2 ms is reported as
    0 ms, and the three tickets are left in "lottery_bubble_sort_3". *)
Example bubble_measured_in_0_ms :
  match measureBubbleSort close_readings example1 two_sizes_world with
  | Ok (t, w') => (t, trace w', readTicketsFromFile (disk w') "lottery_bubble_sort_3")
  | Err _ => (-1, [], Ok [])%Z
  end
  = (0%Z,
     [ClockRead 0; Call (mkInvocation BubbleSort example1); ClockRead 1;
      Opened "lottery_bubble_sort_3"],
     Ok example1_sorted).
Proof. vm_compute. reflexivity. Qed.



Lemma load_all_first_failure fs before name after e :
  Forall (fun n => succeeds (readTicketsFromFile fs n)) before ->
  readTicketsFromFile fs name = Err e ->
  load_all fs (before ++ name :: after) = Err e.
Proof.
  intros Hbefore Hname. unfold load_all. rewrite for_each_app.
  assert (forall acc, exists arrs,
    for_each before (fun name arrs =>
      tickets <- readTicketsFromFile fs name ;; Ok (arrs ++ [tickets])) acc = Ok arrs)
    as Hok.
  { induction Hbefore as [|n ns [t Ht] Hns IH]; intros acc; simpl; [by eexists|].
    rewrite Ht. cbn [bind]. apply IH. }
  destruct (Hok []) as [arrs ->]. cbn [bind for_each]. by rewrite Hname.
Qed.

(** X16: when a dataset of the sweep does not load, [main] ends with the
    error of the first such dataset, whatever comes after it in the sweep,
    and leaves the world as it found it: the clock was not read, no
    algorithm was called, no file was opened for output.  A missing file is
    such a case, with [std::runtime_error]. *)
Theorem X16_harness_aborts_on_load_error std_sort now before el after w e :
  Forall (fun s => succeeds (readTicketsFromFile (disk w) (dataset_name s))) before ->
  readTicketsFromFile (disk w) (dataset_name el) = Err e ->
  harness std_sort now (before ++ el :: after) w = Err (e, w)
  /\ (contents (disk w) !! dataset_name el = None ->
      e = Thrown (runtime_error ("Could not open file: " +:+ dataset_name el))).
Proof.
  intros Hbefore Hel. split.
  - unfold harness. rewrite map_app. cbn [map].
    rewrite (load_all_first_failure _ _ _ _ e); [done | | done].
    by apply Forall_fmap.
  - intros Hnone. unfold readTicketsFromFile in Hel. rewrite Hnone in Hel.
    by injection Hel as <-.
Qed.

Lemma X16_witness :
  harness insertion_sort ticking ([1; 2] ++ 500 :: [1000])%Z two_sizes_world
  = Err (Thrown (runtime_error "Could not open file: lottery_500.txt"), two_sizes_world).
Proof.
  apply (X16_harness_aborts_on_load_error insertion_sort ticking [1; 2]%Z 500%Z
           [1000]%Z two_sizes_world).
  - repeat constructor; eexists; vm_compute; reflexivity.
  - vm_compute. reflexivity.
Defined.

(** *** What a run of [main] consists of *)

Lemma harness_Ok_inv std_sort now arr_size w w' :
  harness std_sort now arr_size w = Ok w' ->
  exists datasets t1 w1 t2 w2 t3 w3 t4 w4 text,
    load_all (disk w) (map dataset_name arr_size) = Ok datasets
    /\ measure_all (measureStdSort std_sort now) datasets w = Ok (t1, w1)
    /\ measure_all (measureBubbleSort now) datasets w1 = Ok (t2, w2)
    /\ measure_all (measureSelectionSort now) datasets w2 = Ok (t3, w3)
    /\ measure_all (measureHeapSort now) datasets w3 = Ok (t4, w4)
    /\ for_range 0 (length t1) (fun i text =>
         row <- table_row arr_size t1 t2 t3 t4 i ;; Ok (text +:+ row)) "" = Ok text
    /\ w' = output "time_sorts.txt" text w4.
Proof.
  unfold harness. intros Hrun.
  apply bind_Ok in Hrun as (datasets & Hload%thrown_in_Ok_inv & Hrun).
  apply bind_Ok in Hrun as ([t1 w1] & H1 & Hrun).
  apply bind_Ok in Hrun as ([t2 w2] & H2 & Hrun).
  apply bind_Ok in Hrun as ([t3 w3] & H3 & Hrun).
  apply bind_Ok in Hrun as ([t4 w4] & H4 & Hrun).
  apply bind_Ok in Hrun as (text & Htext%thrown_in_Ok_inv & [= <-]).
  exists datasets, t1, w1, t2, w2, t3, w3, t4, w4, text.
  repeat (split; [done|]). split; [|done].
  destruct (for_range _ _ _ _) as [text'|f]; simpl in Htext; congruence.
Qed.

(** *** The files [main] writes *)

Lemma show_Z_head z :
  exists c rest, show_Z z = String c rest /\ (is_digit c = true \/ c = "-"%char).
Proof.
  destruct z as [|p|p]; simpl.
  - exists "0"%char, "". by split; [|left].
  - destruct (show_N_spec p) as (_ & _ & Hstart).
    destruct (show_N (N.pos p)) as [|c rest]; [done|].
    exists c, rest. by split; [|left].
  - eexists _, _. by split; [|right].
Qed.

Lemma dataset_name_head el :
  exists c rest, dataset_name el = "lottery_" +:+ String c rest
    /\ (is_digit c = true \/ c = "-"%char).
Proof.
  destruct (show_Z_head el) as (c & rest & Hz & Hc).
  exists c, (rest +:+ ".txt"). split; [|done].
  unfold dataset_name. by rewrite Hz.
Qed.

Lemma dataset_name_not_output el prefix_tail suffix c0 :
  is_digit c0 = false -> c0 <> "-"%char ->
  dataset_name el <> "lottery_" +:+ String c0 prefix_tail +:+ suffix.
Proof.
  intros Hd Hm. destruct (dataset_name_head el) as (c & rest & -> & Hc).
  simpl. intros [= -> _]. destruct Hc; congruence.
Qed.

Lemma dataset_name_not_table el : dataset_name el <> "time_sorts.txt".
Proof. unfold dataset_name. simpl. by intros [=]. Qed.

Lemma save_keeps name other tickets w :
  other <> name ->
  contents (disk (save name tickets w)) !! other = contents (disk w) !! other.
Proof.
  intros Hne. unfold save, output, write_unchecked. cbn [disk].
  case_decide; [done|]. unfold write_file. cbn [contents].
  by apply lookup_insert_ne.
Qed.

Lemma measureStdSort_keeps std_sort now name :
  keeps_file name (measureStdSort std_sort now).
Proof. intros tickets w t w' [= _ <-]. done. Qed.

Lemma measureBubbleSort_keeps now el :
  keeps_file (dataset_name el) (measureBubbleSort now).
Proof.
  intros tickets w t w'. unfold measureBubbleSort. cbn [read_clock].
  destruct (bubbleSort tickets) as [out|f]; cbn [lift_fault thrown_in bind]; [|done].
  intros [= _ <-]. rewrite save_keeps; [done|].
  apply (dataset_name_not_output el "ubble_sort_" _ "b"); done.
Qed.

Lemma measureSelectionSort_keeps now el :
  keeps_file (dataset_name el) (measureSelectionSort now).
Proof.
  intros tickets w t w'. unfold measureSelectionSort. cbn [read_clock].
  destruct (selectionSort tickets) as [out|f]; cbn [lift_fault thrown_in bind]; [|done].
  intros [= _ <-]. rewrite save_keeps; [done|].
  apply (dataset_name_not_output el "election_sort_" _ "s"); done.
Qed.

Lemma measureHeapSort_keeps now el :
  keeps_file (dataset_name el) (measureHeapSort now).
Proof.
  intros tickets w t w'. unfold measureHeapSort. cbn [read_clock].
  destruct (heapSort tickets) as [out|f]; cbn [lift_fault thrown_in bind]; [|done].
  intros [= _ <-]. rewrite save_keeps; [done|].
  apply (dataset_name_not_output el "eap_sort_" _ "h"); done.
Qed.

Lemma measure_all_keeps name measure arrs w times w' :
  keeps_file name measure ->
  measure_all measure arrs w = Ok (times, w') ->
  contents (disk w') !! name = contents (disk w) !! name.
Proof.
  intros Hkeep. unfold measure_all.
  assert (forall acc w0,
    for_each arrs (fun arr '(times, w) =>
      timed <- measure arr w ;;
      let '(t, w) := timed in Ok (times ++ [t], w)) (acc, w0) = Ok (times, w') ->
    contents (disk w') !! name = contents (disk w0) !! name) as Hgen; [|apply Hgen].
  clear w. induction arrs as [|arr arrs IH]; intros acc w; cbn [for_each].
  - by intros [= _ <-].
  - intros Hrun. apply bind_Ok in Hrun as ([times1 w1] & H1 & Hrun).
    apply bind_Ok in H1 as ([t w2] & Hm & [= <- <-]).
    rewrite (IH _ _ Hrun). by apply (Hkeep arr w t).
Qed.

Lemma measure_all_unwritable now alg measure arrs w times w' :
  measures now alg measure ->
  measure_all measure arrs w = Ok (times, w') ->
  length times = length arrs /\ unwritable (disk w') = unwritable (disk w).
Proof.
  intros Hm Hrun.
  destruct (measure_all_spec now alg measure arrs w Hm) as (w1 & Hrun1 & _ & _ & Hu).
  rewrite Hrun in Hrun1. injection Hrun1 as -> ->.
  by rewrite durations_length.
Qed.

(** X17: a run of [main] that returns has not changed any file named like
    a dataset, [lottery_<number>.txt], and has not changed which files can
    be written. *)
Theorem X17_harness_keeps_datasets std_sort now arr_size w w' :
  harness std_sort now arr_size w = Ok w' ->
  (forall el, contents (disk w') !! dataset_name el
              = contents (disk w) !! dataset_name el)
  /\ unwritable (disk w') = unwritable (disk w).
Proof.
  intros Hrun.
  apply harness_Ok_inv in Hrun
    as (datasets & t1 & w1 & t2 & w2 & t3 & w3 & t4 & w4 & text
        & Hload & H1 & H2 & H3 & H4 & Htext & ->).
  cbn [output disk]. split.
  - intros el. unfold write_unchecked.
    assert (contents (disk w4) !! dataset_name el = contents (disk w) !! dataset_name el)
      as Hkept.
    { rewrite (measure_all_keeps _ _ _ _ _ _ (measureHeapSort_keeps now el) H4).
      rewrite (measure_all_keeps _ _ _ _ _ _ (measureSelectionSort_keeps now el) H3).
      rewrite (measure_all_keeps _ _ _ _ _ _ (measureBubbleSort_keeps now el) H2).
      exact (measure_all_keeps _ _ _ _ _ _
               (measureStdSort_keeps std_sort now (dataset_name el)) H1). }
    case_decide; [done|]. unfold write_file. cbn [contents].
    rewrite lookup_insert_ne; [done|]. intros Heq. symmetry in Heq.
    by apply dataset_name_not_table in Heq.
  - rewrite write_unchecked_unwritable.
    destruct (measure_all_unwritable _ _ _ _ _ _ _ (measureHeapSort_measures now) H4)
      as [_ ->].
    destruct (measure_all_unwritable _ _ _ _ _ _ _ (measureSelectionSort_measures now) H3)
      as [_ ->].
    destruct (measure_all_unwritable _ _ _ _ _ _ _ (measureBubbleSort_measures now) H2)
      as [_ ->].
    by destruct (measure_all_unwritable _ _ _ _ _ _ _
                   (measureStdSort_measures std_sort now) H1) as [_ ->].
Qed.

(** *** The readings of the clock *)

Lemma elapsed_ms_nonnegative now c : (now c <= now (S c))%Z -> (0 <= elapsed_ms now c)%Z.
Proof.
  intros Hmono. unfold elapsed_ms, duration_cast_milliseconds.
  apply Z.quot_pos; lia.
Qed.

Lemma durations_nonnegative now c n :
  (forall k, (now k <= now (S k))%Z) -> Forall (fun t => (0 <= t)%Z) (durations now c n).
Proof.
  intros Hmono. unfold durations. apply Forall_map, Forall_forall.
  intros k _. by apply elapsed_ms_nonnegative.
Qed.

Lemma zip_rows_nonnegative sizes t1 t2 t3 t4 :
  Forall (fun t => (0 <= t)%Z) t1 -> Forall (fun t => (0 <= t)%Z) t2 ->
  Forall (fun t => (0 <= t)%Z) t3 -> Forall (fun t => (0 <= t)%Z) t4 ->
  Forall nonnegative_row (zip_rows sizes t1 t2 t3 t4).
Proof.
  intros H1. revert sizes t2 t3 t4.
  induction H1 as [|a t1 Ha H1 IH]; intros sizes t2 t3 t4 H2 H3 H4.
  - destruct sizes; constructor.
  - destruct sizes as [|s sizes]; [constructor|].
    destruct H2 as [|b t2 Hb H2]; [constructor|].
    destruct H3 as [|c t3 Hc H3]; [constructor|].
    destruct H4 as [|d t4 Hd H4]; [constructor|].
    simpl. constructor; [by repeat split | by apply IH].
Qed.

(** X18: a run of [main] on a sweep of [n] sizes that returns has read the
    clock [8 n] times and its table is determined by the sweep and those
    readings: with [c] readings taken before, the row of the [k]-th size
    holds the time between the readings [c+2k] and [c+2k+1] (reference),
    and between the same pairs [2n], [4n] and [6n] readings later (bubble,
    selection, heap), each in whole milliseconds, truncated: a measurement
    of less than a millisecond is reported as 0.  With a clock that never
    goes back no duration is negative, and no duration exceeds the time
    between its two readings. *)
Theorem X18_table_from_clock std_sort now arr_size w w' :
  harness std_sort now arr_size w = Ok w' ->
  let n := length arr_size in
  let c := clock_reads w in
  let rows := zip_rows arr_size (durations now c n) (durations now (c + 2 * n) n)
                (durations now (c + 4 * n) n) (durations now (c + 6 * n) n) in
  clock_reads w' = c + 8 * n
  /\ length rows = n
  /\ ("time_sorts.txt" ∉ unwritable (disk w) ->
      contents (disk w') !! "time_sorts.txt" = Some (show_table rows))
  /\ (forall m, (now m <= now (S m))%Z ->
        (0 <= 1000000 * elapsed_ms now m <= now (S m) - now m
         /\ now (S m) - now m < 1000000 * elapsed_ms now m + 1000000)%Z)
  /\ ((forall k, (now k <= now (S k))%Z) -> Forall nonnegative_row rows).
Proof.
  intros Hrun n c rows.
  assert (exists datasets,
    load_all (disk w) (map dataset_name arr_size) = Ok datasets) as [datasets Hload].
  { apply harness_Ok_inv in Hrun as (datasets & _ & _ & _ & _ & _ & _ & _ & _ & _
      & Hload & _). by exists datasets. }
  destruct (harness_runs std_sort now arr_size w datasets Hload)
    as (w2 & Hrun2 & Hclock & _ & _ & Htable).
  rewrite Hrun in Hrun2. injection Hrun2 as <-.
  split; [done|]. split.
  { unfold rows. apply zip_rows_length; (done || apply durations_length). }
  split; [done|]. split.
  - intros m Hmono. unfold elapsed_ms, duration_cast_milliseconds.
    set (d := (now (S m) - now m)%Z) in *.
    assert (0 <= d)%Z as Hd by (subst d; lia).
    pose proof (Z.quot_rem' d 1000000) as Hqr.
    pose proof (Z.rem_bound_pos d 1000000 Hd ltac:(lia)) as Hrem.
    pose proof (Z.quot_pos d 1000000 Hd ltac:(lia)). lia.
  - intros Hmono. unfold rows.
    apply zip_rows_nonnegative; by apply durations_nonnegative.
Qed.

Lemma X17_witness :
  contents (disk two_sizes_final) !! dataset_name 1
  = contents (disk two_sizes_world) !! dataset_name 1.
Proof.
  destruct (X17_harness_keeps_datasets insertion_sort ticking [1; 2]%Z
              two_sizes_world two_sizes_final) as [Hkept _].
  - vm_compute. reflexivity.
  - exact (Hkept 1%Z).
Defined.

Lemma X18_witness : clock_reads two_sizes_final = 0 + 8 * 2.
Proof.
  destruct (X18_table_from_clock insertion_sort ticking [1; 2]%Z
              two_sizes_world two_sizes_final) as [Hclock _].
  - vm_compute. reflexivity.
  - exact Hclock.
Defined.

(** ** Dates *)

Lemma string_lt_digit a b s t :
  (a < 10)%N -> (b < 10)%N ->
  string_lt (String (digit_char a) s) (String (digit_char b) t) =
    if (a <? b)%N then true else if (b <? a)%N then false else string_lt s t.
Proof.
  intros Ha Hb. cbn [string_lt]. rewrite !digit_char_code by done.
  destruct (N.ltb_spec a b) as [Hab|Hab].
  { by rewrite (proj2 (N.ltb_lt (48 + a) (48 + b))) by lia. }
  rewrite (proj2 (N.ltb_ge (48 + a) (48 + b))) by lia.
  destruct (N.ltb_spec b a) as [Hba|Hba].
  { by rewrite (proj2 (N.ltb_lt (48 + b) (48 + a))) by lia. }
  by rewrite (proj2 (N.ltb_ge (48 + b) (48 + a))) by lia.
Qed.

Lemma string_lt_two_digits m n s t :
  (m < 100)%N -> (n < 100)%N ->
  string_lt (two_digits m +:+ s) (two_digits n +:+ t) =
    if (m <? n)%N then true else if (n <? m)%N then false else string_lt s t.
Proof.
  intros Hm Hn.
  change (two_digits m +:+ s)
    with (String (digit_char (m / 10)) (String (digit_char (m mod 10)) s)).
  change (two_digits n +:+ t)
    with (String (digit_char (n / 10)) (String (digit_char (n mod 10)) t)).
  pose proof (N.div_mod' m 10) as Em. pose proof (N.div_mod' n 10) as En.
  pose proof (N.mod_upper_bound m 10 ltac:(lia)) as Rm.
  pose proof (N.mod_upper_bound n 10 ltac:(lia)) as Rn.
  assert (m / 10 < 10)%N as Qm by (apply N.Div0.div_lt_upper_bound; lia).
  assert (n / 10 < 10)%N as Qn by (apply N.Div0.div_lt_upper_bound; lia).
  rewrite !string_lt_digit by done.
  revert Em En Rm Rn Qm Qn.
  generalize (m / 10)%N (m mod 10)%N (n / 10)%N (n mod 10)%N.
  intros qm rm qn rn Em En Rm Rn Qm Qn.
  destruct (N.ltb_spec qm qn), (N.ltb_spec qn qm), (N.ltb_spec rm rn),
    (N.ltb_spec rn rm), (N.ltb_spec m n), (N.ltb_spec n m); try lia; done.
Qed.

Lemma string_lt_dash s t : string_lt (String "-" s) (String "-" t) = string_lt s t.
Proof. done. Qed.

Lemma string_lt_date y1 m1 d1 y2 m2 d2 :
  (y1 < 10000)%N -> (m1 < 100)%N -> (d1 < 100)%N ->
  (y2 < 10000)%N -> (m2 < 100)%N -> (d2 < 100)%N ->
  string_lt (date_text y1 m1 d1) (date_text y2 m2 d2) = true
  <-> date_before y1 m1 d1 y2 m2 d2.
Proof.
  intros Hy1 Hm1 Hd1 Hy2 Hm2 Hd2. unfold date_text, date_before.
  pose proof (N.div_mod' y1 100) as E1. pose proof (N.div_mod' y2 100) as E2.
  pose proof (N.mod_upper_bound y1 100 ltac:(lia)) as R1.
  pose proof (N.mod_upper_bound y2 100 ltac:(lia)) as R2.
  assert (y1 / 100 < 100)%N as Q1 by (apply N.Div0.div_lt_upper_bound; lia).
  assert (y2 / 100 < 100)%N as Q2 by (apply N.Div0.div_lt_upper_bound; lia).
  rewrite !string_lt_two_digits by done.
  change ("-" +:+ ?s) with (String "-" s). rewrite string_lt_dash.
  rewrite string_lt_two_digits by done.
  change ("-" +:+ ?s) with (String "-" s). rewrite string_lt_dash.
  rewrite <- (append_nil_r (two_digits d1)), <- (append_nil_r (two_digits d2)).
  rewrite string_lt_two_digits by done. cbn [string_lt].
  revert E1 E2 R1 R2 Q1 Q2.
  generalize (y1 / 100)%N (y1 mod 100)%N (y2 / 100)%N (y2 mod 100)%N.
  intros q1 r1 q2 r2 E1 E2 R1 R2 Q1 Q2.
  destruct (N.ltb_spec q1 q2), (N.ltb_spec q2 q1), (N.ltb_spec r1 r2),
    (N.ltb_spec r2 r1), (N.ltb_spec m1 m2), (N.ltb_spec m2 m1),
    (N.ltb_spec d1 d2), (N.ltb_spec d2 d1);
    try lia; split; (done || lia).
Qed.

(** X19: on dates written "YYYY-MM-DD" with zero-padded numbers the order
    of [operator<] is the order of the calendar: a ticket of an earlier
    draw is smaller than a ticket of a later one, whatever their amounts
    and numbers. *)
Theorem X19_dates_in_calendar_order y1 m1 d1 y2 m2 d2 (a b : LotteryTicket) :
  (y1 < 10000)%N -> (m1 < 100)%N -> (d1 < 100)%N ->
  (y2 < 10000)%N -> (m2 < 100)%N -> (d2 < 100)%N ->
  lotteryDate a = date_text y1 m1 d1 ->
  lotteryDate b = date_text y2 m2 d2 ->
  (string_lt (lotteryDate a) (lotteryDate b) = true
   <-> date_before y1 m1 d1 y2 m2 d2)
  /\ (date_before y1 m1 d1 y2 m2 d2 ->
      ticket_lt a b = true /\ ticket_lt b a = false).
Proof.
  intros Hy1 Hm1 Hd1 Hy2 Hm2 Hd2 Ha Hb.
  assert (string_lt (lotteryDate a) (lotteryDate b) = true
          <-> date_before y1 m1 d1 y2 m2 d2) as Hiff.
  { rewrite Ha, Hb. by apply string_lt_date. }
  split; [done|]. intros Hbefore. apply Hiff in Hbefore.
  assert (ticket_lt a b = true) as Hab.
  { apply ticket_lt_precedes. left. by apply string_lt_lex. }
  split; [done | by apply ticket_lt_asym].
Qed.

Lemma X19_witness :
  ticket_lt (mkLotteryTicket 3 5 "2024-04-01" 0) (mkLotteryTicket 2 20 "2024-05-01" 100)
  = true.
Proof.
  assert (2024 < 10000)%N as Hy by reflexivity.
  assert (4 < 100)%N as Hm1 by reflexivity.
  assert (5 < 100)%N as Hm2 by reflexivity.
  assert (1 < 100)%N as Hd by reflexivity.
  destruct (X19_dates_in_calendar_order 2024 4 1 2024 5 1
              (mkLotteryTicket 3 5 "2024-04-01" 0)
              (mkLotteryTicket 2 20 "2024-05-01" 100)
              Hy Hm1 Hd Hy Hm2 Hd eq_refl eq_refl) as [_ Hlt].
  destruct Hlt as [Hab _]; [|exact Hab].
  unfold date_before. right. split; [reflexivity|]. left. reflexivity.
Defined.

(** ** Numbers followed by other characters *)

Lemma read_digits_append s t acc :
  starts_with_digit t = false -> read_digits (s +:+ t) acc = read_digits s acc.
Proof.
  intros Ht. revert acc. induction s as [|c s IH]; intros acc; simpl.
  - destruct t as [|c t]; [done|]. simpl in *. by rewrite Ht.
  - destruct (is_digit c); [apply IH | done].
Qed.

Lemma starts_with_digit_append s t :
  starts_with_digit t = false -> starts_with_digit (s +:+ t) = starts_with_digit s.
Proof. intros Ht. by destruct s. Qed.

Lemma skip_spaces_append s t :
  is_empty (skip_spaces s) = false -> skip_spaces (s +:+ t) = skip_spaces s +:+ t.
Proof.
  induction s as [|c s IH]; simpl; [done|].
  destruct (is_space c); [apply IH | done].
Qed.

Lemma strtoll_append s t v :
  strtoll s = Some v -> starts_with_digit t = false -> strtoll (s +:+ t) = Some v.
Proof.
  unfold strtoll. intros Hs Ht.
  destruct (skip_spaces s) as [|c s1] eqn:Hskip; [done|].
  rewrite skip_spaces_append by (by rewrite Hskip). rewrite Hskip.
  change (String c s1 +:+ t) with (String c (s1 +:+ t)).
  cbv beta iota zeta. revert Hs.
  destruct (Ascii.eqb c "-"); [|destruct (Ascii.eqb c "+")]; cbv beta iota zeta.
  - by rewrite starts_with_digit_append, read_digits_append.
  - by rewrite starts_with_digit_append, read_digits_append.
  - change (String c (s1 +:+ t)) with (String c s1 +:+ t).
    by rewrite starts_with_digit_append, read_digits_append.
Qed.

Lemma stoi_append s t v :
  stoi s = Ok v -> starts_with_digit t = false -> stoi (s +:+ t) = Ok v.
Proof.
  unfold stoi. intros Hs Ht. destruct (strtoll s) as [z|] eqn:Hz; [|done].
  by rewrite (strtoll_append s t z Hz Ht).
Qed.

Lemma fields_append_free s junk :
  free_of "," junk = true ->
  fields (s +:+ junk) = removelast (fields s) ++ [List.last (fields s) "" +:+ junk].
Proof.
  intros Hj. induction s as [|c s IH].
  - simpl. by apply fields_free.
  - change (String c s +:+ junk) with (String c (s +:+ junk)).
    cbn [fields]. rewrite IH.
    assert (fields s <> []) as Hne by (destruct s as [|c' s']; simpl;
      [done | destruct (Ascii.eqb c' ","); [done | by destruct (fields s')]]).
    destruct (Ascii.eqb c ",").
    + destruct (fields s) as [|f fs] eqn:Hf; [done|]. done.
    + destruct (fields s) as [|f fs] eqn:Hf; [done|].
      destruct fs as [|f' fs]; done.
Qed.

(** X20: characters after the digits of the last number of a line are
    ignored: a line of four fields that loads as a ticket loads as the same
    ticket when text that holds no comma and does not begin with a digit is
    appended to it. *)
Theorem X20_trailing_text_ignored line junk t :
  length (fields line) = 4 ->
  parse_line line = Ok t ->
  free_of "," junk = true ->
  starts_with_digit junk = false ->
  parse_line (line +:+ junk) = Ok t.
Proof.
  intros Hlen Hline Hcomma Hdigit.
  rewrite parse_line_convert in *. unfold convert_line, item in *.
  rewrite fields_append_free by done.
  destruct (fields line) as [|a [|b [|c [|d [|e fs]]]]]; simpl in Hlen; try lia.
  simpl in *.
  destruct (stoll a) as [num|e1]; cbn [bind] in *; [|done].
  destruct (stoi b) as [k|e2]; cbn [bind] in *; [|done].
  destruct (stoi d) as [win|e3] eqn:Hd; cbn [bind] in *; [|done].
  by rewrite (stoi_append d junk win Hd Hdigit).
Qed.

Lemma X20_witness :
  parse_line ("1,10,2024-05-01,50" +:+ " euros")
  = Ok (mkLotteryTicket 1 10 "2024-05-01" 50).
Proof.
  apply X20_trailing_text_ignored; reflexivity.
Defined.
